(** * The audio output worker of MPD (output thread)

    A shallow embedding of the per-output worker thread
    ([AudioOutput::Task] and the methods it calls) together with the
    [Tag] structure of [Tag.hxx].

    Conventions of the embedding.

    - The worker is sequential code run under one mutex.  It is written
      in a state monad over a [World]: the [AudioOutput] object, a
      logical clock [tick] and the [trace] of every call that leaves the
      worker (plugin, filters, pipe, condition variable, notifications,
      mutex operations), newest event first.
    - Everything the worker calls but does not define (the device
      plugin, the filters, [pcm_mix], the pipe, the clock) answers
      through an oracle [Env], indexed by the [tick] at which the call
      is made.  The theorems quantify over every oracle.
    - The controller thread can only touch the object while the worker
      has released the mutex.  Each time the worker re-acquires it
      ([lock], [cond.wait], [cond.timed_wait]) the oracle may hand in
      one [CtlAction]: what the controller has done to the object since
      the worker released the mutex.  Like the real controller it
      writes the command slot only when the slot is [AO_COMMAND_NONE].
      The worker reads the object under the mutex only, so for the
      worker it makes no difference when, between the release and the
      re-acquisition, the controller has acted; the trace records the
      action at the re-acquisition and does not order it against the
      calls the worker has made meanwhile.
    - A parameter passed by reference ([AudioFormat &], [unsigned *])
      is a cell: the name of the member it refers to.  What the callee
      leaves in it is written back to the object.
    - [assert] is the debug-build assertion: when it fails the worker
      aborts ([Aborted]).
    - Loops get a [fuel] argument; a loop that has not finished when
      the fuel is gone yields [OutOfFuel] with the state reached so far.
    - Log output ([FormatError], [FormatDebug]) and the thread set-up
      calls at the head of [Task] have no effect on the object and are
      left out. *)

From Stdlib Require Import List NArith ZArith Bool Lia.
From Stdlib Require Import Strings.Byte.
Import ListNotations.

Set Implicit Arguments.

(** ** Tag.hxx *)

Module TagModel.

Section WithItems.
Variable TagItem : Type.

(** [struct Tag]: [num_items] is the length of [items]. *)
Record Tag := mkTag {
  time : Z;
  has_playlist : bool;
  items : list TagItem
}.

Definition num_items (t : Tag) : N := N.of_nat (List.length (items t)).

(** [Tag()] *)
Definition Tag_new : Tag := mkTag (-1)%Z false [].

(** [Tag::IsEmpty] *)
Definition IsEmpty (t : Tag) : bool := N.eqb (num_items t) 0.

(** [Tag::IsDefined] *)
Definition IsDefined (t : Tag) : bool := negb (IsEmpty t) || Z.leb 0 (time t).

(** [Tag(Tag &&other)]: the new tag and what is left in [other]. *)
Definition Tag_move (other : Tag) : Tag * Tag :=
  (mkTag (time other) (has_playlist other) (items other),
   mkTag (time other) (has_playlist other) []).

(** [operator=(Tag &&other)]: [time] and [has_playlist] are copied, the
    items are swapped. *)
Definition Tag_move_assign (this other : Tag) : Tag * Tag :=
  (mkTag (time other) (has_playlist other) (items other),
   mkTag (time other) (has_playlist other) (items this)).

End WithItems.

End TagModel.

(** ** What the worker uses but does not define *)

(** Types and pure helpers declared in headers that are not part of the
    sources ([AudioFormat.hxx], [MusicChunk.hxx], the sample arithmetic
    of the cross-fade weight).  [Undefined_IsDefined] is the one fact
    about them the worker relies on. *)
Class Externals := {
  AudioFormat : Type;
  SampleFormat : Type;
  format : AudioFormat -> SampleFormat;
  IsValid : AudioFormat -> bool;
  IsDefined : AudioFormat -> bool;
  IsFullyDefined : AudioFormat -> bool;
  ApplyMask : AudioFormat -> AudioFormat -> AudioFormat;
  Undefined : AudioFormat;
  GetFrameSize : AudioFormat -> N;
  Undefined_IsDefined : IsDefined Undefined = false;
  (** [float]; [one_minus r] is the value of [1.0 - r] *)
  Ratio : Type;
  one_minus : Ratio -> Ratio;
  ReplayGainInfo : Type;
  TagItem : Type
}.

(** [enum audio_output_command] *)
Inductive Command :=
| AO_COMMAND_NONE
| AO_COMMAND_ENABLE
| AO_COMMAND_DISABLE
| AO_COMMAND_OPEN
| AO_COMMAND_REOPEN
| AO_COMMAND_CLOSE
| AO_COMMAND_PAUSE
| AO_COMMAND_DRAIN
| AO_COMMAND_CANCEL
| AO_COMMAND_KILL.

Definition is_NONE (c : Command) : bool :=
  match c with AO_COMMAND_NONE => true | _ => false end.

(** Pointers: a chunk, a pipe and a filter are named by an address. *)
Definition ChunkPtr := N.
Definition MusicPipe := N.
Definition Filter := N.

(** Modelled from the spec: FailTimer, the cooldown clock (its class is
    not part of the sources).  [Update] sets it to now, [Reset] clears
    it, [IsDefined] holds between an update and the next reset. *)
Module FailTimer.
Definition t := option N.
Definition Reset (_ : t) : t := None.
Definition Update (now : N) (_ : t) : t := Some now.
Definition IsDefined (f : t) : bool :=
  match f with Some _ => true | None => false end.
End FailTimer.

Section Worker.

Context {X : Externals}.

Definition Tag := TagModel.Tag TagItem.

(** [struct music_chunk], read-only for the worker. *)
Record music_chunk := mk_chunk {
  next : option ChunkPtr;
  other : option ChunkPtr;
  mix_ratio : Ratio;
  tag : option Tag;
  replay_gain_info : ReplayGainInfo;
  chunk_replay_gain_serial : N;
  length : N;
  data : list byte
}.

(** The members of [struct AudioOutput] the worker reads or writes. *)
Record AudioOutput := mk_ao {
  tags : bool;
  really_enabled : bool;
  open : bool;
  pause : bool;
  allow_play : bool;
  in_playback_loop : bool;
  woken_for_play : bool;
  fail_timer : FailTimer.t;
  config_audio_format : AudioFormat;
  in_audio_format : AudioFormat;
  out_audio_format : AudioFormat;
  cross_fade_buffer : list byte;
  filter : Filter;
  replay_gain_filter : option Filter;
  replay_gain_serial : N;
  other_replay_gain_filter : option Filter;
  other_replay_gain_serial : N;
  convert_filter : Filter;
  command : Command;
  pipe : option MusicPipe;
  current_chunk : option ChunkPtr;
  current_chunk_finished : bool
}.

Definition set_really_enabled (v : bool) (s : AudioOutput) : AudioOutput :=
  mk_ao (tags s) v (open s) (pause s) (allow_play s) (in_playback_loop s)
    (woken_for_play s) (fail_timer s) (config_audio_format s)
    (in_audio_format s) (out_audio_format s) (cross_fade_buffer s) (filter s)
    (replay_gain_filter s) (replay_gain_serial s)
    (other_replay_gain_filter s) (other_replay_gain_serial s)
    (convert_filter s) (command s) (pipe s) (current_chunk s)
    (current_chunk_finished s).

Definition set_open (v : bool) (s : AudioOutput) : AudioOutput :=
  mk_ao (tags s) (really_enabled s) v (pause s) (allow_play s)
    (in_playback_loop s) (woken_for_play s) (fail_timer s)
    (config_audio_format s) (in_audio_format s) (out_audio_format s)
    (cross_fade_buffer s) (filter s) (replay_gain_filter s)
    (replay_gain_serial s) (other_replay_gain_filter s)
    (other_replay_gain_serial s) (convert_filter s) (command s) (pipe s)
    (current_chunk s) (current_chunk_finished s).

Definition set_pause (v : bool) (s : AudioOutput) : AudioOutput :=
  mk_ao (tags s) (really_enabled s) (open s) v (allow_play s)
    (in_playback_loop s) (woken_for_play s) (fail_timer s)
    (config_audio_format s) (in_audio_format s) (out_audio_format s)
    (cross_fade_buffer s) (filter s) (replay_gain_filter s)
    (replay_gain_serial s) (other_replay_gain_filter s)
    (other_replay_gain_serial s) (convert_filter s) (command s) (pipe s)
    (current_chunk s) (current_chunk_finished s).

Definition set_allow_play (v : bool) (s : AudioOutput) : AudioOutput :=
  mk_ao (tags s) (really_enabled s) (open s) (pause s) v
    (in_playback_loop s) (woken_for_play s) (fail_timer s)
    (config_audio_format s) (in_audio_format s) (out_audio_format s)
    (cross_fade_buffer s) (filter s) (replay_gain_filter s)
    (replay_gain_serial s) (other_replay_gain_filter s)
    (other_replay_gain_serial s) (convert_filter s) (command s) (pipe s)
    (current_chunk s) (current_chunk_finished s).

Definition set_in_playback_loop (v : bool) (s : AudioOutput) : AudioOutput :=
  mk_ao (tags s) (really_enabled s) (open s) (pause s) (allow_play s) v
    (woken_for_play s) (fail_timer s) (config_audio_format s)
    (in_audio_format s) (out_audio_format s) (cross_fade_buffer s) (filter s)
    (replay_gain_filter s) (replay_gain_serial s)
    (other_replay_gain_filter s) (other_replay_gain_serial s)
    (convert_filter s) (command s) (pipe s) (current_chunk s)
    (current_chunk_finished s).

Definition set_woken_for_play (v : bool) (s : AudioOutput) : AudioOutput :=
  mk_ao (tags s) (really_enabled s) (open s) (pause s) (allow_play s)
    (in_playback_loop s) v (fail_timer s) (config_audio_format s)
    (in_audio_format s) (out_audio_format s) (cross_fade_buffer s) (filter s)
    (replay_gain_filter s) (replay_gain_serial s)
    (other_replay_gain_filter s) (other_replay_gain_serial s)
    (convert_filter s) (command s) (pipe s) (current_chunk s)
    (current_chunk_finished s).

Definition set_fail_timer (v : FailTimer.t) (s : AudioOutput) : AudioOutput :=
  mk_ao (tags s) (really_enabled s) (open s) (pause s) (allow_play s)
    (in_playback_loop s) (woken_for_play s) v (config_audio_format s)
    (in_audio_format s) (out_audio_format s) (cross_fade_buffer s) (filter s)
    (replay_gain_filter s) (replay_gain_serial s)
    (other_replay_gain_filter s) (other_replay_gain_serial s)
    (convert_filter s) (command s) (pipe s) (current_chunk s)
    (current_chunk_finished s).

Definition set_config_audio_format (v : AudioFormat) (s : AudioOutput)
  : AudioOutput :=
  mk_ao (tags s) (really_enabled s) (open s) (pause s) (allow_play s)
    (in_playback_loop s) (woken_for_play s) (fail_timer s) v
    (in_audio_format s) (out_audio_format s) (cross_fade_buffer s)
    (filter s) (replay_gain_filter s) (replay_gain_serial s)
    (other_replay_gain_filter s) (other_replay_gain_serial s)
    (convert_filter s) (command s) (pipe s) (current_chunk s)
    (current_chunk_finished s).

Definition set_in_audio_format (v : AudioFormat) (s : AudioOutput)
  : AudioOutput :=
  mk_ao (tags s) (really_enabled s) (open s) (pause s) (allow_play s)
    (in_playback_loop s) (woken_for_play s) (fail_timer s)
    (config_audio_format s) v (out_audio_format s) (cross_fade_buffer s)
    (filter s) (replay_gain_filter s) (replay_gain_serial s)
    (other_replay_gain_filter s) (other_replay_gain_serial s)
    (convert_filter s) (command s) (pipe s) (current_chunk s)
    (current_chunk_finished s).

Definition set_out_audio_format (v : AudioFormat) (s : AudioOutput)
  : AudioOutput :=
  mk_ao (tags s) (really_enabled s) (open s) (pause s) (allow_play s)
    (in_playback_loop s) (woken_for_play s) (fail_timer s)
    (config_audio_format s) (in_audio_format s) v (cross_fade_buffer s)
    (filter s) (replay_gain_filter s) (replay_gain_serial s)
    (other_replay_gain_filter s) (other_replay_gain_serial s)
    (convert_filter s) (command s) (pipe s) (current_chunk s)
    (current_chunk_finished s).

Definition set_cross_fade_buffer (v : list byte) (s : AudioOutput)
  : AudioOutput :=
  mk_ao (tags s) (really_enabled s) (open s) (pause s) (allow_play s)
    (in_playback_loop s) (woken_for_play s) (fail_timer s)
    (config_audio_format s) (in_audio_format s) (out_audio_format s) v
    (filter s) (replay_gain_filter s) (replay_gain_serial s)
    (other_replay_gain_filter s) (other_replay_gain_serial s)
    (convert_filter s) (command s) (pipe s) (current_chunk s)
    (current_chunk_finished s).

Definition set_replay_gain_serial (v : N) (s : AudioOutput) : AudioOutput :=
  mk_ao (tags s) (really_enabled s) (open s) (pause s) (allow_play s)
    (in_playback_loop s) (woken_for_play s) (fail_timer s)
    (config_audio_format s) (in_audio_format s) (out_audio_format s)
    (cross_fade_buffer s) (filter s) (replay_gain_filter s) v
    (other_replay_gain_filter s) (other_replay_gain_serial s)
    (convert_filter s) (command s) (pipe s) (current_chunk s)
    (current_chunk_finished s).

Definition set_other_replay_gain_serial (v : N) (s : AudioOutput)
  : AudioOutput :=
  mk_ao (tags s) (really_enabled s) (open s) (pause s) (allow_play s)
    (in_playback_loop s) (woken_for_play s) (fail_timer s)
    (config_audio_format s) (in_audio_format s) (out_audio_format s)
    (cross_fade_buffer s) (filter s) (replay_gain_filter s)
    (replay_gain_serial s) (other_replay_gain_filter s) v
    (convert_filter s) (command s) (pipe s) (current_chunk s)
    (current_chunk_finished s).

Definition set_command (v : Command) (s : AudioOutput) : AudioOutput :=
  mk_ao (tags s) (really_enabled s) (open s) (pause s) (allow_play s)
    (in_playback_loop s) (woken_for_play s) (fail_timer s)
    (config_audio_format s) (in_audio_format s) (out_audio_format s)
    (cross_fade_buffer s) (filter s) (replay_gain_filter s)
    (replay_gain_serial s) (other_replay_gain_filter s)
    (other_replay_gain_serial s) (convert_filter s) v (pipe s)
    (current_chunk s) (current_chunk_finished s).

Definition set_pipe (v : option MusicPipe) (s : AudioOutput) : AudioOutput :=
  mk_ao (tags s) (really_enabled s) (open s) (pause s) (allow_play s)
    (in_playback_loop s) (woken_for_play s) (fail_timer s)
    (config_audio_format s) (in_audio_format s) (out_audio_format s)
    (cross_fade_buffer s) (filter s) (replay_gain_filter s)
    (replay_gain_serial s) (other_replay_gain_filter s)
    (other_replay_gain_serial s) (convert_filter s) (command s) v
    (current_chunk s) (current_chunk_finished s).

Definition set_current_chunk (v : option ChunkPtr) (s : AudioOutput)
  : AudioOutput :=
  mk_ao (tags s) (really_enabled s) (open s) (pause s) (allow_play s)
    (in_playback_loop s) (woken_for_play s) (fail_timer s)
    (config_audio_format s) (in_audio_format s) (out_audio_format s)
    (cross_fade_buffer s) (filter s) (replay_gain_filter s)
    (replay_gain_serial s) (other_replay_gain_filter s)
    (other_replay_gain_serial s) (convert_filter s) (command s) (pipe s) v
    (current_chunk_finished s).

Definition set_current_chunk_finished (v : bool) (s : AudioOutput)
  : AudioOutput :=
  mk_ao (tags s) (really_enabled s) (open s) (pause s) (allow_play s)
    (in_playback_loop s) (woken_for_play s) (fail_timer s)
    (config_audio_format s) (in_audio_format s) (out_audio_format s)
    (cross_fade_buffer s) (filter s) (replay_gain_filter s)
    (replay_gain_serial s) (other_replay_gain_filter s)
    (other_replay_gain_serial s) (convert_filter s) (command s) (pipe s)
    (current_chunk s) v.

(** ** The controller, the environment and the trace *)

(** What the controller thread may do to the object while the worker
    does not hold the mutex: post a command (or none) and set [pipe],
    [in_audio_format], [allow_play] and [woken_for_play].  It cannot
    clear [pipe], and it has no access to [open], [really_enabled],
    [current_chunk] or the fail timer. *)
Record CtlAction := mk_ctl {
  ctl_command : Command;
  ctl_pipe : option MusicPipe;
  ctl_in_audio_format : option AudioFormat;
  ctl_allow_play : option bool;
  ctl_woken_for_play : option bool
}.

Definition ctl_apply (a : CtlAction) (s : AudioOutput) : AudioOutput :=
  let s := match ctl_pipe a with
           | Some mp => set_pipe (Some mp) s | None => s end in
  let s := match ctl_in_audio_format a with
           | Some f => set_in_audio_format f s | None => s end in
  let s := match ctl_allow_play a with
           | Some b => set_allow_play b s | None => s end in
  let s := match ctl_woken_for_play a with
           | Some b => set_woken_for_play b s | None => s end in
  set_command (ctl_command a) s.

(** The answers of everything outside the worker.  The first argument
    of each oracle is the [tick] of the call. *)
Record Env := mk_env {
  controller : nat -> option CtlAction;
  clock_now : nat -> N;
  chunk_deref : ChunkPtr -> music_chunk;
  chunk_IsEmpty : music_chunk -> bool;
  chunk_CheckFormat : music_chunk -> AudioFormat -> bool;
  ao_plugin_enable : nat -> bool;
  (** [ao_plugin_open] takes the format by reference: success flag and
      the format the device settled on *)
  ao_plugin_open : nat -> AudioFormat -> bool * AudioFormat;
  ao_plugin_delay : nat -> N;
  ao_plugin_play : nat -> list byte -> N -> N;
  ao_plugin_pause : nat -> bool;
  (** [Filter::Open] takes the format by reference: the format the
      filter leaves in it and the format it returns *)
  filter_Open : nat -> Filter -> AudioFormat -> AudioFormat * AudioFormat;
  filter_FilterPCM : nat -> Filter -> list byte -> N -> option (list byte * N);
  convert_filter_set : nat -> Filter -> AudioFormat -> bool;
  pcm_mix : nat -> list byte -> list byte -> N -> SampleFormat -> Ratio ->
            option (list byte);
  pipe_Peek : nat -> MusicPipe -> option ChunkPtr
}.

Inductive Event :=
| EvUnlock
| EvLock (posted : option CtlAction)
| EvCondWait (posted : option CtlAction)
| EvCondTimedWait (delay : N) (posted : option CtlAction)
| EvClientNotify
| EvPlayerSignal
| EvPluginEnable (success : bool)
| EvPluginDisable
| EvPluginOpen (f : AudioFormat) (result : bool * AudioFormat)
| EvPluginClose
| EvPluginDrain
| EvPluginCancel
| EvPluginDelay (delay : N)
| EvPluginPause (success : bool)
| EvPluginSendTag (t : Tag)
| EvPluginPlay (d : list byte) (size : N) (nbytes : N)
| EvFilterOpen (f : Filter) (af : AudioFormat)
               (result : AudioFormat * AudioFormat)
| EvFilterClose (f : Filter)
| EvFilterPCM (f : Filter) (d : list byte) (len : N)
              (result : option (list byte * N))
| EvSetInfo (f : Filter) (info : option ReplayGainInfo)
| EvConvertSet (f : Filter) (af : AudioFormat) (success : bool)
| EvPcmMix (dest src : list byte) (len : N) (sf : SampleFormat)
           (portion1 : Ratio) (result : option (list byte))
| EvPeek (mp : MusicPipe) (result : option ChunkPtr).

Record World := mk_world {
  ao : AudioOutput;
  tick : nat;
  trace : list Event
}.

Inductive result (A : Type) :=
| Ok (a : A) (w : World)
| Aborted (w : World)
| OutOfFuel (w : World).

Arguments Aborted {A} w.
Arguments OutOfFuel {A} w.

Definition M (A : Type) := World -> result A.

Definition ret {A} (a : A) : M A := fun w => Ok a w.

Definition bind {A B} (m : M A) (f : A -> M B) : M B :=
  fun w => match m w with
           | Ok a w' => f a w'
           | Aborted w' => Aborted w'
           | OutOfFuel w' => OutOfFuel w'
           end.

Definition final {A} (r : result A) : World :=
  match r with Ok _ w => w | Aborted w => w | OutOfFuel w => w end.

End Worker.

Arguments Aborted {X A} w.
Arguments OutOfFuel {X A} w.

Declare Scope ao_scope.
Delimit Scope ao_scope with ao.
Notation "x <- m ;; k" := (bind m (fun x => k))
  (at level 61, m at next level, right associativity) : ao_scope.
Notation "m ;; k" := (bind m (fun _ => k))
  (at level 61, right associativity) : ao_scope.
Notation "' pat <- m ;; k" := (bind m (fun x => match x with pat => k end))
  (at level 61, pat pattern, m at next level, right associativity) : ao_scope.
Open Scope ao_scope.

Section Methods.

Context {X : Externals}.
Variable env : Env.

Definition get : M AudioOutput := fun w => Ok (ao w) w.

Definition modify (f : AudioOutput -> AudioOutput) : M unit :=
  fun w => Ok tt (mk_world (f (ao w)) (tick w) (trace w)).

Definition emit (e : Event) : M unit :=
  fun w => Ok tt (mk_world (ao w) (tick w) (e :: trace w)).

(** Ask the oracle; every question advances the clock. *)
Definition ask {A} (q : Env -> nat -> A) : M A :=
  fun w => Ok (q env (tick w)) (mk_world (ao w) (S (tick w)) (trace w)).

Definition call {A} (q : Env -> nat -> A) (ev : A -> Event) : M A :=
  a <- ask q ;; emit (ev a) ;; ret a.

Definition assert (b : bool) : M unit :=
  fun w => if b then Ok tt w else Aborted w.

Definition out_of_fuel {A} : M A := fun w => OutOfFuel w.

(** The mutex has been free: what the controller has done to the
    object meanwhile, if anything; it acts only if the command slot is
    empty.  The worker finds it when it takes the mutex back. *)
Definition window : M (option CtlAction) :=
  s <- get ;;
  a <- ask controller ;;
  match a with
  | Some act =>
      if is_NONE (command s)
      then modify (ctl_apply act) ;; ret (Some act)
      else ret None
  | None => ret None
  end.

Definition unlock : M unit := emit EvUnlock.

Definition lock : M unit := a <- window ;; emit (EvLock a).

(** [cond.wait(mutex)] and [cond.timed_wait(mutex, delay)] release the
    mutex while they sleep. *)
Definition cond_wait : M unit := a <- window ;; emit (EvCondWait a).

Definition cond_timed_wait (delay : N) : M unit :=
  a <- window ;; emit (EvCondTimedWait delay a).

Definition fail_timer_Reset : M unit :=
  modify (fun s => set_fail_timer (FailTimer.Reset (fail_timer s)) s).

Definition fail_timer_Update : M unit :=
  now <- ask clock_now ;;
  modify (fun s => set_fail_timer (FailTimer.Update now (fail_timer s)) s).

Definition is_null {A} (p : option A) : bool :=
  match p with Some _ => false | None => true end.

(** ** OutputThread.cxx *)

(** [AudioOutput::CommandFinished] *)
Definition CommandFinished : M unit :=
  s <- get ;;
  assert (negb (is_NONE (command s))) ;;
  modify (set_command AO_COMMAND_NONE) ;;
  unlock ;;
  emit EvClientNotify ;;
  lock.

(** [AudioOutput::Enable] *)
Definition Enable : M bool :=
  s <- get ;;
  if really_enabled s then ret true
  else
    unlock ;;
    success <- call ao_plugin_enable EvPluginEnable ;;
    lock ;;
    if negb success then ret false
    else modify (set_really_enabled true) ;; ret true.

(** Closing a filter that may be absent: [if (f != nullptr) f->Close()]. *)
Definition close_if_present (f : option Filter) : M unit :=
  match f with
  | Some fl => emit (EvFilterClose fl)
  | None => ret tt
  end.

(** The [AudioFormat &format] argument of [OpenFilter] refers to one of
    the format members of the object. *)
Inductive FormatCell := ConfigAudioFormat | InAudioFormat | OutAudioFormat.

Definition format_get (c : FormatCell) (s : AudioOutput) : AudioFormat :=
  match c with
  | ConfigAudioFormat => config_audio_format s
  | InAudioFormat => in_audio_format s
  | OutAudioFormat => out_audio_format s
  end.

Definition format_set (c : FormatCell) (v : AudioFormat) (s : AudioOutput)
  : AudioOutput :=
  match c with
  | ConfigAudioFormat => set_config_audio_format v s
  | InAudioFormat => set_in_audio_format v s
  | OutAudioFormat => set_out_audio_format v s
  end.

(** [f->Open(format, error_r)]: the filter reads the format it is
    handed and may change it; the result is the format it returns. *)
Definition Filter_Open (fl : Filter) (format : FormatCell) : M AudioFormat :=
  s <- get ;;
  r <- call (fun e n => filter_Open e n fl (format_get format s))
            (EvFilterOpen fl (format_get format s)) ;;
  modify (format_set format (fst r)) ;;
  ret (snd r).

(** [f != nullptr && !f->Open(format, error_r).IsDefined()] *)
Definition open_fails_if_present (f : option Filter) (format : FormatCell)
  : M bool :=
  match f with
  | Some fl =>
      r <- Filter_Open fl format ;;
      ret (negb (IsDefined r))
  | None => ret false
  end.

(** [AudioOutput::OpenFilter] *)
Definition OpenFilter (format : FormatCell) : M AudioFormat :=
  s <- get ;;
  assert (IsValid (format_get format s)) ;;
  failed <- open_fails_if_present (replay_gain_filter s) format ;;
  if failed then ret Undefined
  else
    failed <- open_fails_if_present (other_replay_gain_filter s) format ;;
    if failed then
      close_if_present (replay_gain_filter s) ;;
      ret Undefined
    else
      af <- Filter_Open (filter s) format ;;
      (if negb (IsDefined af) then
         close_if_present (replay_gain_filter s) ;;
         close_if_present (other_replay_gain_filter s)
       else ret tt) ;;
      ret af.

(** [AudioOutput::CloseFilter] *)
Definition CloseFilter : M unit :=
  s <- get ;;
  close_if_present (replay_gain_filter s) ;;
  close_if_present (other_replay_gain_filter s) ;;
  emit (EvFilterClose (filter s)).

(** [AudioOutput::Open] *)
Definition Open : M unit :=
  s <- get ;;
  assert (negb (open s)) ;;
  assert (negb (is_null (pipe s))) ;;
  assert (is_null (current_chunk s)) ;;
  assert (IsValid (in_audio_format s)) ;;
  fail_timer_Reset ;;
  enabled <- Enable ;;
  if negb enabled then ret tt
  else
    filter_audio_format <- OpenFilter InAudioFormat ;;
    if negb (IsDefined filter_audio_format) then fail_timer_Update
    else
      assert (IsValid filter_audio_format) ;;
      modify (fun s => set_out_audio_format
                         (ApplyMask filter_audio_format
                                    (config_audio_format s)) s) ;;
      unlock ;;
      s <- get ;;
      r <- call (fun e n => ao_plugin_open e n (out_audio_format s))
                (EvPluginOpen (out_audio_format s)) ;;
      modify (set_out_audio_format (snd r)) ;;
      lock ;;
      s <- get ;;
      assert (negb (open s)) ;;
      if negb (fst r) then CloseFilter ;; fail_timer_Update
      else
        ok <- call (fun e n => convert_filter_set e n (convert_filter s)
                                                 (out_audio_format s))
                   (EvConvertSet (convert_filter s) (out_audio_format s)) ;;
        if negb ok then CloseFilter ;; fail_timer_Update
        else modify (set_open true).

(** [AudioOutput::Close] *)
Definition Close (drain : bool) : M unit :=
  s <- get ;;
  assert (open s) ;;
  modify (set_pipe None) ;;
  modify (set_current_chunk None) ;;
  modify (set_open false) ;;
  unlock ;;
  (if drain then emit EvPluginDrain else emit EvPluginCancel) ;;
  emit EvPluginClose ;;
  CloseFilter ;;
  lock.

(** [AudioOutput::Disable] *)
Definition Disable : M unit :=
  s <- get ;;
  (if open s then Close false else ret tt) ;;
  s <- get ;;
  if really_enabled s then
    modify (set_really_enabled false) ;;
    unlock ;;
    emit EvPluginDisable ;;
    lock
  else ret tt.

(** [AudioOutput::ReopenFilter] *)
Definition ReopenFilter : M unit :=
  CloseFilter ;;
  filter_audio_format <- OpenFilter InAudioFormat ;;
  s <- get ;;
  failed <- (if negb (IsDefined filter_audio_format) then ret true
             else
               ok <- call (fun e n => convert_filter_set e n (convert_filter s)
                                        (out_audio_format s))
                          (EvConvertSet (convert_filter s)
                                        (out_audio_format s)) ;;
               ret (negb ok)) ;;
  if failed then
    modify (set_pipe None) ;;
    modify (set_current_chunk None) ;;
    modify (set_open false) ;;
    fail_timer_Update ;;
    unlock ;;
    emit EvPluginClose ;;
    lock
  else ret tt.

(** [AudioOutput::Reopen] *)
Definition Reopen : M unit :=
  s <- get ;;
  (if negb (IsFullyDefined (config_audio_format s)) then
     (if open s then
        let mp := pipe s in
        Close true ;;
        modify (set_pipe mp)
      else ret tt) ;;
     modify (fun s => set_out_audio_format
                        (ApplyMask (in_audio_format s)
                                   (config_audio_format s)) s)
   else ret tt) ;;
  s <- get ;;
  if open s then ReopenFilter else Open.

(** [AudioOutput::WaitForDelay] *)
Fixpoint WaitForDelay (fuel : nat) : M bool :=
  match fuel with
  | O => out_of_fuel
  | S fuel' =>
      delay <- call ao_plugin_delay EvPluginDelay ;;
      if N.eqb delay 0 then ret true
      else
        cond_timed_wait delay ;;
        s <- get ;;
        if negb (is_NONE (command s)) then ret false
        else WaitForDelay fuel'
  end.

(** The [unsigned *replay_gain_serial_p] argument of [ao_chunk_data]
    points to one of the two serial members of the object. *)
Inductive SerialCell := PrimarySerial | OtherSerial.

Definition cell_get (c : SerialCell) (s : AudioOutput) : N :=
  match c with
  | PrimarySerial => replay_gain_serial s
  | OtherSerial => other_replay_gain_serial s
  end.

Definition cell_set (c : SerialCell) (v : N) (s : AudioOutput) : AudioOutput :=
  match c with
  | PrimarySerial => set_replay_gain_serial v s
  | OtherSerial => set_other_replay_gain_serial v s
  end.

(** [ao_chunk_data]; [None] is the null pointer it returns on failure. *)
Definition ao_chunk_data (chunk : ChunkPtr) (rg_filter : option Filter)
    (replay_gain_serial_p : SerialCell) : M (option (list byte * N)) :=
  let c := chunk_deref env chunk in
  s <- get ;;
  assert (negb (chunk_IsEmpty env c)) ;;
  assert (chunk_CheckFormat env c (in_audio_format s)) ;;
  assert (N.eqb (N.modulo (length c) (GetFrameSize (in_audio_format s))) 0) ;;
  match rg_filter with
  | Some f =>
      if N.ltb 0 (length c) then
        (if negb (N.eqb (chunk_replay_gain_serial c)
                        (cell_get replay_gain_serial_p s))
         then
           emit (EvSetInfo f
                   (if negb (N.eqb (chunk_replay_gain_serial c) 0)
                    then Some (replay_gain_info c) else None)) ;;
           modify (cell_set replay_gain_serial_p (chunk_replay_gain_serial c))
         else ret tt) ;;
        call (fun e n => filter_FilterPCM e n f (data c) (length c))
             (EvFilterPCM f (data c) (length c))
      else ret (Some (data c, length c))
  | None => ret (Some (data c, length c))
  end.

(** The tail of [ao_filter_chunk]: "apply filter chain". *)
Definition apply_filter_chain (d : list byte) (len : N)
  : M (option (list byte * N)) :=
  s <- get ;;
  call (fun e n => filter_FilterPCM e n (filter s) d len)
       (EvFilterPCM (filter s) d len).

(** [ao_filter_chunk] *)
Definition ao_filter_chunk (chunk : ChunkPtr) : M (option (list byte * N)) :=
  let c := chunk_deref env chunk in
  s <- get ;;
  r <- ao_chunk_data chunk (replay_gain_filter s) PrimarySerial ;;
  match r with
  | None => ret None
  | Some (d, len) =>
      if N.eqb len 0 then ret (Some (d, 0%N))
      else
        match other c with
        | Some other_chunk =>
            s <- get ;;
            r' <- ao_chunk_data other_chunk (other_replay_gain_filter s)
                                OtherSerial ;;
            match r' with
            | None => ret None
            | Some (other_data, other_length) =>
                if N.eqb other_length 0 then ret (Some (d, 0%N))
                else
                  let len := if N.ltb other_length len
                             then other_length else len in
                  (* dest = cross_fade_buffer.Get(other_length);
                     memcpy(dest, other_data, other_length) *)
                  let dest := firstn (N.to_nat other_length) other_data in
                  modify (set_cross_fade_buffer dest) ;;
                  s <- get ;;
                  mixed <- call (fun e n =>
                                   pcm_mix e n dest d len
                                     (format (in_audio_format s))
                                     (one_minus (mix_ratio c)))
                                (EvPcmMix dest d len
                                     (format (in_audio_format s))
                                     (one_minus (mix_ratio c))) ;;
                  match mixed with
                  | None => ret None
                  | Some dest' =>
                      modify (set_cross_fade_buffer dest') ;;
                      apply_filter_chain dest' other_length
                  end
            end
        | None => apply_filter_chain d len
        end
  end.

(** The [while (size > 0 && command == AO_COMMAND_NONE)] loop of
    [PlayChunk]; the result is what [PlayChunk] returns. *)
Fixpoint PlayChunk_loop (fuel : nat) (d : list byte) (size : N) : M bool :=
  match fuel with
  | O => out_of_fuel
  | S fuel' =>
      s <- get ;;
      if N.ltb 0 size && is_NONE (command s) then
        go <- WaitForDelay fuel' ;;
        if negb go then ret true
        else
          unlock ;;
          nbytes <- call (fun e n => ao_plugin_play e n d size)
                         (EvPluginPlay d size) ;;
          lock ;;
          if N.eqb nbytes 0 then
            Close false ;;
            s <- get ;;
            assert (negb (FailTimer.IsDefined (fail_timer s))) ;;
            fail_timer_Update ;;
            ret false
          else
            s <- get ;;
            assert (N.leb nbytes size) ;;
            assert (N.eqb (N.modulo nbytes
                             (GetFrameSize (out_audio_format s))) 0) ;;
            PlayChunk_loop fuel' (skipn (N.to_nat nbytes) d) (size - nbytes)
      else ret true
  end.

(** [AudioOutput::PlayChunk] *)
Definition PlayChunk (fuel : nat) (chunk : ChunkPtr) : M bool :=
  let c := chunk_deref env chunk in
  s <- get ;;
  (match tag c with
   | Some t =>
       if tags s then unlock ;; emit (EvPluginSendTag t) ;; lock
       else ret tt
   | None => ret tt
   end) ;;
  r <- ao_filter_chunk chunk ;;
  match r with
  | None =>
      Close false ;;
      fail_timer_Update ;;
      ret false
  | Some (d, size) => PlayChunk_loop fuel d size
  end.

(** [AudioOutput::GetNextChunk]; a null [pipe] would be dereferenced. *)
Definition GetNextChunk : M (option ChunkPtr) :=
  s <- get ;;
  match current_chunk s with
  | Some cc => ret (next (chunk_deref env cc))
  | None =>
      match pipe s with
      | Some mp => call (fun e n => pipe_Peek e n mp) (EvPeek mp)
      | None => assert false ;; ret None
      end
  end.

Definition ptr_eqb (a b : option ChunkPtr) : bool :=
  match a, b with
  | Some x, Some y => N.eqb x y
  | None, None => true
  | _, _ => false
  end.

(** The [while (chunk != nullptr && command == AO_COMMAND_NONE)] loop
    of [Play]. *)
Fixpoint Play_loop (fuel : nat) (chunk : option ChunkPtr) : M unit :=
  match fuel with
  | O => out_of_fuel
  | S fuel' =>
      match chunk with
      | None => ret tt
      | Some p =>
          s <- get ;;
          if is_NONE (command s) then
            assert (negb (current_chunk_finished s)) ;;
            modify (set_current_chunk (Some p)) ;;
            ok <- PlayChunk fuel' p ;;
            s <- get ;;
            if negb ok then assert (is_null (current_chunk s))
            else
              assert (ptr_eqb (current_chunk s) (Some p)) ;;
              Play_loop fuel' (next (chunk_deref env p))
          else ret tt
      end
  end.

(** [AudioOutput::Play] *)
Definition Play (fuel : nat) : M bool :=
  s <- get ;;
  assert (negb (is_null (pipe s))) ;;
  chunk <- GetNextChunk ;;
  match chunk with
  | None => ret false
  | Some _ =>
      modify (set_current_chunk_finished false) ;;
      s <- get ;;
      assert (negb (in_playback_loop s)) ;;
      modify (set_in_playback_loop true) ;;
      Play_loop fuel chunk ;;
      s <- get ;;
      assert (in_playback_loop s) ;;
      modify (set_in_playback_loop false) ;;
      modify (set_current_chunk_finished true) ;;
      unlock ;;
      emit EvPlayerSignal ;;
      lock ;;
      ret true
  end.

(** The [do ... while (command == AO_COMMAND_NONE)] loop of [Pause]. *)
Fixpoint Pause_loop (fuel : nat) : M unit :=
  match fuel with
  | O => out_of_fuel
  | S fuel' =>
      go <- WaitForDelay fuel' ;;
      if negb go then ret tt
      else
        unlock ;;
        success <- call ao_plugin_pause EvPluginPause ;;
        lock ;;
        if negb success then Close false
        else
          s <- get ;;
          if is_NONE (command s) then Pause_loop fuel' else ret tt
  end.

(** [AudioOutput::Pause] *)
Definition Pause (fuel : nat) : M unit :=
  unlock ;;
  emit EvPluginCancel ;;
  lock ;;
  modify (set_pause true) ;;
  CommandFinished ;;
  Pause_loop fuel ;;
  modify (set_pause false).

(** How a [case] of the [switch] in [Task] ends. *)
Inductive SwitchExit := SwBreak | SwContinue | SwReturn.

(** The [switch (command)] statement of [AudioOutput::Task]. *)
Definition Task_switch (fuel : nat) : M SwitchExit :=
  s <- get ;;
  match command s with
  | AO_COMMAND_NONE => ret SwBreak
  | AO_COMMAND_ENABLE => Enable ;; CommandFinished ;; ret SwBreak
  | AO_COMMAND_DISABLE => Disable ;; CommandFinished ;; ret SwBreak
  | AO_COMMAND_OPEN => Open ;; CommandFinished ;; ret SwBreak
  | AO_COMMAND_REOPEN => Reopen ;; CommandFinished ;; ret SwBreak
  | AO_COMMAND_CLOSE =>
      assert (open s) ;;
      assert (negb (is_null (pipe s))) ;;
      Close false ;;
      CommandFinished ;;
      ret SwBreak
  | AO_COMMAND_PAUSE =>
      if negb (open s) then CommandFinished ;; ret SwBreak
      else Pause fuel ;; ret SwContinue
  | AO_COMMAND_DRAIN =>
      (if open s then
         assert (is_null (current_chunk s)) ;;
         match pipe s with
         | Some mp =>
             head <- call (fun e n => pipe_Peek e n mp) (EvPeek mp) ;;
             assert (is_null head)
         | None => assert false
         end ;;
         unlock ;;
         emit EvPluginDrain ;;
         lock
       else ret tt) ;;
      CommandFinished ;;
      ret SwContinue
  | AO_COMMAND_CANCEL =>
      modify (set_current_chunk None) ;;
      (if open s then unlock ;; emit EvPluginCancel ;; lock else ret tt) ;;
      CommandFinished ;;
      ret SwContinue
  | AO_COMMAND_KILL =>
      modify (set_current_chunk None) ;;
      CommandFinished ;;
      unlock ;;
      ret SwReturn
  end.

(** What one pass through the body of [while (1)] leads to. *)
Inductive LoopExit := LoopAgain | LoopReturn.

(** The code after the [switch]: play if possible, else wait. *)
Definition Task_idle (fuel : nat) : M unit :=
  s <- get ;;
  played <- (if open s && allow_play s then Play fuel else ret false) ;;
  if played then ret tt
  else
    s <- get ;;
    if is_NONE (command s) then
      modify (set_woken_for_play false) ;;
      cond_wait
    else ret tt.

(** The body of the [while (1)] loop of [AudioOutput::Task]. *)
Definition Task_iteration (fuel : nat) : M LoopExit :=
  sw <- Task_switch fuel ;;
  match sw with
  | SwBreak => Task_idle fuel ;; ret LoopAgain
  | SwContinue => ret LoopAgain
  | SwReturn => ret LoopReturn
  end.

Fixpoint Task_loop (fuel : nat) : M unit :=
  match fuel with
  | O => out_of_fuel
  | S fuel' =>
      c <- Task_iteration fuel' ;;
      match c with
      | LoopAgain => Task_loop fuel'
      | LoopReturn => ret tt
      end
  end.

(** [AudioOutput::Task] *)
Definition Task (fuel : nat) : M unit :=
  lock ;;
  Task_loop fuel.

End Methods.

Arguments Open : simpl never.
Arguments Close : simpl never.

(** ** Specifications: weakest preconditions *)

Section Logic.

Context {X : Externals}.
Variable env : Env.

(** [wp m Q E w]: run from [w], [m] either returns [a] in a world that
    satisfies [Q a], or stops early (failed assertion, fuel gone) in a
    world that satisfies [E]. *)
Definition wp {A} (m : M A) (Q : A -> World -> Prop) (E : World -> Prop)
    (w : World) : Prop :=
  match m w with
  | Ok a w' => Q a w'
  | Aborted w' => E w'
  | OutOfFuel w' => E w'
  end.

Definition on_ao (P : AudioOutput -> Prop) (w : World) : Prop := P (ao w).

(** [m] keeps [P]: from a world whose object satisfies [P], every way
    [m] can end leaves an object that satisfies [P]. *)
Definition keeps {A} (m : M A) (P : AudioOutput -> Prop) : Prop :=
  forall w, P (ao w) -> wp m (fun _ w' => P (ao w')) (on_ao P) w.

(** The same for a predicate on worlds (object and trace). *)
Definition keepsW {A} (m : M A) (P : World -> Prop) : Prop :=
  forall w, P w -> wp m (fun _ w' => P w') P w.

(** [m] keeps [P] and always returns: no assertion fails, no fuel is
    needed. *)
Definition keepsT {A} (m : M A) (P : World -> Prop) : Prop :=
  forall w, P w -> wp m (fun _ w' => P w') (fun _ => False) w.

(** [m] has no loop: it never runs out of fuel. *)
Definition fuel_free {A} (m : M A) : Prop :=
  forall w, match m w with OutOfFuel _ => False | _ => True end.

Definition stable_under (f : AudioOutput -> AudioOutput)
    (P : AudioOutput -> Prop) : Prop :=
  forall s, P s -> P (f s).

(** A predicate on the object that the controller cannot break: it
    acts only when the command slot is empty. *)
Definition ctl_stable (P : AudioOutput -> Prop) : Prop :=
  forall n a s,
    controller env n = Some a -> is_NONE (command s) = true ->
    P s -> P (ctl_apply a s).

(** A predicate on the object that a filter cannot break by what it
    leaves in [in_audio_format] when it is opened. *)
Definition filter_stable (P : AudioOutput -> Prop) : Prop :=
  forall n fl s,
    P s ->
    P (set_in_audio_format (fst (filter_Open env n fl (in_audio_format s))) s).

(** ** The state invariants *)

(** [open] implies [really_enabled], a [pipe] and a valid input format. *)
Definition open_invariant (s : AudioOutput) : Prop :=
  open s = true ->
  really_enabled s = true /\ is_null (pipe s) = false /\
  IsValid (in_audio_format s) = true.

(** [open] implies that the fail timer is not running. *)
Definition fail_timer_invariant (s : AudioOutput) : Prop :=
  open s = true -> FailTimer.IsDefined (fail_timer s) = false.

(** The controller hands in valid input formats only. *)
Definition controller_formats_valid : Prop :=
  forall n a f,
    controller env n = Some a ->
    ctl_in_audio_format a = Some f -> IsValid f = true.

(** A filter answers [Open] with the undefined format or a valid one. *)
Definition filter_formats_valid : Prop :=
  forall n f af,
    IsDefined (snd (filter_Open env n f af)) = true ->
    IsValid (snd (filter_Open env n f af)) = true.

(** A filter that is handed a valid format leaves a valid format in
    its argument: it may ask for another input format, not for none. *)
Definition filter_inputs_valid : Prop :=
  forall n f af,
    IsValid af = true -> IsValid (fst (filter_Open env n f af)) = true.

(** The two invariants are proved together; [c1] and [c9] select which
    of them is tracked, so that each can be had without the other. *)
Definition Inv (c1 c9 : bool) (s : AudioOutput) : Prop :=
  (c1 = true -> open_invariant s) /\ (c9 = true -> fail_timer_invariant s).

(** What holds inside [Open] once its assertions have passed and the
    fail timer is reset; [re] records that [Enable] has succeeded. *)
Definition Ready (c1 c9 re : bool) (s : AudioOutput) : Prop :=
  open s = false /\
  (c1 = true -> (re = true -> really_enabled s = true) /\
                is_null (pipe s) = false /\
                IsValid (in_audio_format s) = true) /\
  (c9 = true -> FailTimer.IsDefined (fail_timer s) = false).

Definition Closed (s : AudioOutput) : Prop := open s = false.

(** ** Commands and deliveries in a trace *)

(** Whether the command slot is occupied after event [e], as the worker
    finds it when it holds the mutex, given whether it was before.  A
    command that the controller has posted while the mutex was free
    shows when the worker re-acquires the mutex;
    [audio_output_client_notify.Signal()] is the acknowledgement. *)
Definition ev_pending (e : Event) (before : bool) : bool :=
  match e with
  | EvLock (Some act) | EvCondWait (Some act) | EvCondTimedWait _ (Some act) =>
      negb (is_NONE (ctl_command act))
  | EvClientNotify => false
  | _ => before
  end.

(** The slot as the worker has last seen it, after a whole trace
    (newest event first) that started with the slot in state [init]. *)
Fixpoint pending (init : bool) (tr : list Event) : bool :=
  match tr with
  | [] => init
  | e :: tr' => ev_pending e (pending init tr')
  end.

(** Events that hand a chunk (its tag or its data) to the device. *)
Definition delivers (e : Event) : bool :=
  match e with
  | EvPluginPlay _ _ _ | EvPluginSendTag _ => true
  | _ => false
  end.

(** The worker starts no delivery on a pending command: the event
    before a [play] or [send_tag] is the release of the mutex for that
    call, and the command slot was empty when the worker released it.
    (A command posted after that, while the call is under way, is seen
    at the re-acquisition that follows the call.) *)
Fixpoint no_delivery_started_pending (init : bool) (tr : list Event) : Prop :=
  match tr with
  | [] => True
  | e :: tr' =>
      (delivers e = true ->
       exists earlier,
         tr' = EvUnlock :: earlier /\ pending init earlier = false) /\
      no_delivery_started_pending init tr'
  end.

(** Some event that satisfies [P] happens while a command is pending. *)
Fixpoint occurs_while_pending (P : Event -> bool) (init : bool)
    (tr : list Event) : bool :=
  match tr with
  | [] => false
  | e :: tr' => (P e && pending init tr') || occurs_while_pending P init tr'
  end.

(** Modelled from the spec: work that is not command work is the play
    step; a play step that has found a chunk ends with the signal to
    the player ([player_control->LockSignal()]), which nothing else
    sends. *)
Definition is_play_step (e : Event) : bool :=
  match e with EvPlayerSignal => true | _ => false end.

(** Modelled from the spec: "after any command ack, [command == NONE]
    before the worker performs non-command work", read on a trace: no
    play step while a command is pending. *)
Definition no_play_step_while_pending (init : bool) (tr : list Event)
  : bool :=
  negb (occurs_while_pending is_play_step init tr).

(** Events that neither deliver nor touch the command slot. *)
Definition quiet (e : Event) : bool :=
  match e with
  | EvLock _ | EvCondWait _ | EvCondTimedWait _ _ | EvClientNotify
  | EvPluginPlay _ _ _ | EvPluginSendTag _ => false
  | _ => true
  end.

(** The trace agrees with the command slot of the object. *)
Definition CmdInv (init : bool) (w : World) : Prop :=
  no_delivery_started_pending init (trace w) /\
  pending init (trace w) = negb (is_NONE (command (ao w))).

(** While a command is pending: the current chunk and the deliveries
    made so far. *)
Definition pending_frame (cc : option ChunkPtr) (dl : list Event)
    (w : World) : Prop :=
  is_NONE (command (ao w)) = false /\
  current_chunk (ao w) = cc /\
  List.filter delivers (trace w) = dl.

(** The trace [tr] is [base] with newer events on top. *)
Definition extends (base tr : list Event) : Prop :=
  exists later, tr = later ++ base.

(** During a command: the controller is kept out, [pipe] is [p] and
    the events up to [base] are behind us. *)
Definition command_frame (p : option MusicPipe) (base : list Event)
    (w : World) : Prop :=
  is_NONE (command (ao w)) = false /\
  pipe (ao w) = p /\
  extends base (trace w).

(** What [Reopen] hands to [Open] after its implicit [Close]: on top
    of [command_frame], the output is closed but enabled, with a pipe
    and a valid input format and no current chunk. *)
Definition reopen_ready (p : option MusicPipe) (base : list Event)
    (w : World) : Prop :=
  command_frame p base w /\
  open (ao w) = false /\
  really_enabled (ao w) = true /\
  is_null (pipe (ao w)) = false /\
  IsValid (in_audio_format (ao w)) = true /\
  is_null (current_chunk (ao w)) = true.

(** The events of [CloseFilter], newest first. *)
Definition CloseFilter_events (s : AudioOutput) : list Event :=
  EvFilterClose (filter s) ::
  match other_replay_gain_filter s with
  | Some f => [EvFilterClose f] | None => [] end ++
  match replay_gain_filter s with
  | Some f => [EvFilterClose f] | None => [] end.

(** ... and what is left of it once [Open] has opened the filters,
    which may have changed [in_audio_format]. *)
Definition reopen_filters_open (p : option MusicPipe) (base : list Event)
    (w : World) : Prop :=
  command_frame p base w /\ open (ao w) = false.

(** ** A failed [play] in a trace *)

Definition is_failed_play (e : Event) : bool :=
  match e with
  | EvPluginPlay _ _ n => N.eqb n 0
  | _ => false
  end.

Definition failed (tr : list Event) : bool := existsb is_failed_play tr.

(** The trace holds a [play] that returned 0, and what the worker did
    next was the abrupt close: re-acquire the mutex, release it,
    [cancel] (no [drain]), [close], close the filters (the events
    [closes]), re-acquire. *)
Definition failed_then_closed (closes tr : list Event) : Prop :=
  exists later a2 a1 d size earlier,
    tr = later ++ EvLock a2 :: closes ++
         EvPluginClose :: EvPluginCancel :: EvUnlock ::
         EvLock a1 :: EvPluginPlay d size 0 :: earlier /\
    failed later = false.

(** The filters of the object are those of [s0]; no method and no
    action of the controller replaces them. *)
Definition same_filters (s0 s : AudioOutput) : Prop :=
  filter s = filter s0 /\
  replay_gain_filter s = replay_gain_filter s0 /\
  other_replay_gain_filter s = other_replay_gain_filter s0 /\
  convert_filter s = convert_filter s0.

(** The states of a play step: still playing, stopped without a failed
    [play], or closed after a failed [play].  [ipl] is the value of
    [in_playback_loop], which the step does not change, and [s0] holds
    the filters of the output. *)
Definition NoFail (s0 : AudioOutput) (ipl : bool) (w : World) : Prop :=
  failed (trace w) = false /\ in_playback_loop (ao w) = ipl /\
  same_filters s0 (ao w).

Definition Unfailed (s0 : AudioOutput) (w : World) : Prop :=
  failed (trace w) = false /\ same_filters s0 (ao w).

(** [play] has just returned 0 and the mutex is taken again. *)
Definition JustFailed (s0 : AudioOutput) (ipl : bool) (w : World) : Prop :=
  (exists a d size earlier,
      trace w = EvLock a :: EvPluginPlay d size 0 :: earlier) /\
  in_playback_loop (ao w) = ipl /\ open (ao w) = true /\
  FailTimer.IsDefined (fail_timer (ao w)) = false /\
  same_filters s0 (ao w).

Definition Failed (s0 : AudioOutput) (ipl : bool) (w : World) : Prop :=
  failed_then_closed (CloseFilter_events s0) (trace w) /\
  in_playback_loop (ao w) = ipl /\
  open (ao w) = false /\
  FailTimer.IsDefined (fail_timer (ao w)) = true /\
  current_chunk (ao w) = None /\
  same_filters s0 (ao w).

(** After a play step: closed after a failed [play], or no failed
    [play] at all. *)
Definition FailedOrNot (s0 : AudioOutput) (ipl : bool) (w : World) : Prop :=
  Failed s0 ipl w \/ NoFail s0 ipl w.

Definition Going (s0 : AudioOutput) (ipl : bool) (w : World) : Prop :=
  NoFail s0 ipl w /\ open (ao w) = true /\
  FailTimer.IsDefined (fail_timer (ao w)) = false.

(** ** Filters opened and closed in a trace *)

(** Opens that succeeded minus closes, for filter [f]. *)
Fixpoint filter_balance (f : Filter) (tr : list Event) : Z :=
  match tr with
  | [] => 0
  | EvFilterOpen g _ r :: tr' =>
      (if N.eqb f g && IsDefined (snd r) then 1 else 0)
      + filter_balance f tr'
  | EvFilterClose g :: tr' =>
      (if N.eqb f g then -1 else 0) + filter_balance f tr'
  | _ :: tr' => filter_balance f tr'
  end%Z.

Definition is_enable_failure (e : Event) : bool :=
  match e with EvPluginEnable false => true | _ => false end.

Definition is_open_attempt (e : Event) : bool :=
  match e with
  | EvFilterOpen _ _ _ | EvPluginOpen _ _ | EvConvertSet _ _ _ => true
  | _ => false
  end.

(** ** Replay gain: the [set_info] calls of a run of chunks *)

(** The arguments of the [set_info] calls in a trace, oldest first. *)
Fixpoint set_info_calls (tr : list Event)
  : list (Filter * option ReplayGainInfo) :=
  match tr with
  | [] => []
  | EvSetInfo f i :: tr' => set_info_calls tr' ++ [(f, i)]
  | _ :: tr' => set_info_calls tr'
  end.

(** [ao_chunk_data] on one chunk after the other, same filter and same
    serial cell, as [ao_filter_chunk] does from chunk to chunk. *)
Fixpoint chunk_data_run (chunks : list ChunkPtr) (rg : option Filter)
    (cell : SerialCell) : M unit :=
  match chunks with
  | [] => ret tt
  | p :: rest =>
      _ <- ao_chunk_data env p rg cell ;;
      chunk_data_run rest rg cell
  end.

(** Which [set_info] calls a run of chunks causes: one for each chunk
    of non-zero length whose serial differs from the serial applied
    last, with no info when that serial is zero; none at all without a
    replay gain filter. *)
Fixpoint set_info_expected (rg : option Filter) (last : N)
    (chunks : list ChunkPtr) : list (Filter * option ReplayGainInfo) :=
  match chunks with
  | [] => []
  | p :: rest =>
      let c := chunk_deref env p in
      match rg with
      | Some f =>
          if N.ltb 0 (length c) &&
             negb (N.eqb (chunk_replay_gain_serial c) last)
          then (f, if negb (N.eqb (chunk_replay_gain_serial c) 0)
                   then Some (replay_gain_info c) else None)
               :: set_info_expected rg (chunk_replay_gain_serial c) rest
          else set_info_expected rg last rest
      | None => set_info_expected rg last rest
      end
  end.

(** The assertions at the head of [ao_chunk_data] hold for the chunk. *)
Definition chunk_accepted (s : AudioOutput) (p : ChunkPtr) : bool :=
  let c := chunk_deref env p in
  negb (chunk_IsEmpty env c) &&
  chunk_CheckFormat env c (in_audio_format s) &&
  N.eqb (N.modulo (length c) (GetFrameSize (in_audio_format s))) 0.

(** What the controller may have done to the object in one window. *)
Definition after_window (n : nat) (s : AudioOutput) : AudioOutput :=
  match controller env n with
  | Some act => if is_NONE (command s) then ctl_apply act s else s
  | None => s
  end.

Definition window_posted (n : nat) (s : AudioOutput) : option CtlAction :=
  match controller env n with
  | Some act => if is_NONE (command s) then Some act else None
  | None => None
  end.

(** A step of [Open] that failed. *)
Definition is_open_failure (e : Event) : bool :=
  match e with
  | EvPluginEnable success => negb success
  | EvFilterOpen _ _ r => negb (IsDefined (snd r))
  | EvPluginOpen _ r => negb (fst r)
  | EvConvertSet _ _ success => negb success
  | _ => false
  end.

Definition open_failed (tr : list Event) : bool := existsb is_open_failure tr.

Definition enable_failed (tr : list Event) : bool :=
  existsb is_enable_failure tr.

(** The stages of [Open].  At the start nothing has failed and nothing
    is open. *)
Definition OS_start (w : World) : Prop :=
  open (ao w) = false /\ fail_timer (ao w) = None /\
  open_failed (trace w) = false /\
  existsb is_open_attempt (trace w) = false /\
  forall f, filter_balance f (trace w) = 0%Z.

(** [Enable] has failed; nothing else has been tried. *)
Definition OS_enable_failed (w : World) : Prop :=
  open (ao w) = false /\ fail_timer (ao w) = None /\
  enable_failed (trace w) = true /\
  existsb is_open_attempt (trace w) = false /\
  forall f, filter_balance f (trace w) = 0%Z.

(** The filters are open: [CloseFilter] would close exactly them. *)
Definition OS_filters (w : World) : Prop :=
  open (ao w) = false /\ fail_timer (ao w) = None /\
  open_failed (trace w) = false /\
  forall f, filter_balance f (CloseFilter_events (ao w) ++ trace w) = 0%Z.

(** A step after [Enable] has failed; the filters are still open. *)
Definition OS_failing (w : World) : Prop :=
  open (ao w) = false /\ fail_timer (ao w) = None /\
  open_failed (trace w) = true /\ enable_failed (trace w) = false /\
  forall f, filter_balance f (CloseFilter_events (ao w) ++ trace w) = 0%Z.

(** ... and now they are closed again. *)
Definition OS_closed (w : World) : Prop :=
  open (ao w) = false /\ fail_timer (ao w) = None /\
  open_failed (trace w) = true /\ enable_failed (trace w) = false /\
  forall f, filter_balance f (trace w) = 0%Z.

(** What [Open] leaves behind. *)
Definition OS_post (w : World) : Prop :=
  open (ao w) = negb (open_failed (trace w)) /\
  (open_failed (trace w) = true ->
   (forall f, filter_balance f (trace w) = 0%Z) /\
   FailTimer.IsDefined (fail_timer (ao w)) = negb (enable_failed (trace w)) /\
   (enable_failed (trace w) = true ->
    existsb is_open_attempt (trace w) = false)).

(** The device itself: opened with success, closed. *)
Definition is_backend_open (e : Event) : bool :=
  match e with EvPluginOpen _ r => fst r | _ => false end.

Definition is_backend_close (e : Event) : bool :=
  match e with EvPluginClose => true | _ => false end.

(** The events of the [Close(true)] inside [Reopen], on top of [tr];
    during a command the controller cannot post. *)
Definition drain_close_events (s : AudioOutput) (tr : list Event)
  : list Event :=
  EvLock None :: CloseFilter_events s ++
  EvPluginClose :: EvPluginDrain :: EvUnlock :: tr.

(** The object [Reopen] hands to [Open] when no format is configured:
    closed, [pipe] put back, [out_audio_format] set from the input. *)
Definition closed_for_reopen (s : AudioOutput) : AudioOutput :=
  set_out_audio_format
    (ApplyMask (in_audio_format s) (config_audio_format s))
    (set_pipe (pipe s)
       (set_open false (set_current_chunk None (set_pipe None s)))).

End Logic.

(** ** A concrete instance, for examples *)

Module Example.

(** Formats as in the data model: rate, sample format (0 is undefined)
    and channel count; a zero field is an unset field. *)
Record SimpleFormat := mk_fmt {
  sample_rate : N;
  sample_format : N;
  channels : N
}.

Definition fmt_defined (f : SimpleFormat) : bool := negb (N.eqb (sample_rate f) 0).

Definition fmt_fully_defined (f : SimpleFormat) : bool :=
  negb (N.eqb (sample_rate f) 0) && negb (N.eqb (sample_format f) 0) &&
  negb (N.eqb (channels f) 0).

Definition fmt_apply_mask (f mask : SimpleFormat) : SimpleFormat :=
  mk_fmt (if N.eqb (sample_rate mask) 0 then sample_rate f else sample_rate mask)
         (if N.eqb (sample_format mask) 0
          then sample_format f else sample_format mask)
         (if N.eqb (channels mask) 0 then channels f else channels mask).

#[export] Instance simple : Externals := {|
  AudioFormat := SimpleFormat;
  SampleFormat := N;
  format := sample_format;
  IsValid := fmt_fully_defined;
  IsDefined := fmt_defined;
  IsFullyDefined := fmt_fully_defined;
  ApplyMask := fmt_apply_mask;
  Undefined := mk_fmt 0 0 0;
  GetFrameSize := fun f => (sample_format f * channels f)%N;
  Undefined_IsDefined := eq_refl;
  Ratio := N;
  one_minus := fun r => (100 - r)%N;
  ReplayGainInfo := N;
  TagItem := N
|}.

(** 44.1 kHz, 16 bit, stereo: 4 bytes per frame. *)
Definition cd_format : SimpleFormat := mk_fmt 44100 2 2.

Definition no_mask : SimpleFormat := mk_fmt 0 0 0.

(** A closed, disabled output with three filters and nothing posted. *)
Definition ao0 : AudioOutput :=
  mk_ao true false false false true false false None
        no_mask cd_format (mk_fmt 0 0 0) [] 1%N (Some 2%N) 0 (Some 3%N) 0 4%N
        AO_COMMAND_NONE None None true.

Definition bytes (n : nat) : list byte := repeat x00 n.

(** Chunks 10 and 11: 16 bytes each, in a row.  Chunk 20: a tag and no
    data, replay gain serial 5.  Chunk 30 cross-fades with chunk 31.
    Chunks 40 and 41: 8 bytes each, both with replay gain serial 7. *)
Definition chunks (p : ChunkPtr) : music_chunk :=
  match p with
  | 10 => mk_chunk (Some 11) None 100 None 0 0 16 (bytes 16)
  | 11 => mk_chunk None None 100 None 0 0 16 (bytes 16)
  | 20 => mk_chunk None None 100 (Some (TagModel.mkTag 0%Z false [7]))
                   0 5 0 []
  | 30 => mk_chunk None (Some 31) 25 None 0 0 100 (bytes 100)
  | 31 => mk_chunk None None 100 None 0 0 60 (bytes 60)
  | 40 => mk_chunk (Some 41) None 100 None 9 7 8 (bytes 8)
  | 41 => mk_chunk None None 100 None 9 7 8 (bytes 8)
  | _ => mk_chunk None None 100 None 0 0 4 (bytes 4)
  end%N.

(** A well-behaved environment, parameterised by what the controller
    does and how the device answers [enable], [open] and [play].  A
    filter accepts every fully defined format as it is and leaves the
    format it is handed alone. *)
Definition mk_simple_env (ctl : nat -> option CtlAction)
    (enable dev_open : nat -> bool) (play : nat -> list byte -> N -> N)
  : Env :=
  mk_env ctl (fun n => N.of_nat n) chunks
         (fun c => N.eqb (length c) 0 && is_null (tag c))
         (fun _ _ => true)
         enable
         (fun n f => (dev_open n, f))
         (fun _ => 0%N)
         play
         (fun _ => true)
         (fun _ _ f => (f, if fmt_fully_defined f then f else mk_fmt 0 0 0))
         (fun _ _ d len => Some (d, len))
         (fun _ _ _ => true)
         (fun _ dest _ _ _ _ => Some dest)
         (fun _ mp => if N.eqb mp 1 then Some 10%N else None).

Definition post (c : Command) : CtlAction := mk_ctl c None None None None.

Definition post_open (c : Command) (mp : MusicPipe) : CtlAction :=
  mk_ctl c (Some mp) (Some cd_format) (Some true) None.

(** The controller is silent; the device works. *)
Definition quiet_env : Env :=
  mk_simple_env (fun _ => None) (fun _ => true) (fun _ => true)
                (fun _ _ size => size).

(** The controller posts OPEN on pipe 1 at once, then stays silent. *)
Definition open_env : Env :=
  mk_simple_env (fun n => match n with O => Some (post_open AO_COMMAND_OPEN 1%N)
                                     | _ => None end)
                (fun _ => true) (fun _ => true) (fun _ _ size => size).

(** The device cannot be enabled. *)
Definition no_enable_env : Env :=
  mk_simple_env (fun _ => None) (fun _ => false) (fun _ => true)
                (fun _ _ size => size).

(** The device can be enabled, but not opened. *)
Definition no_open_env : Env :=
  mk_simple_env (fun _ => None) (fun _ => true) (fun _ => false)
                (fun _ _ size => size).

(** The device works, but the convert filter refuses its format. *)
Definition no_convert_env : Env :=
  mk_env (controller quiet_env) (clock_now quiet_env)
         (chunk_deref quiet_env) (chunk_IsEmpty quiet_env)
         (chunk_CheckFormat quiet_env) (ao_plugin_enable quiet_env)
         (ao_plugin_open quiet_env) (ao_plugin_delay quiet_env)
         (ao_plugin_play quiet_env) (ao_plugin_pause quiet_env)
         (filter_Open quiet_env) (filter_FilterPCM quiet_env)
         (fun _ _ _ => false)
         (pcm_mix quiet_env) (pipe_Peek quiet_env).

(** [play] always fails. *)
Definition no_play_env : Env :=
  mk_simple_env (fun _ => None) (fun _ => true) (fun _ => true)
                (fun _ _ _ => 0%N).

Definition world0 : World := mk_world ao0 0 [].

(** The same output, opened on pipe 1. *)
Definition ao_open : AudioOutput :=
  set_open true (set_really_enabled true (set_pipe (Some 1%N) ao0)).

(** The closed output with a pipe, as the controller leaves it when it
    posts OPEN. *)
Definition ao_to_open : AudioOutput :=
  set_command AO_COMMAND_OPEN (set_pipe (Some 1%N) ao0).

End Example.

Create HintDb call_db.
Create HintDb ao_inv.

(** * More of the worker: what each method may call *)

Section Footprints.

Context {X : Externals}.

(** The kind of an event: which call it records, whatever the
    arguments. *)
Inductive Kind :=
| KUnlock | KLock | KCondWait | KCondTimedWait | KClientNotify
| KPlayerSignal | KPluginEnable | KPluginDisable | KPluginOpen
| KPluginClose | KPluginDrain | KPluginCancel | KPluginDelay
| KPluginPause | KPluginSendTag | KPluginPlay | KFilterOpen
| KFilterClose | KFilterPCM | KSetInfo | KConvertSet | KPcmMix | KPeek.

Definition kind (e : Event) : Kind :=
  match e with
  | EvUnlock => KUnlock
  | EvLock _ => KLock
  | EvCondWait _ => KCondWait
  | EvCondTimedWait _ _ => KCondTimedWait
  | EvClientNotify => KClientNotify
  | EvPlayerSignal => KPlayerSignal
  | EvPluginEnable _ => KPluginEnable
  | EvPluginDisable => KPluginDisable
  | EvPluginOpen _ _ => KPluginOpen
  | EvPluginClose => KPluginClose
  | EvPluginDrain => KPluginDrain
  | EvPluginCancel => KPluginCancel
  | EvPluginDelay _ => KPluginDelay
  | EvPluginPause _ => KPluginPause
  | EvPluginSendTag _ => KPluginSendTag
  | EvPluginPlay _ _ _ => KPluginPlay
  | EvFilterOpen _ _ _ => KFilterOpen
  | EvFilterClose _ => KFilterClose
  | EvFilterPCM _ _ _ _ => KFilterPCM
  | EvSetInfo _ _ => KSetInfo
  | EvConvertSet _ _ _ => KConvertSet
  | EvPcmMix _ _ _ _ _ _ => KPcmMix
  | EvPeek _ _ => KPeek
  end.

Definition Kind_index (k : Kind) : nat :=
  match k with
  | KUnlock => 0 | KLock => 1 | KCondWait => 2 | KCondTimedWait => 3
  | KClientNotify => 4 | KPlayerSignal => 5 | KPluginEnable => 6
  | KPluginDisable => 7 | KPluginOpen => 8 | KPluginClose => 9
  | KPluginDrain => 10 | KPluginCancel => 11 | KPluginDelay => 12
  | KPluginPause => 13 | KPluginSendTag => 14 | KPluginPlay => 15
  | KFilterOpen => 16 | KFilterClose => 17 | KFilterPCM => 18
  | KSetInfo => 19 | KConvertSet => 20 | KPcmMix => 21 | KPeek => 22
  end.

Definition Kind_eqb (a b : Kind) : bool :=
  Nat.eqb (Kind_index a) (Kind_index b).

Definition mem (k : Kind) (l : list Kind) : bool := existsb (Kind_eqb k) l.

Definition subset (a b : list Kind) : bool := forallb (fun k => mem k b) a.

(** The trace [tr] is [base] with newer events on top, all of a kind
    in [fp]. *)
Definition emitted (fp : list Kind) (base tr : list Event) : Prop :=
  exists later,
    tr = later ++ base /\ forallb (fun e => mem (kind e) fp) later = true.

Definition emits_only (fp : list Kind) (base : list Event) (w : World)
  : Prop :=
  emitted fp base (trace w).

(** How many events of kind [k] a trace holds. *)
Definition count_kind (k : Kind) (tr : list Event) : nat :=
  List.length (List.filter (fun e => Kind_eqb (kind e) k) tr).

(** The calls each method can make, read off its body and the bodies
    of the methods it calls. *)
Definition fp_lock : list Kind := [KLock].

Definition fp_Enable : list Kind := [KUnlock; KPluginEnable; KLock].

Definition fp_CloseFilter : list Kind := [KFilterClose].

Definition fp_OpenFilter : list Kind := [KFilterOpen; KFilterClose].

Definition fp_Open : list Kind :=
  fp_Enable ++ fp_OpenFilter ++ [KPluginOpen; KConvertSet].

Definition fp_Close (drain : bool) : list Kind :=
  [KUnlock; if drain then KPluginDrain else KPluginCancel;
   KPluginClose; KFilterClose; KLock].

Definition fp_Disable : list Kind := fp_Close false ++ [KPluginDisable].

Definition fp_ReopenFilter : list Kind :=
  fp_OpenFilter ++ [KConvertSet; KUnlock; KPluginClose; KLock].

Definition fp_Reopen : list Kind :=
  fp_Close true ++ fp_ReopenFilter ++ fp_Open.

Definition fp_CommandFinished : list Kind :=
  [KUnlock; KClientNotify; KLock].

Definition fp_WaitForDelay : list Kind := [KPluginDelay; KCondTimedWait].

Definition fp_ao_filter_chunk : list Kind := [KSetInfo; KFilterPCM; KPcmMix].

Definition fp_PlayChunk : list Kind :=
  [KUnlock; KPluginSendTag; KLock] ++ fp_ao_filter_chunk ++
  fp_WaitForDelay ++ [KPluginPlay] ++ fp_Close false.

Definition fp_Play : list Kind := KPeek :: KPlayerSignal :: fp_PlayChunk.

(** What [Pause] does once it has acknowledged the command. *)
Definition fp_Pause_loop : list Kind :=
  fp_WaitForDelay ++ [KUnlock; KPluginPause; KLock] ++ fp_Close false.

Definition fp_Pause : list Kind :=
  [KPluginCancel] ++ fp_CommandFinished ++ fp_Pause_loop.

(** Everything the [switch] of [Task] does besides acknowledging. *)
Definition fp_commands : list Kind :=
  fp_Reopen ++ fp_Disable ++ fp_Pause_loop ++ [KPeek].

(** Everything the [switch] of [Task] can call. *)
Definition fp_Task_switch : list Kind :=
  fp_commands ++ fp_Pause ++ [KPluginDrain].

(** The acknowledgements so far. *)
Definition Acked (n : nat) (w : World) : Prop :=
  count_kind KClientNotify (trace w) = n.

(** [cond.wait(mutex)], the wait without a timeout. *)
Definition is_untimed_wait (e : Event) : bool :=
  match e with EvCondWait _ => true | _ => false end.

(** No event that satisfies [P] happens while a command is pending. *)
Fixpoint never_while_pending (P : Event -> bool) (init : bool)
    (tr : list Event) : Prop :=
  match tr with
  | [] => True
  | e :: tr' =>
      (P e = true -> pending init tr' = false) /\
      never_while_pending P init tr'
  end.

(** The trace agrees with the command slot, and the worker has never
    gone to sleep on a pending command. *)
Definition WaitInv (init : bool) (w : World) : Prop :=
  CmdInv init w /\ never_while_pending is_untimed_wait init (trace w).

(** A filter has refused the format, or the convert filter has. *)
Definition is_filter_open_failure (e : Event) : bool :=
  match e with EvFilterOpen _ _ r => negb (IsDefined (snd r)) | _ => false end.

Definition filter_open_failed (tr : list Event) : bool :=
  existsb is_filter_open_failure tr.

Definition is_convert_failure (e : Event) : bool :=
  match e with EvConvertSet _ _ ok => negb ok | _ => false end.

Definition convert_failed (tr : list Event) : bool :=
  existsb is_convert_failure tr.

(** The format that the filter opened last has left in the format it
    was handed; [af0] if no filter has been opened. *)
Fixpoint format_after (af0 : AudioFormat) (tr : list Event) : AudioFormat :=
  match tr with
  | [] => af0
  | EvFilterOpen _ _ r :: _ => fst r
  | _ :: tr' => format_after af0 tr'
  end.

(** Each filter has been handed the format that the filter opened
    before it has left ([af0] for the first). *)
Fixpoint formats_chained (af0 : AudioFormat) (tr : list Event) : Prop :=
  match tr with
  | [] => True
  | EvFilterOpen _ af _ :: tr' =>
      af = format_after af0 tr' /\ formats_chained af0 tr'
  | _ :: tr' => formats_chained af0 tr'
  end.

(** The bytes the device has accepted: the sum of what [play] has
    returned. *)
Fixpoint played_bytes (tr : list Event) : N :=
  match tr with
  | [] => 0
  | EvPluginPlay _ _ n :: tr' => n + played_bytes tr'
  | _ :: tr' => played_bytes tr'
  end%N.

End Footprints.

Section PlayChunkParts.

Context {X : Externals}.
Variable env : Env.

(** The head of [PlayChunk]: the tag of the chunk goes to the device,
    if there is one and the device takes tags. *)
Definition PlayChunk_send_tag (chunk : ChunkPtr) : M unit :=
  s <- get ;;
  match tag (chunk_deref env chunk) with
  | Some t =>
      if tags s then unlock ;; emit (EvPluginSendTag t) ;; lock env
      else ret tt
  | None => ret tt
  end.

(** While [Open] runs: the output is closed, no filter is open and the
    device has been neither opened nor closed; the filters and the
    convert filter are those of [s0]. *)
Definition Opening (s0 : AudioOutput) (w : World) : Prop :=
  open (ao w) = false /\
  CloseFilter_events (ao w) = CloseFilter_events s0 /\
  convert_filter (ao w) = convert_filter s0 /\
  (forall f, filter_balance f (trace w) = 0%Z) /\
  count_kind KPluginOpen (trace w) = 0 /\
  count_kind KPluginClose (trace w) = 0.

(** After a successful [Open]: the filters that [CloseFilter] closes
    are open and no other, the device has been opened once, and the
    last thing done was to set the convert filter to the format the
    device has answered, which is [out_audio_format]. *)
Definition Opened (s0 : AudioOutput) (w : World) : Prop :=
  CloseFilter_events (ao w) = CloseFilter_events s0 /\
  (forall f,
     filter_balance f (CloseFilter_events (ao w) ++ trace w) = 0%Z) /\
  count_kind KPluginOpen (trace w) = 1 /\
  count_kind KPluginClose (trace w) = 0 /\
  exists a f0 tr,
    trace w =
    EvConvertSet (convert_filter s0) (out_audio_format (ao w)) true
      :: EvLock a
      :: EvPluginOpen f0 (true, out_audio_format (ao w)) :: tr.

End PlayChunkParts.

(** ** More devices, for examples *)

Module Example2.

Import Example.

(** The device takes four bytes at a time. *)
Definition partial_env : Env :=
  mk_simple_env (fun _ => None) (fun _ => true) (fun _ => true)
                (fun _ _ size => N.min size 4).

(** The device refuses to pause. *)
Definition no_pause_env : Env :=
  mk_env (controller quiet_env) (clock_now quiet_env)
         (chunk_deref quiet_env) (chunk_IsEmpty quiet_env)
         (chunk_CheckFormat quiet_env) (ao_plugin_enable quiet_env)
         (ao_plugin_open quiet_env) (ao_plugin_delay quiet_env)
         (ao_plugin_play quiet_env) (fun _ => false)
         (filter_Open quiet_env) (filter_FilterPCM quiet_env)
         (convert_filter_set quiet_env)
         (pcm_mix quiet_env) (pipe_Peek quiet_env).

(** The device always has three milliseconds to go, and the
    controller posts CANCEL during the first wait. *)
Definition slow_env : Env :=
  mk_env (fun n => match n with
                   | 1 => Some (post AO_COMMAND_CANCEL)
                   | _ => None
                   end)
         (clock_now quiet_env)
         (chunk_deref quiet_env) (chunk_IsEmpty quiet_env)
         (chunk_CheckFormat quiet_env) (ao_plugin_enable quiet_env)
         (ao_plugin_open quiet_env) (fun _ => 3%N)
         (ao_plugin_play quiet_env) (ao_plugin_pause quiet_env)
         (filter_Open quiet_env) (filter_FilterPCM quiet_env)
         (convert_filter_set quiet_env)
         (pcm_mix quiet_env) (pipe_Peek quiet_env).

(** Chunk 50 has eight bytes and cross-fades with chunk 20, which has
    a tag and no data. *)
Definition chunks2 (p : ChunkPtr) : music_chunk :=
  match p with
  | 50 => mk_chunk None (Some 20) 25 None 0 0 8 (bytes 8)
  | _ => chunks p
  end%N.

Definition fade_env : Env :=
  mk_env (controller quiet_env) (clock_now quiet_env)
         chunks2 (chunk_IsEmpty quiet_env)
         (chunk_CheckFormat quiet_env) (ao_plugin_enable quiet_env)
         (ao_plugin_open quiet_env) (ao_plugin_delay quiet_env)
         (ao_plugin_play quiet_env) (ao_plugin_pause quiet_env)
         (filter_Open quiet_env) (filter_FilterPCM quiet_env)
         (convert_filter_set quiet_env)
         (pcm_mix quiet_env) (pipe_Peek quiet_env).

(** No filter can process data. *)
Definition no_filter_env : Env :=
  mk_env (controller quiet_env) (clock_now quiet_env)
         (chunk_deref quiet_env) (chunk_IsEmpty quiet_env)
         (chunk_CheckFormat quiet_env) (ao_plugin_enable quiet_env)
         (ao_plugin_open quiet_env) (ao_plugin_delay quiet_env)
         (ao_plugin_play quiet_env) (ao_plugin_pause quiet_env)
         (filter_Open quiet_env) (fun _ _ _ _ => None)
         (convert_filter_set quiet_env)
         (pcm_mix quiet_env) (pipe_Peek quiet_env).

(** The replay gain filter (filter 2) takes two channels only: handed
    another format it changes the channel count of the format to two.
    The other filters take what they are handed. *)
Definition stereo_env : Env :=
  mk_env (controller quiet_env) (clock_now quiet_env)
         (chunk_deref quiet_env) (chunk_IsEmpty quiet_env)
         (chunk_CheckFormat quiet_env) (ao_plugin_enable quiet_env)
         (ao_plugin_open quiet_env) (ao_plugin_delay quiet_env)
         (ao_plugin_play quiet_env) (ao_plugin_pause quiet_env)
         (fun _ fl f =>
            if N.eqb fl 2
            then (mk_fmt (sample_rate f) (sample_format f) 2,
                  mk_fmt (sample_rate f) (sample_format f) 2)
            else (f, f))
         (filter_FilterPCM quiet_env)
         (convert_filter_set quiet_env)
         (pcm_mix quiet_env) (pipe_Peek quiet_env).

(** 44.1 kHz, 16 bit, six channels. *)
Definition surround_format : SimpleFormat := mk_fmt 44100 2 6.

(** The controller posts OPEN on pipe 1 with six channels, for the
    output whose replay gain filter takes two. *)
Definition stereo_open_env : Env :=
  mk_env (fun n => match n with
                   | O => Some (mk_ctl AO_COMMAND_OPEN (Some 1%N)
                                       (Some surround_format) (Some true)
                                       None)
                   | _ => None
                   end)
         (clock_now quiet_env)
         (chunk_deref quiet_env) (chunk_IsEmpty quiet_env)
         (chunk_CheckFormat quiet_env) (ao_plugin_enable quiet_env)
         (ao_plugin_open quiet_env) (ao_plugin_delay quiet_env)
         (ao_plugin_play quiet_env) (ao_plugin_pause quiet_env)
         (filter_Open stereo_env) (filter_FilterPCM quiet_env)
         (convert_filter_set quiet_env)
         (pcm_mix quiet_env) (pipe_Peek quiet_env).

(** The closed output of the examples, handed six channels. *)
Definition ao_surround : AudioOutput :=
  @set_in_audio_format simple surround_format ao0.

(** The controller posts PAUSE while the worker signals that the
    command before it is finished. *)
Definition pause_env : Env :=
  mk_simple_env (fun n => match n with
                          | O => Some (post AO_COMMAND_PAUSE)
                          | _ => None
                          end)
                (fun _ => true) (fun _ => true) (fun _ _ size => size).

(** The open output as [Open] leaves it: the output format is set. *)
Definition ao_ready : AudioOutput := set_out_audio_format cd_format ao_open.

(** The open output with a command in its slot. *)
Definition ao_open_with (c : Command) : AudioOutput :=
  set_command c ao_open.

End Example2.

(** * Proofs *)

(** ** Rules of the calculus *)

Section LogicLemmas.

Context {X : Externals}.
Variable env : Env.

Lemma wp_bind {A B} (m : M A) (f : A -> M B) Q E w :
  wp (bind m f) Q E w = wp m (fun a w' => wp (f a) Q E w') E w.
Proof. unfold wp, bind. destruct (m w); reflexivity. Qed.

Lemma wp_mono {A} (m : M A) (Q Q' : A -> World -> Prop) (E E' : World -> Prop) w :
  wp m Q E w ->
  (forall a w', Q a w' -> Q' a w') ->
  (forall w', E w' -> E' w') ->
  wp m Q' E' w.
Proof. unfold wp. destruct (m w); auto. Qed.

Lemma wp_final {A} (m : M A) (P : World -> Prop) w :
  wp m (fun _ w' => P w') P w <-> P (final (m w)).
Proof. unfold wp, final. destruct (m w); tauto. Qed.

Lemma wp_ret {A} (a : A) Q E w : wp (ret a) Q E w = Q a w.
Proof. reflexivity. Qed.

Lemma wp_get Q E w : wp get Q E w = Q (ao w) w.
Proof. reflexivity. Qed.

Lemma wp_modify f Q E w :
  wp (modify f) Q E w = Q tt (mk_world (f (ao w)) (tick w) (trace w)).
Proof. reflexivity. Qed.

Lemma wp_emit e Q E w :
  wp (emit e) Q E w = Q tt (mk_world (ao w) (tick w) (e :: trace w)).
Proof. reflexivity. Qed.

Lemma wp_ask {A} (q : Env -> nat -> A) Q E w :
  wp (ask env q) Q E w = Q (q env (tick w)) (mk_world (ao w) (S (tick w)) (trace w)).
Proof. reflexivity. Qed.

Lemma wp_call {A} (q : Env -> nat -> A) ev Q E w :
  wp (call env q ev) Q E w
  = Q (q env (tick w))
      (mk_world (ao w) (S (tick w)) (ev (q env (tick w)) :: trace w)).
Proof. reflexivity. Qed.

Lemma wp_assert b Q E w :
  wp (assert b) Q E w = if b then Q tt w else E w.
Proof. unfold wp, assert. destruct b; reflexivity. Qed.

Lemma wp_out_of_fuel {A} (Q : A -> World -> Prop) E w :
  wp out_of_fuel Q E w = E w.
Proof. reflexivity. Qed.

Lemma wp_unlock Q E w :
  wp unlock Q E w = Q tt (mk_world (ao w) (tick w) (EvUnlock :: trace w)).
Proof. reflexivity. Qed.

Lemma wp_if {A} (b : bool) (m1 m2 : M A) Q E w :
  wp (if b then m1 else m2) Q E w = if b then wp m1 Q E w else wp m2 Q E w.
Proof. destruct b; reflexivity. Qed.

End LogicLemmas.

Create Rewrite HintDb wp.
#[global] Hint Rewrite @wp_bind @wp_ret @wp_get @wp_modify @wp_emit @wp_ask
  @wp_call @wp_assert @wp_out_of_fuel @wp_unlock : wp.

(** Symbolic execution of the primitive steps at the head of the goal. *)
Ltac wp_prim :=
  repeat (autorewrite with wp; cbn [ao tick trace negb]).

(** Use a proved specification for the call at the head of the goal. *)
Ltac wp_use lem :=
  try rewrite wp_bind;
  eapply wp_mono; [ eapply lem | cbv beta; intros | cbv beta; intros ].

(** Case analysis on the test at the head of the goal. *)
Ltac wp_if :=
  match goal with
  | |- wp (if negb ?b then _ else _) _ _ _ => destruct b eqn:?; cbn [negb]
  | |- wp (if ?b then _ else _) _ _ _ => destruct b eqn:?
  | |- wp (match ?x with _ => _ end) _ _ _ => destruct x eqn:?
  | |- if negb ?b then _ else _ => destruct b eqn:?; cbn [negb]
  | |- if ?b then _ else _ => destruct b eqn:?
  end.

Ltac wp_go := repeat first [ progress wp_prim | wp_if ].


(** Read a field through the setters applied to the object. *)
Ltac ao_simpl :=
  cbn [ao tick trace
       tags really_enabled open pause allow_play in_playback_loop
       woken_for_play fail_timer config_audio_format in_audio_format
       out_audio_format cross_fade_buffer filter replay_gain_filter
       replay_gain_serial other_replay_gain_filter other_replay_gain_serial
       convert_filter command pipe current_chunk current_chunk_finished
       format_get format_set set_config_audio_format
       set_really_enabled set_open set_pause set_allow_play
       set_in_playback_loop set_woken_for_play set_fail_timer
       set_in_audio_format set_out_audio_format set_cross_fade_buffer
       set_replay_gain_serial set_other_replay_gain_serial set_command
       set_pipe set_current_chunk set_current_chunk_finished] in *.

(** The call at the head of the goal is one for which a specification
    is known (a hint of [call_db]). *)
Ltac wp_call :=
  try rewrite wp_bind;
  eapply wp_mono;
  [ solve [ eauto with call_db ]
  | cbv beta; intros
  | cbv beta; intros; try assumption ].

(** Run through the code; [fin] closes the goals about the end state. *)
Ltac wp_auto fin :=
  repeat first [ assumption | progress wp_go | fin | wp_call ].

(** ** Runs of single methods *)

Section Runs.

Context {X : Externals}.
Variable env : Env.

Lemma keeps_final {A} (m : M A) (P : AudioOutput -> Prop) w :
  keeps m P -> P (ao w) -> P (ao (final (m w))).
Proof.
  intros Hk Hw. specialize (Hk w Hw). unfold wp, on_ao in Hk.
  destruct (m w); exact Hk.
Qed.

Lemma keepsW_final {A} (m : M A) (P : World -> Prop) w :
  keepsW m P -> P w -> P (final (m w)).
Proof.
  intros Hk Hw. specialize (Hk w Hw). unfold wp in Hk.
  destruct (m w); exact Hk.
Qed.

Lemma wp_final_ao {A} (m : M A) (P : AudioOutput -> Prop) Q w :
  wp m (fun _ w' => Q (ao w')) (on_ao P) w ->
  (forall s, Q s -> P s) -> P (ao (final (m w))).
Proof.
  unfold wp, on_ao. destruct (m w); cbn; auto.
Qed.

Lemma CommandFinished_run w :
  is_NONE (command (ao w)) = false ->
  CommandFinished env w =
  Ok tt (mk_world
           (after_window env (tick w) (set_command AO_COMMAND_NONE (ao w)))
           (S (tick w))
           (EvLock (window_posted env (tick w)
                      (set_command AO_COMMAND_NONE (ao w)))
              :: EvClientNotify :: EvUnlock :: trace w)).
Proof.
  intros Hc.
  unfold CommandFinished, lock, window, after_window, window_posted,
    bind, get, assert, modify, unlock, emit, ask, ret.
  cbn. rewrite Hc. cbn.
  destruct (controller env (tick w)); reflexivity.
Qed.

Lemma bind_Ok {A B} (m : M A) (f : A -> M B) w a w' :
  m w = Ok a w' -> bind m f w = f a w'.
Proof. intros H. unfold bind. now rewrite H. Qed.

Lemma extends_refl base : extends base base.
Proof. exists []. reflexivity. Qed.

Lemma extends_cons base tr e : extends base tr -> extends base (e :: tr).
Proof. intros (later & ->). exists (e :: later). reflexivity. Qed.

Lemma extends_app base tr l : extends base tr -> extends base (l ++ tr).
Proof.
  intros (later & ->). exists (l ++ later). now rewrite app_assoc.
Qed.

Lemma wp_run {A} (m : M A) r w :
  wp m (fun a w' => Ok a w' = r) (fun _ => False) w -> m w = r.
Proof. unfold wp. destruct (m w); intros H; [ exact H | contradiction.. ]. Qed.

Lemma Close_run drain w :
  open (ao w) = true ->
  let s1 := set_open false (set_current_chunk None (set_pipe None (ao w))) in
  Close env drain w =
  Ok tt (mk_world (after_window env (tick w) s1) (S (tick w))
           (EvLock (window_posted env (tick w) s1)
              :: CloseFilter_events (ao w) ++
                 EvPluginClose
                 :: (if drain then EvPluginDrain else EvPluginCancel)
                 :: EvUnlock :: trace w)).
Proof.
  intros Ho s1. subst s1. apply wp_run.
  unfold Close, CloseFilter, lock, window, close_if_present,
    CloseFilter_events, after_window, window_posted.
  wp_prim. rewrite Ho.
  destruct drain, (replay_gain_filter (ao w)) eqn:E1,
    (other_replay_gain_filter (ao w)) eqn:E2,
    (controller env (tick w)) eqn:E3;
    repeat (wp_prim; ao_simpl; rewrite ?E1, ?E2, ?E3);
    try destruct (is_NONE (command (ao w))); wp_prim; reflexivity.
Qed.

End Runs.

(** ** The state invariants are kept by every method *)

Section Invariants.

Context {X : Externals}.
Variable env : Env.
Variables c1 c9 : bool.
Hypothesis Hctl : c1 = true -> controller_formats_valid env.
Hypothesis Hflt : c1 = true -> filter_inputs_valid env.

Local Abbreviation Inv := (Inv c1 c9).
Local Abbreviation Ready := (Ready c1 c9).
Local Abbreviation ctl_stable := (ctl_stable env).
Local Abbreviation filter_stable := (filter_stable env).

Lemma Closed_Inv s : Closed s -> Inv s.
Proof.
  unfold Closed, Inv, open_invariant, fail_timer_invariant.
  intros H; split; intros _ Ho; congruence.
Qed.

Lemma Ready_Closed re s : Ready re s -> Closed s.
Proof. unfold Ready, Closed; tauto. Qed.

Lemma stable_Closed_fail_timer now :
  stable_under (set_fail_timer (Some now)) Closed.
Proof. intros s Hs; exact Hs. Qed.

Lemma on_ao_intro (P : AudioOutput -> Prop) w : P (ao w) -> on_ao P w.
Proof. exact (fun H => H). Qed.

#[local] Hint Resolve Closed_Inv Ready_Closed stable_Closed_fail_timer
  on_ao_intro : ao_inv.

Lemma ctl_apply_open a s : open (ctl_apply a s) = open s.
Proof.
  unfold ctl_apply.
  destruct (ctl_pipe a), (ctl_in_audio_format a), (ctl_allow_play a),
    (ctl_woken_for_play a); reflexivity.
Qed.

Lemma ctl_apply_really_enabled a s :
  really_enabled (ctl_apply a s) = really_enabled s.
Proof.
  unfold ctl_apply.
  destruct (ctl_pipe a), (ctl_in_audio_format a), (ctl_allow_play a),
    (ctl_woken_for_play a); reflexivity.
Qed.

Lemma ctl_apply_fail_timer a s : fail_timer (ctl_apply a s) = fail_timer s.
Proof.
  unfold ctl_apply.
  destruct (ctl_pipe a), (ctl_in_audio_format a), (ctl_allow_play a),
    (ctl_woken_for_play a); reflexivity.
Qed.

Lemma ctl_apply_current_chunk a s :
  current_chunk (ctl_apply a s) = current_chunk s.
Proof.
  unfold ctl_apply.
  destruct (ctl_pipe a), (ctl_in_audio_format a), (ctl_allow_play a),
    (ctl_woken_for_play a); reflexivity.
Qed.

Lemma ctl_apply_pipe a s :
  is_null (pipe s) = false -> is_null (pipe (ctl_apply a s)) = false.
Proof.
  unfold ctl_apply.
  destruct (ctl_pipe a), (ctl_in_audio_format a), (ctl_allow_play a),
    (ctl_woken_for_play a); auto.
Qed.

Lemma ctl_apply_in_audio_format n a s :
  controller_formats_valid env ->
  controller env n = Some a ->
  IsValid (in_audio_format s) = true ->
  IsValid (in_audio_format (ctl_apply a s)) = true.
Proof.
  intros Hv Hc Hs. unfold ctl_apply.
  destruct (ctl_in_audio_format a) eqn:Ef.
  - specialize (Hv n a a0 Hc Ef).
    destruct (ctl_pipe a), (ctl_allow_play a), (ctl_woken_for_play a); exact Hv.
  - destruct (ctl_pipe a), (ctl_allow_play a), (ctl_woken_for_play a); exact Hs.
Qed.

Lemma ctl_stable_Closed : ctl_stable Closed.
Proof. intros n a s _ _. unfold Closed. now rewrite ctl_apply_open. Qed.

Lemma ctl_stable_Ready re : ctl_stable (Ready re).
Proof.
  intros n a s Hc _ (Ho & H1 & H9). unfold Ready.
  rewrite ctl_apply_open, ctl_apply_really_enabled, ctl_apply_fail_timer.
  split; [assumption | split; [ | assumption ] ].
  intros Hc1; destruct (H1 Hc1) as (? & ? & ?).
  split; [assumption | split ].
  - now apply ctl_apply_pipe.
  - eapply ctl_apply_in_audio_format; eauto.
Qed.

Lemma ctl_stable_Inv : ctl_stable Inv.
Proof.
  intros n a s Hc _ (H1 & H9). unfold Inv, open_invariant, fail_timer_invariant.
  rewrite ctl_apply_open, ctl_apply_really_enabled, ctl_apply_fail_timer.
  split; auto. intros Hc1 Ho. destruct (H1 Hc1 Ho) as (? & ? & ?).
  repeat split; auto.
  - now apply ctl_apply_pipe.
  - eapply ctl_apply_in_audio_format; eauto.
Qed.

Lemma keeps_window P : ctl_stable P -> keeps (window env) P.
Proof.
  intros HP w Hw. unfold window. wp_prim.
  destruct (controller env (tick w)) eqn:Ec; wp_prim; auto.
  destruct (is_NONE (command (ao w))) eqn:En; wp_prim; auto.
  eapply HP; eauto.
Qed.

Lemma keeps_lock P : ctl_stable P -> keeps (lock env) P.
Proof.
  intros HP w Hw. unfold lock. wp_use (keeps_window HP); eauto.
Qed.

Lemma keeps_cond_wait P : ctl_stable P -> keeps (cond_wait env) P.
Proof.
  intros HP w Hw. unfold cond_wait. wp_use (keeps_window HP); eauto.
Qed.

Lemma keeps_cond_timed_wait P d :
  ctl_stable P -> keeps (cond_timed_wait env d) P.
Proof.
  intros HP w Hw. unfold cond_timed_wait. wp_use (keeps_window HP); eauto.
Qed.


Lemma keeps_close_if_present P f : keeps (close_if_present f) P.
Proof. intros w Hw. destruct f; exact Hw. Qed.

Lemma keeps_CloseFilter P : keeps CloseFilter P.
Proof.
  intros w Hw. unfold CloseFilter. wp_prim.
  wp_use (@keeps_close_if_present P); eauto.
  wp_use (@keeps_close_if_present P); eauto.
Qed.

Lemma filter_stable_Closed : filter_stable Closed.
Proof. intros n fl s H. exact H. Qed.

Lemma filter_stable_Ready re : filter_stable (Ready re).
Proof.
  intros n fl s (Ho & H1 & H9). unfold Ready. ao_simpl.
  split; [ assumption | split; [ | assumption ] ].
  intros Hc1. destruct (H1 Hc1) as (? & ? & ?).
  repeat split; auto. now apply Hflt.
Qed.

Lemma filter_stable_Inv : filter_stable Inv.
Proof.
  intros n fl s (H1 & H9). unfold Inv, open_invariant, fail_timer_invariant.
  ao_simpl. split; auto.
  intros Hc1 Ho. destruct (H1 Hc1 Ho) as (? & ? & ?).
  repeat split; auto. now apply Hflt.
Qed.

(** [Filter::Open] writes [in_audio_format] and nothing else. *)
Lemma keeps_Filter_Open P fl :
  filter_stable P -> keeps (Filter_Open env fl InAudioFormat) P.
Proof.
  intros HP w Hw. unfold Filter_Open. wp_prim. ao_simpl. now apply HP.
Qed.

Lemma keeps_open_fails_if_present P f :
  filter_stable P -> keeps (open_fails_if_present env f InAudioFormat) P.
Proof.
  intros HP w Hw. destruct f; [ | exact Hw ].
  unfold open_fails_if_present.
  wp_use (@keeps_Filter_Open P f HP); eauto.
Qed.

Lemma keeps_OpenFilter P :
  filter_stable P -> keeps (OpenFilter env InAudioFormat) P.
Proof.
  intros HP w Hw. unfold OpenFilter. wp_prim. ao_simpl.
  destruct (IsValid (in_audio_format (ao w))); [ | exact Hw ]. wp_prim.
  wp_use (@keeps_open_fails_if_present P); eauto.
  destruct a; wp_prim; auto.
  wp_use (@keeps_open_fails_if_present P); eauto.
  destruct a; wp_prim.
  - wp_use (@keeps_close_if_present P); eauto.
  - wp_use (@keeps_Filter_Open P (filter (ao w)) HP); eauto.
    match goal with |- context [negb ?b] => destruct b end; cbn [negb]; wp_prim; auto.
    wp_use (@keeps_close_if_present P); eauto.
    wp_use (@keeps_close_if_present P); eauto.
Qed.

Lemma keeps_fail_timer_Update P :
  (forall now, stable_under (set_fail_timer (Some now)) P) ->
  keeps (fail_timer_Update env) P.
Proof.
  intros HP w Hw. unfold fail_timer_Update. wp_prim. now apply HP.
Qed.

Lemma keeps_Enable P :
  ctl_stable P -> stable_under (set_really_enabled true) P ->
  keeps (Enable env) P.
Proof.
  intros HC HS w Hw. unfold Enable. wp_prim.
  destruct (really_enabled (ao w)); wp_prim; auto.
  wp_use (keeps_lock HC); eauto.
  destruct (ao_plugin_enable env (tick w)); cbn [negb]; wp_prim; auto.
Qed.

Lemma Enable_Ready w :
  Ready false (ao w) ->
  wp (Enable env) (fun r w' => Ready r (ao w')) (on_ao Closed) w.
Proof.
  intros Hw. unfold Enable. wp_prim.
  destruct (really_enabled (ao w)) eqn:Ere; wp_prim.
  - unfold Ready in *. intuition.
  - wp_use (keeps_lock (@ctl_stable_Ready false)); eauto.
    + destruct (ao_plugin_enable env (tick w)); cbn [negb]; wp_prim; auto.
      unfold Ready in *. cbn. intuition.
    + eapply Ready_Closed; eauto.
Qed.

(** [Close] leaves the output closed; it can only stop early at its
    first assertion, before it has touched anything. *)
Lemma Close_Closed (P : AudioOutput -> Prop) drain w :
  P (ao w) ->
  wp (Close env drain) (fun _ w' => Closed (ao w'))
     (on_ao (fun s => P s \/ Closed s)) w.
Proof.
  intros Hw. unfold Close. wp_prim.
  destruct (open (ao w)); [ | left; exact Hw ].
  assert (HE : forall w', on_ao Closed w' ->
                          on_ao (fun s => P s \/ Closed s) w')
    by (intros w' H; right; exact H).
  destruct drain; wp_prim.
  all: wp_use (@keeps_CloseFilter Closed); [ reflexivity | | auto ].
  all: wp_use (keeps_lock ctl_stable_Closed); auto.
Qed.

Lemma Open_Inv w :
  Inv (ao w) ->
  wp (Open env) (fun _ w' => Inv (ao w')) (on_ao Inv) w.
Proof.
  intros Hw. unfold Open. wp_prim.
  destruct (open (ao w)) eqn:Eo; cbn [negb]; [ exact Hw | ].
  destruct (is_null (pipe (ao w))) eqn:Ep; cbn [negb]; [ exact Hw | ].
  destruct (is_null (current_chunk (ao w))) eqn:Ec; [ | exact Hw ].
  destruct (IsValid (in_audio_format (ao w))) eqn:Ev; [ | exact Hw ].
  assert (HE : forall re w', on_ao (Ready re) w' -> on_ao Inv w')
    by (intros re w' H; eapply Closed_Inv, Ready_Closed; exact H).
  assert (HE' : forall w', on_ao Closed w' -> on_ao Inv w')
    by (intros w' H; eapply Closed_Inv; exact H).
  unfold fail_timer_Reset. wp_prim.
  wp_use Enable_Ready; [ | | auto ].
  { unfold Ready; cbn. intuition congruence. }
  destruct a; cbn [negb]; wp_prim; [ | eapply HE; eauto ].
  wp_use (keeps_OpenFilter (@filter_stable_Ready true));
    [ eassumption | | eapply HE; eauto ].
  match goal with
  | |- context [negb (IsDefined ?b)] => destruct (IsDefined b)
  end; cbn [negb].
  2:{ wp_use (@keeps_fail_timer_Update Closed); wp_prim; eauto with ao_inv. }
  wp_prim.
  match goal with
  | |- context [if IsValid ?b then _ else _] => destruct (IsValid b)
  end; [ | eapply HE; eauto ].
  wp_prim.
  wp_use (keeps_lock (@ctl_stable_Ready true)); [ eassumption | | eapply HE; eauto ].
  wp_prim.
  destruct (open (ao w'1)) eqn:Eo1; cbn [negb]; [ eapply HE; eauto | ].
  match goal with
  | |- context [if negb (fst ?b) then _ else _] => destruct (fst b)
  end; cbn [negb].
  - wp_prim.
    match goal with
    | |- context [if negb ?b then _ else _] => destruct b
    end; cbn [negb].
    + wp_prim. unfold Inv, open_invariant, fail_timer_invariant.
      unfold Ready in *. cbn. intuition.
    + wp_prim.
      wp_use (@keeps_CloseFilter Closed); [ exact Eo1 | | auto ].
      wp_use (@keeps_fail_timer_Update Closed); wp_prim; eauto with ao_inv.
  - wp_use (@keeps_CloseFilter Closed); [ exact Eo1 | | auto ].
    wp_use (@keeps_fail_timer_Update Closed); wp_prim; eauto with ao_inv.
Qed.


Lemma on_ao_or w :
  on_ao (fun s => Inv s \/ Closed s) w -> on_ao Inv w.
Proof. intros [H | H]; [ exact H | now apply Closed_Inv ]. Qed.

#[local] Hint Resolve on_ao_or ctl_stable_Closed ctl_stable_Inv : ao_inv.

Lemma Disable_Closed w :
  Inv (ao w) ->
  wp (Disable env) (fun _ w' => Closed (ao w')) (on_ao Inv) w.
Proof.
  intros Hw. unfold Disable. wp_prim.
  assert (HC : wp (if open (ao w) then Close env false else ret tt)
                  (fun _ w' => Closed (ao w')) (on_ao Inv) w).
  { destruct (open (ao w)) eqn:Eo.
    - wp_use (@Close_Closed Inv); eauto with ao_inv.
    - exact Eo. }
  eapply wp_mono; [ exact HC | cbv beta; intros | auto ].
  wp_go; eauto with ao_inv.
  wp_use (keeps_lock ctl_stable_Closed); eauto with ao_inv.
Qed.

Lemma ReopenFilter_Inv : keeps (ReopenFilter env) Inv.
Proof.
  intros Hw w. unfold ReopenFilter.
  wp_use (@keeps_CloseFilter Inv); eauto.
  wp_prim.
  wp_use (keeps_OpenFilter filter_stable_Inv); eauto.
  wp_go; eauto with ao_inv.
  all: wp_use (@keeps_fail_timer_Update Closed); eauto with ao_inv;
       try reflexivity.
  all: wp_prim; wp_use (keeps_lock ctl_stable_Closed); eauto with ao_inv.
Qed.

Lemma Reopen_Inv : keeps (Reopen env) Inv.
Proof.
  intros w Hw. unfold Reopen. wp_prim.
  assert (HC : forall w1, Inv (ao w1) ->
     wp (if open (ao w1) then ReopenFilter env else Open env)
        (fun _ w' => Inv (ao w')) (on_ao Inv) w1).
  { intros w1 H1. wp_if.
    - now apply ReopenFilter_Inv.
    - now apply Open_Inv. }
  wp_if; [ wp_prim; now apply HC | ].
  wp_prim. wp_if.
  - wp_use (@Close_Closed Inv); eauto with ao_inv.
    wp_prim.
    match goal with |- wp _ _ _ ?w1 => apply (HC w1) end.
    now apply Closed_Inv.
  - wp_prim.
    match goal with |- wp _ _ _ ?w1 => apply (HC w1) end.
    exact Hw.
Qed.

Lemma keeps_CommandFinished P :
  ctl_stable P -> stable_under (set_command AO_COMMAND_NONE) P ->
  keeps (CommandFinished env) P.
Proof.
  intros HC HS w Hw. unfold CommandFinished. wp_go; [ exact Hw | ].
  wp_use (keeps_lock HC); eauto.
Qed.

Lemma stable_Inv_command c : stable_under (set_command c) Inv.
Proof. intros s Hs; exact Hs. Qed.

Lemma stable_Closed_command c : stable_under (set_command c) Closed.
Proof. intros s Hs; exact Hs. Qed.

#[local] Hint Resolve stable_Inv_command stable_Closed_command : ao_inv.

Lemma keeps_WaitForDelay P fuel :
  ctl_stable P -> keeps (WaitForDelay env fuel) P.
Proof.
  intros HC. induction fuel as [ | fuel IH ]; intros w Hw; cbn [WaitForDelay].
  - exact Hw.
  - wp_go; [ exact Hw | ].
    wp_use (@keeps_cond_timed_wait P (ao_plugin_delay env (tick w)) HC); eauto.
    wp_go; eauto.
Qed.

Lemma stable_Inv_cell c v : stable_under (cell_set c v) Inv.
Proof. intros s Hs; destruct c; exact Hs. Qed.

Lemma ao_chunk_data_Inv chunk f cell :
  keeps (ao_chunk_data env chunk f cell) Inv.
Proof.
  intros w Hw. unfold ao_chunk_data. wp_go; eauto.
  now apply stable_Inv_cell.
Qed.

Lemma apply_filter_chain_Inv d len : keeps (apply_filter_chain env d len) Inv.
Proof. intros w Hw. exact Hw. Qed.

Lemma ao_filter_chunk_Inv chunk : keeps (ao_filter_chunk env chunk) Inv.
Proof.
  intros w Hw. unfold ao_filter_chunk. wp_prim.
  wp_use ao_chunk_data_Inv; eauto.
  destruct a as [ [d len] | ]; wp_go; eauto.
  wp_use ao_chunk_data_Inv; eauto.
  destruct a as [ [od olen] | ]; wp_go; eauto.
Qed.

Lemma Inv_fail_timer_undefined w :
  Closed (ao w) ->
  wp (s <- get ;;
      assert (negb (FailTimer.IsDefined (fail_timer s))) ;;
      fail_timer_Update env ;; ret false)
     (fun _ w' => Inv (ao w')) (on_ao Inv) w.
Proof.
  intros Hw. wp_go; [ now apply Closed_Inv | ].
  unfold fail_timer_Update. wp_prim. now apply Closed_Inv.
Qed.

Lemma PlayChunk_loop_Inv fuel :
  forall d size, keeps (PlayChunk_loop env fuel d size) Inv.
Proof.
  induction fuel as [ | fuel IH ]; intros d size w Hw; cbn [PlayChunk_loop].
  - exact Hw.
  - wp_prim. wp_if; [ | exact Hw ].
    wp_use (keeps_WaitForDelay (P := Inv)); eauto with ao_inv.
    wp_if; [ | exact H ].
    wp_prim.
    wp_use (keeps_lock ctl_stable_Inv); eauto.
    wp_if.
    + wp_use (@Close_Closed Inv); eauto with ao_inv.
      now apply Inv_fail_timer_undefined.
    + wp_go; eauto. now apply IH.
Qed.

Lemma PlayChunk_Inv fuel chunk : keeps (PlayChunk env fuel chunk) Inv.
Proof.
  intros w Hw. unfold PlayChunk. wp_prim.
  assert (HT : wp (match tag (chunk_deref env chunk) with
                   | Some t => if tags (ao w)
                               then unlock ;; emit (EvPluginSendTag t) ;; lock env
                               else ret tt
                   | None => ret tt end)
                  (fun _ w' => Inv (ao w')) (on_ao Inv) w).
  { wp_go; eauto. wp_use (keeps_lock ctl_stable_Inv); eauto. }
  eapply wp_mono; [ exact HT | cbv beta; intros | auto ].
  wp_use ao_filter_chunk_Inv; eauto.
  destruct a0 as [ [d size] | ].
  - now apply PlayChunk_loop_Inv.
  - wp_use (@Close_Closed Inv); eauto with ao_inv.
    wp_use (@keeps_fail_timer_Update Closed); wp_prim; eauto with ao_inv.
Qed.

Lemma GetNextChunk_Inv : keeps (GetNextChunk env) Inv.
Proof. intros w Hw. unfold GetNextChunk. wp_go; eauto. Qed.

Lemma Play_loop_Inv fuel : forall chunk, keeps (Play_loop env fuel chunk) Inv.
Proof.
  induction fuel as [ | fuel IH ]; intros chunk w Hw; cbn [Play_loop].
  - exact Hw.
  - destruct chunk as [ p | ]; [ | exact Hw ].
    wp_go; eauto.
    wp_use (@PlayChunk_Inv fuel p); eauto.
    wp_go; eauto. now apply IH.
Qed.

Lemma Play_Inv fuel : keeps (Play env fuel) Inv.
Proof.
  intros w Hw. unfold Play. wp_go; eauto.
  wp_use GetNextChunk_Inv; eauto.
  wp_go; eauto.
  wp_use (@Play_loop_Inv fuel (Some c)); eauto.
  wp_go; eauto.
  wp_use (keeps_lock ctl_stable_Inv); eauto.
Qed.

Lemma Pause_loop_Inv fuel : keeps (Pause_loop env fuel) Inv.
Proof.
  induction fuel as [ | fuel IH ]; intros w Hw; cbn [Pause_loop].
  - exact Hw.
  - wp_use (keeps_WaitForDelay (P := Inv)); eauto with ao_inv.
    wp_go; eauto.
    wp_use (keeps_lock ctl_stable_Inv); eauto.
    wp_go; eauto.
    wp_use (@Close_Closed Inv); eauto with ao_inv.
Qed.

Lemma Pause_Inv fuel : keeps (Pause env fuel) Inv.
Proof.
  intros w Hw. unfold Pause. wp_prim.
  wp_use (keeps_lock ctl_stable_Inv); eauto.
  wp_prim.
  wp_use (@keeps_CommandFinished Inv); wp_prim; eauto with ao_inv.
  wp_use Pause_loop_Inv; eauto.
Qed.

Lemma Task_switch_Inv fuel : keeps (Task_switch env fuel) Inv.
Proof.
  intros w Hw. unfold Task_switch. wp_prim.
  destruct (command (ao w)).
  - exact Hw.
  - wp_use (@keeps_Enable Inv); eauto with ao_inv.
    + intros s (H1 & H9); split; auto.
      intros Hc1 Ho. destruct (H1 Hc1 Ho) as (? & ? & ?). repeat split; auto.
    + wp_use (@keeps_CommandFinished Inv); wp_prim; eauto with ao_inv.
  - wp_use Disable_Closed; eauto.
    wp_use (@keeps_CommandFinished Closed); wp_prim; eauto with ao_inv.
  - wp_use Open_Inv; eauto.
    wp_use (@keeps_CommandFinished Inv); wp_prim; eauto with ao_inv.
  - wp_use Reopen_Inv; eauto.
    wp_use (@keeps_CommandFinished Inv); wp_prim; eauto with ao_inv.
  - wp_go; eauto.
    wp_use (@Close_Closed Inv); eauto with ao_inv.
    wp_use (@keeps_CommandFinished Closed); wp_prim; eauto with ao_inv.
  - wp_if.
    + wp_use Pause_Inv; eauto.
    + wp_use (@keeps_CommandFinished Inv); wp_prim; eauto with ao_inv.
  - wp_prim.
    assert (HD : wp
      (if open (ao w)
       then assert (is_null (current_chunk (ao w))) ;;
            match pipe (ao w) with
            | Some mp =>
                head <- call env (fun e n => pipe_Peek e n mp) (EvPeek mp) ;;
                assert (is_null head)
            | None => assert false
            end ;;
            unlock ;; emit EvPluginDrain ;; lock env
       else ret tt) (fun _ w' => Inv (ao w')) (on_ao Inv) w).
    { wp_go; eauto. wp_use (keeps_lock ctl_stable_Inv); eauto. }
    eapply wp_mono; [ exact HD | cbv beta; intros | auto ].
    wp_use (@keeps_CommandFinished Inv); wp_prim; eauto with ao_inv.
  - wp_prim.
    assert (HD : wp
      (if open (ao w)
       then unlock ;; emit EvPluginCancel ;; lock env
       else ret tt) (fun _ w' => Inv (ao w')) (on_ao Inv)
      (mk_world (set_current_chunk None (ao w)) (tick w) (trace w))).
    { wp_go; eauto. wp_use (keeps_lock ctl_stable_Inv); eauto. }
    eapply wp_mono; [ exact HD | cbv beta; intros | auto ].
    wp_use (@keeps_CommandFinished Inv); wp_prim; eauto with ao_inv.
  - wp_prim.
    wp_use (@keeps_CommandFinished Inv); wp_prim; eauto with ao_inv.
Qed.

Lemma Task_idle_Inv fuel : keeps (Task_idle env fuel) Inv.
Proof.
  intros w Hw. unfold Task_idle. wp_prim.
  assert (HP : wp (if open (ao w) && allow_play (ao w)
                   then Play env fuel else ret false)
                  (fun _ w' => Inv (ao w')) (on_ao Inv) w).
  { wp_if; [ now apply Play_Inv | exact Hw ]. }
  eapply wp_mono; [ exact HP | cbv beta; intros | auto ].
  wp_go; eauto.
  wp_use (keeps_cond_wait ctl_stable_Inv); eauto.
Qed.

Lemma Task_iteration_Inv fuel : keeps (Task_iteration env fuel) Inv.
Proof.
  intros w Hw. unfold Task_iteration.
  wp_use Task_switch_Inv; eauto.
  destruct a; wp_prim; eauto.
  wp_use Task_idle_Inv; eauto.
Qed.

Lemma Task_loop_Inv fuel : keeps (Task_loop env fuel) Inv.
Proof.
  induction fuel as [ | fuel IH ]; intros w Hw; cbn [Task_loop].
  - exact Hw.
  - wp_use Task_iteration_Inv; eauto.
    destruct a; [ now apply IH | exact H ].
Qed.

Lemma Task_Inv fuel : keeps (Task env fuel) Inv.
Proof.
  intros w Hw. unfold Task.
  wp_use (keeps_lock ctl_stable_Inv); eauto.
  now apply Task_loop_Inv.
Qed.

End Invariants.

(** ** No delivery while a command is pending *)

Section CommandOrder.

Context {X : Externals}.
Variable env : Env.
Variable init : bool.

Local Abbreviation CI := (CmdInv init).

Lemma ctl_apply_command a s : command (ctl_apply a s) = ctl_command a.
Proof.
  unfold ctl_apply.
  destruct (ctl_pipe a), (ctl_in_audio_format a), (ctl_allow_play a),
    (ctl_woken_for_play a); reflexivity.
Qed.

Lemma CmdInv_quiet e s s' t tr :
  quiet e = true -> command s' = command s ->
  CI (mk_world s t tr) -> CI (mk_world s' t (e :: tr)).
Proof.
  intros Hq Hc (Hn & Hp). unfold CmdInv in *; cbn [trace ao] in *.
  rewrite Hc. cbn [no_delivery_started_pending pending].
  destruct e; try discriminate Hq; cbn; repeat split; auto; try discriminate.
Qed.

Lemma CmdInv_same w s t tr :
  command s = command (ao w) -> tr = trace w ->
  CI w -> CI (mk_world s t tr).
Proof.
  intros Hc -> (Hn & Hp). unfold CmdInv; cbn [trace ao]. rewrite Hc. auto.
Qed.

(** Re-acquiring the mutex: a posted command shows in the slot and in
    the trace at once. *)
Lemma CmdInv_window (ev : option CtlAction -> Event) :
  (forall a, delivers (ev a) = false) ->
  (forall a b, ev_pending (ev a) b =
               match a with
               | Some act => negb (is_NONE (ctl_command act))
               | None => b end) ->
  keepsW (a <- window env ;; emit (ev a)) CI.
Proof.
  intros Hd He w (Hn & Hp). unfold window. wp_prim.
  assert (HN : forall a tr, no_delivery_started_pending init tr ->
                 no_delivery_started_pending init (ev a :: tr)).
  { intros a tr H. split; [ rewrite Hd; discriminate | exact H ]. }
  destruct (controller env (tick w)) as [ act | ]; wp_prim.
  - destruct (is_NONE (command (ao w))) eqn:En; wp_prim.
    + split; cbn [trace ao pending]; [ now apply HN | ].
      rewrite He. now rewrite ctl_apply_command.
    + split; cbn [trace ao pending]; [ now apply HN | ].
      rewrite He, En. exact Hp.
  - split; cbn [trace ao pending]; [ now apply HN | ].
    rewrite He. exact Hp.
Qed.

Lemma lock_Cmd : keepsW (lock env) CI.
Proof. apply CmdInv_window; [ reflexivity | intros [ a | ] b; reflexivity ]. Qed.

Lemma cond_wait_Cmd : keepsW (cond_wait env) CI.
Proof. apply CmdInv_window; [ reflexivity | intros [ a | ] b; reflexivity ]. Qed.

Lemma cond_timed_wait_Cmd d : keepsW (cond_timed_wait env d) CI.
Proof. apply CmdInv_window; [ reflexivity | intros [ a | ] b; reflexivity ]. Qed.


(** Closing the goal [CmdInv w'] where [w'] is the starting world with
    quiet events added and fields other than [command] changed. *)
Ltac cmd_fin :=
  cbn [ao tick trace];
  repeat (eapply CmdInv_quiet; [ reflexivity | reflexivity | ]);
  first [ assumption
        | eapply CmdInv_same; [ reflexivity | reflexivity | eassumption ] ].

Lemma CommandFinished_Cmd : keepsW (CommandFinished env) CI.
Proof.
  intros w Hw. unfold CommandFinished. wp_go; [ exact Hw | ].
  wp_use lock_Cmd; auto.
  destruct Hw as (Hn & Hp). split; cbn.
  - repeat split; auto; discriminate.
  - reflexivity.
Qed.

Lemma close_if_present_Cmd f : keepsW (close_if_present f) CI.
Proof.
  intros w Hw. destruct f; [ | exact Hw ].
  unfold close_if_present. wp_prim. cmd_fin.
Qed.



Ltac cmd_call := wp_call.

Ltac cmd_auto := wp_auto cmd_fin.

#[local] Hint Extern 1 (CmdInv _ _) => cmd_fin : call_db.
#[local] Hint Extern 1 (wp (lock _) _ _ _) => eapply lock_Cmd : call_db.
#[local] Hint Extern 1 (wp (cond_wait _) _ _ _) => eapply cond_wait_Cmd : call_db.
#[local] Hint Extern 1 (wp (cond_timed_wait _ _) _ _ _) =>
  eapply cond_timed_wait_Cmd : call_db.
#[local] Hint Extern 1 (wp (CommandFinished _) _ _ _) =>
  eapply CommandFinished_Cmd : call_db.
#[local] Hint Extern 1 (wp (close_if_present _) _ _ _) =>
  eapply close_if_present_Cmd : call_db.

Lemma CloseFilter_Cmd : keepsW CloseFilter CI.
Proof. intros w Hw. unfold CloseFilter. cmd_auto. Qed.

#[local] Hint Extern 1 (wp CloseFilter _ _ _) => eapply CloseFilter_Cmd : call_db.

Lemma Filter_Open_Cmd fl c : keepsW (Filter_Open env fl c) CI.
Proof.
  intros w Hw. unfold Filter_Open. wp_prim.
  eapply CmdInv_quiet; [ reflexivity | | exact Hw ].
  destruct c; reflexivity.
Qed.

#[local] Hint Extern 1 (wp (Filter_Open _ _ _) _ _ _) =>
  eapply Filter_Open_Cmd : call_db.

Lemma open_fails_if_present_Cmd f c :
  keepsW (open_fails_if_present env f c) CI.
Proof.
  intros w Hw. destruct f; [ | exact Hw ].
  unfold open_fails_if_present. cmd_auto.
Qed.

#[local] Hint Extern 1 (wp (open_fails_if_present _ _ _) _ _ _) =>
  eapply open_fails_if_present_Cmd : call_db.

Lemma OpenFilter_Cmd c : keepsW (OpenFilter env c) CI.
Proof. intros w Hw. unfold OpenFilter. cmd_auto. Qed.

#[local] Hint Extern 1 (wp (OpenFilter _ _) _ _ _) =>
  eapply OpenFilter_Cmd : call_db.

Lemma fail_timer_Update_Cmd : keepsW (fail_timer_Update env) CI.
Proof. intros w Hw. unfold fail_timer_Update. cmd_auto. Qed.

#[local] Hint Extern 1 (wp (fail_timer_Update _) _ _ _) =>
  eapply fail_timer_Update_Cmd : call_db.

Lemma Enable_Cmd : keepsW (Enable env) CI.
Proof. intros w Hw. unfold Enable. cmd_auto. Qed.

#[local] Hint Extern 1 (wp (Enable _) _ _ _) => eapply Enable_Cmd : call_db.

Lemma Open_Cmd : keepsW (Open env) CI.
Proof. intros w Hw. unfold Open, fail_timer_Reset. cmd_auto. Qed.

#[local] Hint Extern 1 (wp (Open _) _ _ _) => eapply Open_Cmd : call_db.

Lemma Close_Cmd drain : keepsW (Close env drain) CI.
Proof. intros w Hw. unfold Close. cmd_auto. Qed.

#[local] Hint Extern 1 (wp (Close _ _) _ _ _) => eapply Close_Cmd : call_db.

Lemma Disable_Cmd : keepsW (Disable env) CI.
Proof. intros w Hw. unfold Disable. cmd_auto. Qed.


#[local] Hint Extern 1 (wp (Disable _) _ _ _) => eapply Disable_Cmd : call_db.

Lemma ReopenFilter_Cmd : keepsW (ReopenFilter env) CI.
Proof. intros w Hw. unfold ReopenFilter. cmd_auto. Qed.

#[local] Hint Extern 1 (wp (ReopenFilter _) _ _ _) =>
  eapply ReopenFilter_Cmd : call_db.

Lemma Reopen_Cmd : keepsW (Reopen env) CI.
Proof. intros w Hw. unfold Reopen. cmd_auto. Qed.

#[local] Hint Extern 1 (wp (Reopen _) _ _ _) => eapply Reopen_Cmd : call_db.

(** [WaitForDelay] says "go on" only if no command has come in. *)
Lemma WaitForDelay_Cmd fuel w :
  CI w ->
  wp (WaitForDelay env fuel)
     (fun go w' => CI w' /\
        (go = true -> is_NONE (command (ao w)) = true ->
         is_NONE (command (ao w')) = true))
     CI w.
Proof.
  revert w. induction fuel as [ | fuel IH ]; intros w Hw; cbn [WaitForDelay].
  - exact Hw.
  - wp_go.
    + split; [ cmd_fin | auto ].
    + cmd_call. wp_go.
      * wp_use IH; [ assumption | | assumption ].
        destruct H0 as (H0 & H1). split; [ exact H0 | intros; auto ].
      * split; [ assumption | discriminate ].
Qed.

Lemma ao_chunk_data_Cmd chunk f cell :
  keepsW (ao_chunk_data env chunk f cell) CI.
Proof.
  intros w Hw. unfold ao_chunk_data. cmd_auto.
  eapply CmdInv_quiet; [ reflexivity | | ].
  2: eapply CmdInv_quiet; [ reflexivity | reflexivity | ].
  2: eapply CmdInv_same; [ reflexivity | reflexivity | exact Hw ].
  destruct cell; reflexivity.
Qed.

#[local] Hint Extern 1 (wp (ao_chunk_data _ _ _ _) _ _ _) =>
  eapply ao_chunk_data_Cmd : call_db.

Lemma apply_filter_chain_Cmd d len : keepsW (apply_filter_chain env d len) CI.
Proof. intros w Hw. unfold apply_filter_chain. cmd_auto. Qed.

#[local] Hint Extern 1 (wp (apply_filter_chain _ _ _) _ _ _) =>
  eapply apply_filter_chain_Cmd : call_db.

Lemma ao_filter_chunk_Cmd chunk : keepsW (ao_filter_chunk env chunk) CI.
Proof.
  intros w Hw. unfold ao_filter_chunk. wp_prim. cmd_call.
  destruct a as [ [d len] | ]; cmd_auto.
Qed.

#[local] Hint Extern 1 (wp (ao_filter_chunk _ _) _ _ _) =>
  eapply ao_filter_chunk_Cmd : call_db.

Lemma CmdInv_play d size n w :
  CI w -> is_NONE (command (ao w)) = true ->
  CI (mk_world (ao w) (S (tick w))
        (EvPluginPlay d size n :: EvUnlock :: trace w)).
Proof.
  intros (Hn & Hp) Hnone. split; cbn.
  - repeat split; auto; try discriminate.
    intros _. eexists. split; [ reflexivity | ].
    rewrite Hp, Hnone. reflexivity.
  - exact Hp.
Qed.

Lemma CmdInv_send_tag t w :
  CI w -> is_NONE (command (ao w)) = true ->
  CI (mk_world (ao w) (tick w) (EvPluginSendTag t :: EvUnlock :: trace w)).
Proof.
  intros (Hn & Hp) Hnone. split; cbn.
  - repeat split; auto; try discriminate.
    intros _. eexists. split; [ reflexivity | ].
    rewrite Hp, Hnone. reflexivity.
  - exact Hp.
Qed.

Lemma PlayChunk_loop_Cmd fuel :
  forall d size, keepsW (PlayChunk_loop env fuel d size) CI.
Proof.
  induction fuel as [ | fuel IH ]; intros d size w Hw; cbn [PlayChunk_loop].
  - exact Hw.
  - wp_prim. wp_if; [ | exact Hw ].
    apply andb_prop in Heqb. destruct Heqb as (_ & Hnone).
    wp_use WaitForDelay_Cmd; [ exact Hw | | assumption ].
    destruct H as (H & Hgo).
    wp_if; [ | exact H ].
    specialize (Hgo eq_refl Hnone).
    wp_prim.
    pose proof (CmdInv_play d size (ao_plugin_play env (tick w') d size) H Hgo).
    cmd_call. wp_if; cmd_auto. now apply IH.
Qed.

Lemma PlayChunk_Cmd fuel chunk w :
  CI w -> is_NONE (command (ao w)) = true ->
  wp (PlayChunk env fuel chunk) (fun _ w' => CI w') CI w.
Proof.
  intros Hw Hnone. unfold PlayChunk. wp_prim.
  assert (HT : wp (match tag (chunk_deref env chunk) with
                   | Some t => if tags (ao w)
                               then unlock ;; emit (EvPluginSendTag t) ;; lock env
                               else ret tt
                   | None => ret tt end)
                  (fun _ w' => CI w') CI w).
  { wp_go; try exact Hw.
    pose proof (CmdInv_send_tag t Hw Hnone). cmd_auto. }
  eapply wp_mono; [ exact HT | cbv beta; intros | auto ].
  cmd_call.
  destruct a0 as [ [d size] | ].
  - now apply PlayChunk_loop_Cmd.
  - cmd_auto.
Qed.

Lemma GetNextChunk_Cmd : keepsW (GetNextChunk env) CI.
Proof. intros w Hw. unfold GetNextChunk. cmd_auto. Qed.

#[local] Hint Extern 1 (wp (GetNextChunk _) _ _ _) =>
  eapply GetNextChunk_Cmd : call_db.

Lemma Play_loop_Cmd fuel : forall chunk, keepsW (Play_loop env fuel chunk) CI.
Proof.
  induction fuel as [ | fuel IH ]; intros chunk w Hw; cbn [Play_loop].
  - exact Hw.
  - destruct chunk as [ p | ]; [ | exact Hw ].
    wp_prim. wp_if; [ | exact Hw ].
    wp_go; [ exact Hw | ].
    wp_use (@PlayChunk_Cmd fuel p); [ cmd_fin | exact Heqb | | assumption ].
    wp_go; try assumption. now apply IH.
Qed.

#[local] Hint Extern 1 (wp (Play_loop _ _ _) _ _ _) =>
  eapply Play_loop_Cmd : call_db.

Lemma Play_Cmd fuel : keepsW (Play env fuel) CI.
Proof. intros w Hw. unfold Play. cmd_auto. Qed.

#[local] Hint Extern 1 (wp (Play _ _) _ _ _) => eapply Play_Cmd : call_db.

Lemma Pause_loop_Cmd fuel : keepsW (Pause_loop env fuel) CI.
Proof.
  induction fuel as [ | fuel IH ]; intros w Hw; cbn [Pause_loop].
  - exact Hw.
  - wp_use WaitForDelay_Cmd; [ exact Hw | | assumption ].
    destruct H as (H & _).
    cmd_auto.
Qed.

#[local] Hint Extern 1 (wp (Pause_loop _ _) _ _ _) =>
  eapply Pause_loop_Cmd : call_db.

Lemma Pause_Cmd fuel : keepsW (Pause env fuel) CI.
Proof. intros w Hw. unfold Pause. cmd_auto. Qed.

#[local] Hint Extern 1 (wp (Pause _ _) _ _ _) => eapply Pause_Cmd : call_db.

Lemma Task_switch_Cmd fuel : keepsW (Task_switch env fuel) CI.
Proof.
  intros w Hw. unfold Task_switch. wp_prim.
  destruct (command (ao w)) eqn:Ec; cmd_auto.
Qed.

#[local] Hint Extern 1 (wp (Task_switch _ _) _ _ _) =>
  eapply Task_switch_Cmd : call_db.

Lemma Task_idle_Cmd fuel : keepsW (Task_idle env fuel) CI.
Proof. intros w Hw. unfold Task_idle. cmd_auto. Qed.

#[local] Hint Extern 1 (wp (Task_idle _ _) _ _ _) =>
  eapply Task_idle_Cmd : call_db.

Lemma Task_iteration_Cmd fuel : keepsW (Task_iteration env fuel) CI.
Proof.
  intros w Hw. unfold Task_iteration. cmd_call.
  destruct a; cmd_auto.
Qed.

Lemma Task_loop_Cmd fuel : keepsW (Task_loop env fuel) CI.
Proof.
  induction fuel as [ | fuel IH ]; intros w Hw; cbn [Task_loop].
  - exact Hw.
  - wp_use Task_iteration_Cmd; [ exact Hw | | assumption ].
    destruct a; [ now apply IH | assumption ].
Qed.

Lemma Task_Cmd fuel : keepsW (Task env fuel) CI.
Proof.
  intros w Hw. unfold Task. cmd_call. now apply Task_loop_Cmd.
Qed.

End CommandOrder.

(** ** [Reopen] without a configured format *)

Section Reopening.

Context {X : Externals}.
Variable env : Env.
Variable p : option MusicPipe.
Variable base : list Event.

Local Abbreviation CF := (command_frame p base).
Local Abbreviation RR := (reopen_ready p base).

Ltac frame_fin :=
  unfold command_frame in *; ao_simpl;
  repeat match goal with H : _ /\ _ |- _ => destruct H end;
  first
    [ congruence
    | split; [ congruence
             | split; [ congruence
                      | repeat apply extends_cons; assumption ] ] ].

#[local] Hint Extern 1 (command_frame _ _ _) => frame_fin : call_db.

Lemma lock_CF : keepsW (lock env) CF.
Proof.
  intros w Hw. pose proof Hw as (Hc & _). unfold lock, window. wp_prim.
  rewrite Hc. destruct (controller env (tick w)); wp_prim; frame_fin.
Qed.

#[local] Hint Extern 1 (wp (lock _) _ _ _) => eapply lock_CF : call_db.

Lemma close_if_present_CF f : keepsW (close_if_present f) CF.
Proof. intros w Hw. unfold close_if_present. wp_auto frame_fin. Qed.

#[local] Hint Extern 1 (wp (close_if_present _) _ _ _) =>
  eapply close_if_present_CF : call_db.

Lemma CloseFilter_CF : keepsW CloseFilter CF.
Proof. intros w Hw. unfold CloseFilter. wp_auto frame_fin. Qed.

#[local] Hint Extern 1 (wp CloseFilter _ _ _) => eapply CloseFilter_CF : call_db.

Lemma open_fails_if_present_CF f :
  keepsW (open_fails_if_present env f InAudioFormat) CF.
Proof.
  intros w Hw. unfold open_fails_if_present, Filter_Open. wp_auto frame_fin.
Qed.

#[local] Hint Extern 1 (wp (open_fails_if_present _ _ _) _ _ _) =>
  eapply open_fails_if_present_CF : call_db.

Lemma OpenFilter_CF : keepsW (OpenFilter env InAudioFormat) CF.
Proof. intros w Hw. unfold OpenFilter, Filter_Open. wp_auto frame_fin. Qed.

#[local] Hint Extern 1 (wp (OpenFilter _ _) _ _ _) =>
  eapply OpenFilter_CF : call_db.

Lemma fail_timer_Update_CF : keepsW (fail_timer_Update env) CF.
Proof. intros w Hw. unfold fail_timer_Update. wp_auto frame_fin. Qed.

#[local] Hint Extern 1 (wp (fail_timer_Update _) _ _ _) =>
  eapply fail_timer_Update_CF : call_db.

Lemma Enable_CF : keepsW (Enable env) CF.
Proof. intros w Hw. unfold Enable. wp_auto frame_fin. Qed.

#[local] Hint Extern 1 (wp (Enable _) _ _ _) => eapply Enable_CF : call_db.

(** [Open] does not write [pipe], and during a command nobody else
    does. *)
Lemma Open_CF : keepsW (Open env) CF.
Proof. intros w Hw. unfold Open, fail_timer_Reset. wp_auto frame_fin. Qed.


(** With well-behaved filters and a state that satisfies the
    invariant, the [Open] at the end of [Reopen] returns. *)
Section Total.

Hypothesis Hff : filter_formats_valid env.

Local Abbreviation RO := (reopen_filters_open p base).

Ltac ready_fin :=
  unfold reopen_ready, reopen_filters_open, command_frame in *; ao_simpl;
  repeat match goal with H : _ /\ _ |- _ => destruct H end;
  first
    [ congruence
    | repeat match goal with |- _ /\ _ => split end;
      first
        [ congruence
        | repeat apply extends_cons; assumption
        | intros; rewrite Undefined_IsDefined in *; discriminate
        | intros; apply Hff; assumption
        | assumption ] ].

#[local] Hint Extern 1 (reopen_ready _ _ _) => ready_fin : call_db.
#[local] Hint Extern 1 (reopen_filters_open _ _ _) => ready_fin : call_db.

Lemma lock_RR : keepsT (lock env) RR.
Proof.
  intros w Hw. pose proof Hw as ((Hc & _) & _). unfold lock, window. wp_prim.
  rewrite Hc. destruct (controller env (tick w)); wp_prim; ready_fin.
Qed.

Lemma lock_RO : keepsT (lock env) RO.
Proof.
  intros w Hw. pose proof Hw as ((Hc & _) & _). unfold lock, window. wp_prim.
  rewrite Hc. destruct (controller env (tick w)); wp_prim; ready_fin.
Qed.

#[local] Hint Extern 0 (wp (lock _) _ _ _) => eapply lock_RR : call_db.
#[local] Hint Extern 0 (wp (lock _) _ _ _) => eapply lock_RO : call_db.

Lemma close_if_present_RO f : keepsT (close_if_present f) RO.
Proof. intros w Hw. unfold close_if_present. wp_auto ready_fin. Qed.

#[local] Hint Extern 0 (wp (close_if_present _) _ _ _) =>
  eapply close_if_present_RO : call_db.

Lemma CloseFilter_RO : keepsT CloseFilter RO.
Proof. intros w Hw. unfold CloseFilter. wp_auto ready_fin. Qed.

#[local] Hint Extern 0 (wp CloseFilter _ _ _) => eapply CloseFilter_RO : call_db.

Lemma fail_timer_Update_RO : keepsT (fail_timer_Update env) RO.
Proof. intros w Hw. unfold fail_timer_Update. wp_auto ready_fin. Qed.

#[local] Hint Extern 0 (wp (fail_timer_Update _) _ _ _) =>
  eapply fail_timer_Update_RO : call_db.

Lemma Enable_RR w :
  RR w -> wp (Enable env) (fun r w' => r = true /\ RR w') (fun _ => False) w.
Proof. intros Hw. unfold Enable. wp_auto ready_fin. Qed.

(** The filters are handed a valid format; what they leave in
    [in_audio_format] is not looked at again. *)
Lemma OpenFilter_RR w :
  RR w ->
  wp (OpenFilter env InAudioFormat)
     (fun r w' => RO w' /\ (IsDefined r = true -> IsValid r = true))
     (fun _ => False) w.
Proof.
  intros Hw. unfold OpenFilter, open_fails_if_present, close_if_present,
    Filter_Open.
  wp_go; try ready_fin.
Qed.

Lemma Open_RR w :
  RR w -> wp (Open env) (fun _ w' => CF w') (fun _ => False) w.
Proof.
  intros Hw. unfold Open, fail_timer_Reset. wp_go; try ready_fin.
  wp_use Enable_RR; [ ready_fin | | contradiction ].
  wp_go; try ready_fin.
  destruct H as (_ & H).
  wp_use OpenFilter_RR; [ exact H | | contradiction ].
  destruct H0 as (H0 & Hv).
  assert (Hv' : IsDefined a0 = false \/ IsValid a0 = true).
  { destruct (IsDefined a0); [ right; now apply Hv | now left ]. }
  clear Hv.
  wp_go; try ready_fin.
  all: try (destruct Hv'; congruence).
  all: wp_auto ready_fin.
Qed.

End Total.

End Reopening.

(** ** Failures inside [Open] *)

Section OpenFailures.

Context {X : Externals}.
Variable env : Env.

Lemma ctl_apply_CloseFilter_events a s :
  CloseFilter_events (ctl_apply a s) = CloseFilter_events s.
Proof.
  unfold ctl_apply, CloseFilter_events.
  destruct (ctl_pipe a), (ctl_in_audio_format a), (ctl_allow_play a),
    (ctl_woken_for_play a); reflexivity.
Qed.

Lemma filter_balance_app f l tr :
  filter_balance f (l ++ tr) = (filter_balance f l + filter_balance f tr)%Z.
Proof.
  induction l as [ | e l IH ]; cbn [app filter_balance]; [ reflexivity | ].
  destruct e; rewrite ?IH; lia.
Qed.

Lemma enable_failed_open_failed tr :
  open_failed tr = false -> enable_failed tr = false.
Proof.
  unfold open_failed, enable_failed.
  induction tr as [ | e tr IH ]; cbn [existsb]; [ reflexivity | ].
  intros H. apply orb_false_iff in H. destruct H as (H1 & H2).
  rewrite (IH H2). destruct e; try reflexivity.
  destruct success; [ reflexivity | discriminate H1 ].
Qed.

(** Arithmetic on balances, once the events are known. *)
Ltac bal_solve :=
  intros;
  match goal with
  | |- context [filter_balance ?f _] =>
      repeat match goal with
             | H : forall g : Filter, _ |- _ => specialize (H f)
             end
  end;
  rewrite ?filter_balance_app in *;
  cbn [filter_balance CloseFilter_events app] in *;
  ao_simpl;
  rewrite ?filter_balance_app in *;
  cbn [filter_balance] in *;
  repeat match goal with
         | E : ?x = Some _, H : context [match ?x with _ => _ end] |- _ =>
             rewrite E in H
         | E : ?x = None, H : context [match ?x with _ => _ end] |- _ =>
             rewrite E in H
         | E : ?x = Some _ |- context [match ?x with _ => _ end] => rewrite E
         | E : ?x = None |- context [match ?x with _ => _ end] => rewrite E
         end;
  cbn [filter_balance app] in *;
  repeat match goal with
         | H : ?b = true |- context [?b] => rewrite H
         | H : ?b = false |- context [?b] => rewrite H
         end;
  repeat match goal with
         | |- context [N.eqb ?a ?b] => destruct (N.eqb a b)
         | H : context [N.eqb ?a ?b] |- _ => destruct (N.eqb a b)
         end;
  cbn [andb] in *; lia.

Lemma enable_failed_is_failure tr :
  enable_failed tr = true -> open_failed tr = true.
Proof.
  intros H. destruct (open_failed tr) eqn:E; [ reflexivity | ].
  apply enable_failed_open_failed in E. congruence.
Qed.

Ltac os_simpl :=
  unfold OS_start, OS_filters, OS_failing, OS_closed, OS_enable_failed,
    OS_post in *;
  repeat match goal with H : _ /\ _ |- _ => destruct H end;
  repeat match goal with
         | H : open_failed ?tr = false |- _ =>
             lazymatch goal with
             | _ : enable_failed tr = false |- _ => fail
             | _ => pose proof (enable_failed_open_failed _ H)
             end
         | H : enable_failed ?tr = true |- _ =>
             lazymatch goal with
             | _ : open_failed tr = true |- _ => fail
             | _ => pose proof (enable_failed_is_failure _ H)
             end
         end;
  unfold open_failed, enable_failed in *;
  ao_simpl;
  cbn [existsb is_open_failure is_enable_failure is_open_attempt
       FailTimer.IsDefined FailTimer.Update FailTimer.Reset orb negb fst snd]
    in *;
  rewrite ?ctl_apply_open, ?ctl_apply_fail_timer,
    ?ctl_apply_CloseFilter_events, ?Undefined_IsDefined in *;
  repeat match goal with
         | H : ?b = true |- context [?b] => rewrite H
         | H : ?b = false |- context [?b] => rewrite H
         | H : fail_timer ?s = _ |- context [fail_timer ?s] => rewrite H
         end;
  cbn [orb negb andb FailTimer.IsDefined] in *.

Ltac os_leaf :=
  first [ assumption | reflexivity | congruence | discriminate | bal_solve ].

Ltac os_fin :=
  os_simpl;
  repeat first [ match goal with |- _ /\ _ => split end
               | match goal with |- _ -> _ => intro end ];
  os_leaf.

#[local] Hint Extern 1 (OS_start _) => os_fin : call_db.
#[local] Hint Extern 1 (OS_filters _) => os_fin : call_db.
#[local] Hint Extern 1 (OS_failing _) => os_fin : call_db.
#[local] Hint Extern 1 (OS_closed _) => os_fin : call_db.
#[local] Hint Extern 1 (OS_enable_failed _) => os_fin : call_db.

Lemma lock_OS_start : keepsW (lock env) OS_start.
Proof. intros w Hw. unfold lock, window. wp_auto os_fin. Qed.

Lemma lock_OS_filters : keepsW (lock env) OS_filters.
Proof. intros w Hw. unfold lock, window. wp_auto os_fin. Qed.

Lemma lock_OS_failing : keepsW (lock env) OS_failing.
Proof. intros w Hw. unfold lock, window. wp_auto os_fin. Qed.

Lemma lock_OS_enable_failed : keepsW (lock env) OS_enable_failed.
Proof. intros w Hw. unfold lock, window. wp_auto os_fin. Qed.

Lemma wp_weaken {A} (m : M A) Q E w :
  wp m Q E w -> wp m Q (fun _ => True) w.
Proof. intros H. eapply wp_mono; [ exact H | auto | auto ]. Qed.

Lemma Enable_OS w :
  OS_start w ->
  wp (Enable env) (fun r w' => if r then OS_start w' else OS_post w')
     (fun _ => True) w.
Proof.
  intros Hw. unfold Enable. wp_prim.
  destruct (really_enabled (ao w)); wp_prim; [ exact Hw | ].
  destruct (ao_plugin_enable env (tick w)) eqn:Es.
  - wp_use lock_OS_start; [ os_fin | | auto ].
    wp_prim. assumption.
  - wp_use lock_OS_enable_failed; [ os_fin | | auto ].
    wp_prim. os_fin.
Qed.

Lemma OpenFilter_OS c w :
  OS_start w ->
  wp (OpenFilter env c)
     (fun r w' => if IsDefined r then OS_filters w' else OS_closed w')
     (fun _ => True) w.
Proof.
  intros Hw. unfold OpenFilter, open_fails_if_present, close_if_present,
    Filter_Open.
  destruct c; wp_go; try exact I.
  all: try (rewrite Undefined_IsDefined).
  all: repeat match goal with
         | H : ?b = true |- context [if ?b then _ else _] => rewrite H
         | H : ?b = false |- context [if ?b then _ else _] => rewrite H
         end.
  all: os_fin.
Qed.


Lemma CloseFilter_OS w :
  OS_failing w ->
  wp CloseFilter (fun _ w' => OS_closed w') (fun _ => True) w.
Proof.
  intros Hw. unfold CloseFilter, close_if_present. wp_go; os_fin.
Qed.

Lemma fail_timer_Update_OS w :
  OS_closed w ->
  wp (fail_timer_Update env) (fun _ w' => OS_post w') (fun _ => True) w.
Proof. intros Hw. unfold fail_timer_Update. wp_prim. os_fin. Qed.

Lemma fail_after_filters w :
  OS_failing w ->
  wp CloseFilter
     (fun _ w' => wp (fail_timer_Update env) (fun _ w'' => OS_post w'')
                     (fun _ => True) w')
     (fun _ => True) w.
Proof.
  intros Hw. wp_use CloseFilter_OS; [ exact Hw | | auto ].
  now apply fail_timer_Update_OS.
Qed.

(** [Open], started with an empty trace. *)
Lemma Open_OS s t :
  wp (Open env) (fun _ w' => OS_post w') (fun _ => True) (mk_world s t []).
Proof.
  unfold Open, fail_timer_Reset. wp_go; try exact I.
  wp_use Enable_OS; [ os_fin | | auto ].
  destruct a; wp_prim; [ | assumption ].
  wp_use OpenFilter_OS; [ eassumption | | auto ].
  destruct (IsDefined a) eqn:Ed; wp_prim;
    [ | now apply fail_timer_Update_OS ].
  wp_if; [ | exact I ]. wp_prim.
  match goal with
  | |- context [ao_plugin_open env ?n ?f] =>
      destruct (ao_plugin_open env n f) as [ success f' ] eqn:Eo
  end.
  cbn [fst snd]. destruct success.
  - wp_use lock_OS_filters; [ os_fin | | auto ].
    wp_go; try exact I.
    + os_fin.
    + apply fail_after_filters. os_fin.
  - wp_use lock_OS_failing; [ os_fin | | auto ].
    wp_go; try exact I.
    apply fail_after_filters. assumption.
Qed.


(** [Open] is straight-line code. *)
Lemma fuel_free_bind {A B} (m : M A) (f : A -> M B) :
  fuel_free m -> (forall a, fuel_free (f a)) -> fuel_free (bind m f).
Proof.
  intros Hm Hf w. unfold bind. specialize (Hm w).
  destruct (m w); [ apply Hf | exact I | contradiction ].
Qed.

Lemma fuel_free_prim :
  (forall A (a : A), fuel_free (ret a)) /\
  fuel_free get /\
  (forall f, fuel_free (modify f)) /\
  (forall e, fuel_free (emit e)) /\
  (forall A (q : Env -> nat -> A), fuel_free (ask env q)) /\
  (forall b, fuel_free (assert b)).
Proof.
  repeat split; intros; intro w; cbn; try exact I.
  unfold assert. destruct b; exact I.
Qed.

Ltac fuel_free_auto :=
  repeat first
    [ solve [ auto ]
    | progress unfold close_if_present, open_fails_if_present, Filter_Open,
        call, unlock
    | apply fuel_free_bind; [ | intros ]
    | apply (proj1 fuel_free_prim)
    | apply (proj1 (proj2 fuel_free_prim))
    | apply (proj1 (proj2 (proj2 fuel_free_prim)))
    | apply (proj1 (proj2 (proj2 (proj2 fuel_free_prim))))
    | apply (proj1 (proj2 (proj2 (proj2 (proj2 fuel_free_prim)))))
    | apply (proj2 (proj2 (proj2 (proj2 (proj2 fuel_free_prim)))))
    | match goal with
      | |- fuel_free (if ?b then _ else _) => destruct b
      | |- fuel_free (match ?x with _ => _ end) => destruct x
      end ].

Lemma fuel_free_lock : fuel_free (lock env).
Proof. unfold lock, window. fuel_free_auto. Qed.

Lemma fuel_free_CloseFilter : fuel_free CloseFilter.
Proof. unfold CloseFilter, close_if_present. fuel_free_auto. Qed.

Lemma fuel_free_fail_timer_Update : fuel_free (fail_timer_Update env).
Proof. unfold fail_timer_Update. fuel_free_auto. Qed.

Lemma fuel_free_Enable : fuel_free (Enable env).
Proof.
  pose proof fuel_free_lock.
  unfold Enable, unlock, call. fuel_free_auto.
Qed.

Lemma fuel_free_OpenFilter c : fuel_free (OpenFilter env c).
Proof.
  unfold OpenFilter, open_fails_if_present, close_if_present, Filter_Open,
    call.
  fuel_free_auto.
Qed.

Lemma fuel_free_Open : fuel_free (Open env).
Proof.
  pose proof fuel_free_lock. pose proof fuel_free_CloseFilter.
  pose proof fuel_free_fail_timer_Update. pose proof fuel_free_Enable.
  pose proof fuel_free_OpenFilter.
  unfold Open, fail_timer_Reset, unlock, call. fuel_free_auto.
Qed.

End OpenFailures.

(** ** A play step in which [play] fails *)

Section PlayFailure.

Context {X : Externals}.
Variable env : Env.

(** The output at the start: its filters are those of every state
    that follows. *)
Variable s0 : AudioOutput.

Local Abbreviation NoFail := (NoFail s0).
Local Abbreviation Unfailed := (Unfailed s0).
Local Abbreviation JustFailed := (JustFailed s0).
Local Abbreviation Failed := (Failed s0).
Local Abbreviation FailedOrNot := (FailedOrNot s0).
Local Abbreviation Going := (Going s0).

Lemma ctl_apply_in_playback_loop a s :
  in_playback_loop (ctl_apply a s) = in_playback_loop s.
Proof.
  unfold ctl_apply.
  destruct (ctl_pipe a), (ctl_in_audio_format a), (ctl_allow_play a),
    (ctl_woken_for_play a); reflexivity.
Qed.

Lemma ctl_apply_filter a s : filter (ctl_apply a s) = filter s.
Proof.
  unfold ctl_apply.
  destruct (ctl_pipe a), (ctl_in_audio_format a), (ctl_allow_play a),
    (ctl_woken_for_play a); reflexivity.
Qed.

Lemma ctl_apply_replay_gain_filter a s :
  replay_gain_filter (ctl_apply a s) = replay_gain_filter s.
Proof.
  unfold ctl_apply.
  destruct (ctl_pipe a), (ctl_in_audio_format a), (ctl_allow_play a),
    (ctl_woken_for_play a); reflexivity.
Qed.

Lemma ctl_apply_other_replay_gain_filter a s :
  other_replay_gain_filter (ctl_apply a s) = other_replay_gain_filter s.
Proof.
  unfold ctl_apply.
  destruct (ctl_pipe a), (ctl_in_audio_format a), (ctl_allow_play a),
    (ctl_woken_for_play a); reflexivity.
Qed.

Lemma ctl_apply_convert_filter a s :
  convert_filter (ctl_apply a s) = convert_filter s.
Proof.
  unfold ctl_apply.
  destruct (ctl_pipe a), (ctl_in_audio_format a), (ctl_allow_play a),
    (ctl_woken_for_play a); reflexivity.
Qed.

Lemma same_filters_refl (s : AudioOutput) : same_filters s s.
Proof. repeat split. Qed.

Lemma same_filters_events s :
  same_filters s0 s -> CloseFilter_events s = CloseFilter_events s0.
Proof. intros (H1 & H2 & H3 & _). unfold CloseFilter_events. now rewrite H1, H2, H3. Qed.

Lemma failed_then_closed_cons cf e tr :
  is_failed_play e = false ->
  failed_then_closed cf tr -> failed_then_closed cf (e :: tr).
Proof.
  intros He (later & a2 & a1 & d & size & earlier & -> & Hl).
  exists (e :: later), a2, a1, d, size, earlier.
  repeat split; auto. unfold failed in *. cbn [existsb]. now rewrite He, Hl.
Qed.

Lemma FailedOrNot_Failed ipl w : Failed ipl w -> FailedOrNot ipl w.
Proof. intros H. left. exact H. Qed.

Lemma FailedOrNot_NoFail ipl w : NoFail ipl w -> FailedOrNot ipl w.
Proof. intros H. right. exact H. Qed.

Lemma Going_NoFail ipl w : Going ipl w -> NoFail ipl w.
Proof. intros (H & _). exact H. Qed.

Lemma NoFail_Unfailed ipl w : NoFail ipl w -> Unfailed w.
Proof. intros (H & _ & H'). split; assumption. Qed.

Ltac play_simpl :=
  unfold Going, NoFail, Failed, Unfailed, JustFailed, same_filters,
    failed in *;
  repeat match goal with H : _ /\ _ |- _ => destruct H end;
  ao_simpl;
  cbn [existsb is_failed_play orb] in *;
  rewrite ?ctl_apply_open, ?ctl_apply_fail_timer, ?ctl_apply_current_chunk,
    ?ctl_apply_in_playback_loop, ?ctl_apply_filter,
    ?ctl_apply_replay_gain_filter, ?ctl_apply_other_replay_gain_filter,
    ?ctl_apply_convert_filter in *;
  repeat match goal with
         | H : ?b = true |- context [?b] => rewrite H
         | H : ?b = false |- context [?b] => rewrite H
         end;
  cbn [orb negb andb FailTimer.IsDefined FailTimer.Update] in *.

Ltac play_leaf :=
  first
    [ assumption | reflexivity | congruence | discriminate
    | repeat (apply failed_then_closed_cons; [ reflexivity | ]); assumption
    | destruct_one_cell ]
with destruct_one_cell :=
  match goal with
  | c : SerialCell |- _ => destruct c; first [ assumption | reflexivity ]
  end.

Ltac play_fin :=
  play_simpl;
  repeat match goal with |- _ /\ _ => split end;
  play_leaf.

#[local] Hint Extern 1 (Going _ _) => play_fin : call_db.
#[local] Hint Extern 1 (NoFail _ _) => play_fin : call_db.
#[local] Hint Extern 1 (Failed _ _) => play_fin : call_db.
#[local] Hint Extern 1 (Unfailed _) => play_fin : call_db.

Lemma lock_Going ipl : keepsT (lock env) (Going ipl).
Proof. intros w Hw. unfold lock, window. wp_auto play_fin. Qed.

Lemma lock_NoFail ipl : keepsT (lock env) (NoFail ipl).
Proof. intros w Hw. unfold lock, window. wp_auto play_fin. Qed.

Lemma lock_Failed ipl : keepsT (lock env) (Failed ipl).
Proof. intros w Hw. unfold lock, window. wp_auto play_fin. Qed.

Lemma lock_FailedOrNot ipl : keepsT (lock env) (FailedOrNot ipl).
Proof.
  intros w [ Hw | Hw ].
  - eapply wp_mono; [ apply (@lock_Failed ipl _ Hw) | | auto ].
    intros; now left.
  - eapply wp_mono; [ apply (@lock_NoFail ipl _ Hw) | | auto ].
    intros; now right.
Qed.


#[local] Hint Extern 0 (wp (lock _) _ _ _) => eapply lock_Going : call_db.
#[local] Hint Extern 0 (wp (lock _) _ _ _) => eapply lock_NoFail : call_db.
#[local] Hint Extern 0 (wp (lock _) _ _ _) => eapply lock_Failed : call_db.

Lemma cond_timed_wait_Going ipl d : keepsT (cond_timed_wait env d) (Going ipl).
Proof. intros w Hw. unfold cond_timed_wait, window. wp_auto play_fin. Qed.

Lemma cond_wait_Unfailed : keepsT (cond_wait env) Unfailed.
Proof. intros w Hw. unfold cond_wait, window. wp_auto play_fin. Qed.

Lemma WaitForDelay_Going ipl fuel w :
  Going ipl w ->
  wp (WaitForDelay env fuel) (fun _ w' => Going ipl w') Unfailed w.
Proof.
  revert w. induction fuel as [ | fuel IH ]; intros w Hw; cbn [WaitForDelay].
  - wp_prim. play_fin.
  - wp_go; [ play_fin | ].
    wp_use (@cond_timed_wait_Going ipl); [ play_fin | | contradiction ].
    wp_go; [ | assumption ].
    now apply IH.
Qed.

Lemma failed_app l tr : failed (l ++ tr) = failed l || failed tr.
Proof. unfold failed. apply existsb_app. Qed.

Lemma failed_CloseFilter_events s : failed (CloseFilter_events s) = false.
Proof.
  unfold CloseFilter_events.
  destruct (other_replay_gain_filter s), (replay_gain_filter s); reflexivity.
Qed.

Lemma after_window_fields n s :
  open (after_window env n s) = open s /\
  fail_timer (after_window env n s) = fail_timer s /\
  current_chunk (after_window env n s) = current_chunk s /\
  in_playback_loop (after_window env n s) = in_playback_loop s.
Proof.
  unfold after_window.
  destruct (controller env n); [ destruct (is_NONE (command s)) | ];
    rewrite ?ctl_apply_open, ?ctl_apply_fail_timer, ?ctl_apply_current_chunk,
      ?ctl_apply_in_playback_loop; auto.
Qed.

Lemma after_window_same_filters n s :
  same_filters s0 s -> same_filters s0 (after_window env n s).
Proof.
  intros H. unfold after_window.
  destruct (controller env n); [ destruct (is_NONE (command s)) | ]; auto.
  unfold same_filters in *.
  rewrite ctl_apply_filter, ctl_apply_replay_gain_filter,
    ctl_apply_other_replay_gain_filter, ctl_apply_convert_filter.
  exact H.
Qed.

(** [Close] while playing, before any [play] has failed. *)
Lemma Close_Going ipl drain w :
  Going ipl w ->
  wp (Close env drain) (fun _ w' => NoFail ipl w') (fun _ => False) w.
Proof.
  intros ((Hf & Hi & Hs) & Ho & Ht). unfold wp.
  rewrite Close_run by exact Ho.
  split; [ | split; [ | apply after_window_same_filters; exact Hs ] ];
    cbn [ao trace].
  - change (failed (EvLock
       (window_posted env (tick w)
          (set_open false (set_current_chunk None (set_pipe None (ao w)))))
       :: CloseFilter_events (ao w) ++
          EvPluginClose :: (if drain then EvPluginDrain else EvPluginCancel)
          :: EvUnlock :: trace w) = false).
    unfold failed. cbn [existsb is_failed_play orb].
    fold (failed (CloseFilter_events (ao w) ++
       EvPluginClose :: (if drain then EvPluginDrain else EvPluginCancel)
       :: EvUnlock :: trace w)).
    rewrite failed_app, failed_CloseFilter_events.
    unfold failed. destruct drain; cbn [existsb is_failed_play orb]; exact Hf.
  - destruct (after_window_fields (tick w)
      (set_open false (set_current_chunk None (set_pipe None (ao w)))))
      as (_ & _ & _ & H).
    rewrite H. exact Hi.
Qed.

(** What [PlayChunk] does once [play] has returned 0. *)
Lemma play_failure_tail ipl w :
  JustFailed ipl w ->
  wp (Close env false ;;
      s <- get ;;
      assert (negb (FailTimer.IsDefined (fail_timer s))) ;;
      fail_timer_Update env ;;
      ret false)
     (fun r w' => r = false /\ Failed ipl w') (fun _ => False) w.
Proof.
  intros ((a & d & size & earlier & Htr) & Hi & Ho & Ht & Hs).
  rewrite wp_bind. unfold wp at 1. rewrite Close_run by exact Ho.
  destruct (after_window_fields (tick w)
      (set_open false (set_current_chunk None (set_pipe None (ao w)))))
      as (H1 & H2 & H3 & H4).
  pose proof (after_window_same_filters (tick w)
      (s := set_open false (set_current_chunk None (set_pipe None (ao w))))
      Hs) as H5.
  ao_simpl.
  unfold fail_timer_Update. wp_prim. rewrite H2, Ht. wp_prim.
  split; [ reflexivity | ].
  unfold Failed. ao_simpl. rewrite H1, H3, H4.
  split; [ | repeat split; auto; apply H5 ].
  rewrite Htr, (same_filters_events Hs).
  exists [], (window_posted env (tick w)
      (set_open false (set_current_chunk None (set_pipe None (ao w))))),
    a, d, size, earlier.
  repeat split; auto.
Qed.


Lemma PlayChunk_loop_Going ipl fuel :
  forall d size w,
    Going ipl w ->
    wp (PlayChunk_loop env fuel d size)
       (fun r w' => if r then Going ipl w' else Failed ipl w') Unfailed w.
Proof.
  induction fuel as [ | fuel IH ]; intros d size w Hw; cbn [PlayChunk_loop].
  - wp_prim. play_fin.
  - wp_prim. wp_if; [ | wp_prim; exact Hw ].
    wp_use WaitForDelay_Going; [ exact Hw | | assumption ].
    wp_if; [ | wp_prim; assumption ].
    wp_prim.
    destruct (N.eqb (ao_plugin_play env (tick w') d size) 0) eqn:En.
    + apply N.eqb_eq in En. rewrite En.
      assert (HJ :
        wp (lock env) (fun _ w'' => JustFailed ipl w'') (fun _ => False)
           (mk_world (ao w') (S (tick w'))
              (EvPluginPlay d size 0 :: EvUnlock :: trace w'))).
      { unfold lock, window. wp_go; play_simpl;
          (split; [ repeat eexists | repeat split; assumption ]). }
      wp_use HJ; [ | contradiction ].
      eapply wp_mono; [ apply play_failure_tail; eassumption | | contradiction ].
      cbv beta. intros r w3 (-> & HF). exact HF.
    + wp_use (@lock_Going ipl); [ play_fin | | contradiction ].
      wp_go; try play_fin.
      now apply IH.
Qed.

Lemma ao_chunk_data_Going ipl chunk f cell w :
  Going ipl w ->
  wp (ao_chunk_data env chunk f cell) (fun _ w' => Going ipl w') Unfailed w.
Proof. intros Hw. unfold ao_chunk_data. wp_go; play_fin. Qed.

Lemma ao_filter_chunk_Going ipl chunk w :
  Going ipl w ->
  wp (ao_filter_chunk env chunk) (fun _ w' => Going ipl w') Unfailed w.
Proof.
  intros Hw. unfold ao_filter_chunk, apply_filter_chain. wp_prim.
  wp_use ao_chunk_data_Going; [ exact Hw | | assumption ].
  destruct a as [ [d len] | ]; wp_go; try play_fin.
  wp_use ao_chunk_data_Going; [ eassumption | | assumption ].
  destruct a as [ [od olen] | ]; wp_go; play_fin.
Qed.

Lemma PlayChunk_Going ipl fuel chunk w :
  Going ipl w ->
  wp (PlayChunk env fuel chunk)
     (fun r w' => if r then Going ipl w' else FailedOrNot ipl w') Unfailed w.
Proof.
  intros Hw. unfold PlayChunk. wp_prim.
  assert (HT : wp (match tag (chunk_deref env chunk) with
                   | Some t => if tags (ao w)
                               then unlock ;; emit (EvPluginSendTag t) ;; lock env
                               else ret tt
                   | None => ret tt end)
                  (fun _ w' => Going ipl w') Unfailed w).
  { wp_go; try exact Hw.
    wp_use (@lock_Going ipl); [ play_fin | wp_prim; assumption | contradiction ]. }
  eapply wp_mono; [ exact HT | cbv beta; intros | auto ].
  wp_use ao_filter_chunk_Going; [ eassumption | | assumption ].
  destruct a0 as [ [d size] | ].
  - eapply wp_mono; [ apply PlayChunk_loop_Going; eassumption | | auto ].
    cbv beta. intros [ | ] w3 H3; [ exact H3 | now left ].
  - wp_use Close_Going; [ eassumption | | contradiction ].
    unfold fail_timer_Update. wp_prim. right. play_fin.
Qed.

Lemma Play_loop_Going ipl fuel :
  forall chunk w,
    Going ipl w ->
    wp (Play_loop env fuel chunk) (fun _ w' => FailedOrNot ipl w') Unfailed w.
Proof.
  induction fuel as [ | fuel IH ]; intros chunk w Hw; cbn [Play_loop].
  - wp_prim. play_fin.
  - destruct chunk as [ p | ]; [ | wp_prim; right; play_fin ].
    wp_prim. wp_if; [ | wp_prim; right; play_fin ].
    wp_prim. wp_if; [ play_fin | ].
    wp_use (@PlayChunk_Going ipl fuel p); [ play_fin | | assumption ].
    destruct a; wp_prim.
    + wp_if; [ | play_fin ]. now apply IH.
    + destruct H as [ H | H ].
      * wp_if; [ now left | ].
        destruct H as (_ & _ & _ & _ & Hcc & _). rewrite Hcc in Heqb1.
        discriminate.
      * wp_if; [ now right | play_fin ].
Qed.


Lemma Play_Going fuel w :
  Unfailed w -> open (ao w) = true ->
  FailTimer.IsDefined (fail_timer (ao w)) = false ->
  wp (Play env fuel)
     (fun r w' => if r then FailedOrNot false w' else Unfailed w')
     Unfailed w.
Proof.
  intros Hw Ho Ht. unfold Play, GetNextChunk. wp_prim.
  wp_if; [ exact Hw | ]. wp_prim.
  assert (HL : forall w1 c,
    Going true w1 ->
    wp (Play_loop env fuel c)
       (fun _ w2 =>
          wp (s <- get ;;
              assert (in_playback_loop s) ;;
              modify (set_in_playback_loop false) ;;
              modify (set_current_chunk_finished true) ;;
              unlock ;; emit EvPlayerSignal ;; lock env ;; ret true)
             (fun r w' => if r then FailedOrNot false w' else Unfailed w')
             Unfailed w2)
       Unfailed w1).
  { intros w1 c H1.
    wp_use (@Play_loop_Going true fuel c); [ exact H1 | | assumption ].
    wp_prim. destruct H as [ H | H ].
    - assert (Hi : in_playback_loop (ao w') = true) by (destruct H; tauto).
      rewrite Hi.
      wp_use (@lock_Failed false); [ play_fin | | contradiction ].
      wp_prim. now left.
    - assert (Hi : in_playback_loop (ao w') = true) by (destruct H; tauto).
      rewrite Hi.
      wp_use (@lock_NoFail false); [ play_fin | | contradiction ].
      wp_prim. now right. }
  wp_go; try exact Hw; try play_fin.
  all: try (apply HL; play_fin).
Qed.

Lemma Task_idle_Going fuel w :
  Unfailed w -> fail_timer_invariant (ao w) ->
  wp (Task_idle env fuel)
     (fun _ w' => exists ipl, FailedOrNot ipl w') Unfailed w.
Proof.
  intros Hw Hinv. unfold Task_idle. wp_prim.
  assert (HN : forall w1, Unfailed w1 -> exists ipl, FailedOrNot ipl w1).
  { intros w1 (H1 & H2). exists (in_playback_loop (ao w1)). right.
    repeat split; auto; apply H2. }
  destruct (open (ao w)) eqn:Ho; cbn [andb].
  - destruct (allow_play (ao w)).
    + wp_use Play_Going; [ exact Hw | exact Ho | now apply Hinv | | assumption ].
      destruct a; wp_prim; [ eexists; eassumption | ].
      wp_if; wp_prim; [ | now apply HN ].
      wp_use cond_wait_Unfailed; [ play_fin | now apply HN | contradiction ].
    + wp_prim. wp_if; wp_prim; [ | now apply HN ].
      wp_use cond_wait_Unfailed; [ play_fin | now apply HN | contradiction ].
  - wp_prim. wp_if; wp_prim; [ | now apply HN ].
    wp_use cond_wait_Unfailed; [ play_fin | now apply HN | contradiction ].
Qed.

(** *** The commands do not play

    The [switch] of [Task] makes no [play] call and leaves the filters
    of the output in place. *)

Lemma lock_Unfailed : keepsW (lock env) Unfailed.
Proof. intros w Hw. unfold lock, window. wp_auto play_fin. Qed.

#[local] Hint Extern 0 (wp (lock _) _ _ _) => eapply lock_Unfailed : call_db.

Lemma cond_timed_wait_Unfailed d : keepsW (cond_timed_wait env d) Unfailed.
Proof. intros w Hw. unfold cond_timed_wait, window. wp_auto play_fin. Qed.

#[local] Hint Extern 0 (wp (cond_timed_wait _ _) _ _ _) =>
  eapply cond_timed_wait_Unfailed : call_db.

Lemma close_if_present_Unfailed f : keepsW (close_if_present f) Unfailed.
Proof. intros w Hw. unfold close_if_present. wp_auto play_fin. Qed.

#[local] Hint Extern 0 (wp (close_if_present _) _ _ _) =>
  eapply close_if_present_Unfailed : call_db.

Lemma CloseFilter_Unfailed : keepsW CloseFilter Unfailed.
Proof. intros w Hw. unfold CloseFilter. wp_auto play_fin. Qed.

#[local] Hint Extern 0 (wp CloseFilter _ _ _) =>
  eapply CloseFilter_Unfailed : call_db.

Lemma Filter_Open_Unfailed fl c : keepsW (Filter_Open env fl c) Unfailed.
Proof. intros w Hw. unfold Filter_Open. destruct c; wp_auto play_fin. Qed.

#[local] Hint Extern 0 (wp (Filter_Open _ _ _) _ _ _) =>
  eapply Filter_Open_Unfailed : call_db.

Lemma open_fails_if_present_Unfailed f c :
  keepsW (open_fails_if_present env f c) Unfailed.
Proof. intros w Hw. unfold open_fails_if_present. wp_auto play_fin. Qed.

#[local] Hint Extern 0 (wp (open_fails_if_present _ _ _) _ _ _) =>
  eapply open_fails_if_present_Unfailed : call_db.

Lemma OpenFilter_Unfailed c : keepsW (OpenFilter env c) Unfailed.
Proof. intros w Hw. unfold OpenFilter. wp_auto play_fin. Qed.

#[local] Hint Extern 0 (wp (OpenFilter _ _) _ _ _) =>
  eapply OpenFilter_Unfailed : call_db.

Lemma fail_timer_Update_Unfailed : keepsW (fail_timer_Update env) Unfailed.
Proof. intros w Hw. unfold fail_timer_Update. wp_auto play_fin. Qed.

#[local] Hint Extern 0 (wp (fail_timer_Update _) _ _ _) =>
  eapply fail_timer_Update_Unfailed : call_db.

Lemma Enable_Unfailed : keepsW (Enable env) Unfailed.
Proof. intros w Hw. unfold Enable. wp_auto play_fin. Qed.

#[local] Hint Extern 0 (wp (Enable _) _ _ _) =>
  eapply Enable_Unfailed : call_db.

Lemma Open_Unfailed : keepsW (Open env) Unfailed.
Proof. intros w Hw. unfold Open, fail_timer_Reset. wp_auto play_fin. Qed.

#[local] Hint Extern 0 (wp (Open _) _ _ _) => eapply Open_Unfailed : call_db.

Lemma Close_Unfailed drain : keepsW (Close env drain) Unfailed.
Proof. intros w Hw. unfold Close. wp_auto play_fin. Qed.

#[local] Hint Extern 0 (wp (Close _ _) _ _ _) =>
  eapply Close_Unfailed : call_db.

Lemma Disable_Unfailed : keepsW (Disable env) Unfailed.
Proof. intros w Hw. unfold Disable. wp_auto play_fin. Qed.

#[local] Hint Extern 0 (wp (Disable _) _ _ _) =>
  eapply Disable_Unfailed : call_db.

Lemma ReopenFilter_Unfailed : keepsW (ReopenFilter env) Unfailed.
Proof. intros w Hw. unfold ReopenFilter. wp_auto play_fin. Qed.

#[local] Hint Extern 0 (wp (ReopenFilter _) _ _ _) =>
  eapply ReopenFilter_Unfailed : call_db.

Lemma Reopen_Unfailed : keepsW (Reopen env) Unfailed.
Proof. intros w Hw. unfold Reopen. wp_auto play_fin. Qed.

#[local] Hint Extern 0 (wp (Reopen _) _ _ _) =>
  eapply Reopen_Unfailed : call_db.

Lemma CommandFinished_Unfailed : keepsW (CommandFinished env) Unfailed.
Proof. intros w Hw. unfold CommandFinished. wp_auto play_fin. Qed.

#[local] Hint Extern 0 (wp (CommandFinished _) _ _ _) =>
  eapply CommandFinished_Unfailed : call_db.

Lemma WaitForDelay_Unfailed fuel : keepsW (WaitForDelay env fuel) Unfailed.
Proof.
  induction fuel as [ | fuel IH ]; intros w Hw; cbn [WaitForDelay].
  - exact Hw.
  - wp_auto play_fin; try (apply IH; play_fin).
Qed.

#[local] Hint Extern 0 (wp (WaitForDelay _ _) _ _ _) =>
  eapply WaitForDelay_Unfailed : call_db.

Lemma Pause_loop_Unfailed fuel : keepsW (Pause_loop env fuel) Unfailed.
Proof.
  induction fuel as [ | fuel IH ]; intros w Hw; cbn [Pause_loop].
  - exact Hw.
  - wp_auto play_fin; try (apply IH; play_fin).
Qed.

#[local] Hint Extern 0 (wp (Pause_loop _ _) _ _ _) =>
  eapply Pause_loop_Unfailed : call_db.

Lemma Pause_Unfailed fuel : keepsW (Pause env fuel) Unfailed.
Proof. intros w Hw. unfold Pause. wp_auto play_fin. Qed.

#[local] Hint Extern 0 (wp (Pause _ _) _ _ _) =>
  eapply Pause_Unfailed : call_db.

Lemma Task_switch_Unfailed fuel : keepsW (Task_switch env fuel) Unfailed.
Proof.
  intros w Hw. unfold Task_switch. wp_prim.
  destruct (command (ao w)) eqn:Ec; wp_auto play_fin.
Qed.

Lemma wp_both {A} (m : M A) Q1 Q2 E1 E2 w :
  wp m Q1 E1 w -> wp m Q2 E2 w ->
  wp m (fun a w' => Q1 a w' /\ Q2 a w') (fun w' => E1 w' /\ E2 w') w.
Proof. unfold wp. destruct (m w); auto. Qed.

(** The [switch] keeps the fail timer invariant as well. *)
Lemma Task_switch_steady fuel w :
  Unfailed w -> fail_timer_invariant (ao w) ->
  wp (Task_switch env fuel)
     (fun _ w' => Unfailed w' /\ fail_timer_invariant (ao w'))
     Unfailed w.
Proof.
  intros Hw Hinv.
  assert (Hc : false = true -> controller_formats_valid env) by discriminate.
  assert (Hf : false = true -> filter_inputs_valid env) by discriminate.
  pose proof (@Task_switch_Inv _ env false true Hc Hf fuel w) as HI.
  assert (H0 : Inv false true (ao w)) by (split; [ discriminate | auto ]).
  specialize (HI H0).
  eapply wp_mono;
    [ exact (@wp_both _ _ _ _ _ _ _ (@Task_switch_Unfailed fuel w Hw) HI)
    | cbv beta | cbv beta ].
  - intros _ w' (H1 & H2 & H3). split; [ exact H1 | now apply H3 ].
  - intros w' (H1 & _). exact H1.
Qed.

(** One pass through the loop of [Task], whatever command it starts
    with: if a [play] fails in it, the pass ends closed and goes round
    again. *)
Lemma Task_iteration_Going fuel w :
  Unfailed w -> fail_timer_invariant (ao w) ->
  wp (Task_iteration env fuel)
     (fun c w' =>
        (exists ipl, FailedOrNot ipl w') /\
        (failed (trace w') = true -> c = LoopAgain))
     Unfailed w.
Proof.
  intros Hw Hinv. unfold Task_iteration.
  wp_use Task_switch_steady; [ exact Hw | exact Hinv | | assumption ].
  destruct H as (Hu & Hi).
  assert (HN : forall c, (exists ipl, FailedOrNot ipl w') /\
                         (failed (trace w') = true -> c = LoopAgain)).
  { intros c. destruct Hu as (H1 & H2). split.
    - exists (in_playback_loop (ao w')). right. repeat split; auto; apply H2.
    - intros H. congruence. }
  destruct a; wp_prim; try apply HN.
  wp_use Task_idle_Going; [ exact Hu | exact Hi | | assumption ].
  wp_prim. split; [ assumption | reflexivity ].
Qed.

(** A result in which a [play] has failed is a regular return. *)
Lemma failed_run {A} (m : M A) (Q : A -> World -> Prop) w :
  wp m Q Unfailed w ->
  failed (trace (final (m w))) = true ->
  exists a w', m w = Ok a w' /\ Q a w'.
Proof.
  unfold wp, Unfailed. destruct (m w); cbn [final]; intros H Hf;
    [ eauto | destruct H; congruence | destruct H; congruence ].
Qed.

Lemma wp_any {A} (m : M A) (Q : A -> World -> Prop) w :
  (forall a w', Q a w') -> wp m Q (fun _ => True) w.
Proof. intros H. unfold wp. destruct (m w); auto. Qed.

(** Only KILL lets the loop of [Task] return. *)
Lemma Task_switch_return fuel w :
  wp (Task_switch env fuel)
     (fun sw _ => sw = SwReturn -> command (ao w) = AO_COMMAND_KILL)
     (fun _ => True) w.
Proof.
  unfold Task_switch. wp_prim.
  destruct (command (ao w)); try wp_if;
    repeat first [ rewrite wp_bind | rewrite wp_ret | rewrite wp_assert
                 | match goal with
                   | |- if ?b then _ else _ => destruct b
                   end
                 | exact I
                 | discriminate
                 | reflexivity
                 | apply wp_any; intros ].
Qed.

Lemma Task_iteration_return fuel w w' :
  Task_iteration env fuel w = Ok LoopReturn w' ->
  command (ao w) = AO_COMMAND_KILL /\
  Task_switch env fuel w = Ok SwReturn w'.
Proof.
  intros H. pose proof (Task_switch_return fuel w) as Hs.
  unfold Task_iteration, bind in H. unfold wp in Hs.
  destruct (Task_switch env fuel w) as [ sw w1 | | ]; try discriminate.
  destruct sw; [ | discriminate | ].
  - destruct (Task_idle env fuel w1); discriminate.
  - injection H as <-. split; [ now apply Hs | reflexivity ].
Qed.

(** The loop of [Task] returns only from the pass that carries out
    KILL. *)
Lemma Task_loop_return fuel :
  forall w w',
    Task_loop env fuel w = Ok tt w' ->
    exists fuel1 w1,
      command (ao w1) = AO_COMMAND_KILL /\
      Task_switch env fuel1 w1 = Ok SwReturn w'.
Proof.
  induction fuel as [ | fuel IH ]; intros w w' H; cbn [Task_loop] in H.
  - discriminate.
  - unfold bind in H.
    destruct (Task_iteration env fuel w) as [ c w1 | | ] eqn:E;
      try discriminate.
    destruct c.
    + exact (IH _ _ H).
    + injection H as <-. exists fuel, w.
      exact (Task_iteration_return _ _ E).
Qed.

End PlayFailure.

(** ** The claims about the invariants and the command order *)

Section Claims.

Context {X : Externals}.
Variable env : Env.

Lemma Inv_open_invariant s : Inv true false s <-> open_invariant s.
Proof.
  unfold Inv. split; [ intros (H & _); auto | intros H; split; [ auto | discriminate ] ].
Qed.

Lemma Inv_fail_timer_invariant s : Inv false true s <-> fail_timer_invariant s.
Proof.
  unfold Inv. split; [ intros (_ & H); auto | intros H; split; [ discriminate | auto ] ].
Qed.

(** Every method keeps the pair of invariants selected by [c1], [c9]. *)
Lemma Inv_all_methods c1 c9 :
  (c1 = true -> controller_formats_valid env) ->
  (c1 = true -> filter_inputs_valid env) ->
  forall w, Inv c1 c9 (ao w) ->
    Inv c1 c9 (ao (final (Open env w))) /\
    (forall drain, Inv c1 c9 (ao (final (Close env drain w)))) /\
    Inv c1 c9 (ao (final (Reopen env w))) /\
    Inv c1 c9 (ao (final (Disable env w))) /\
    (forall fuel, Inv c1 c9 (ao (final (Play env fuel w)))) /\
    (forall fuel, Inv c1 c9 (ao (final (Task_iteration env fuel w)))) /\
    (forall fuel, Inv c1 c9 (ao (final (Task env fuel w)))).
Proof.
  intros Hctl Hflt w Hw.
  split; [ | split; [ | split; [ | split; [ | split; [ | split ] ] ] ] ].
  - eapply wp_final_ao; [ eapply Open_Inv; eauto | auto ].
  - intros drain.
    eapply wp_final_ao with (Q := fun s => Inv c1 c9 s \/ Closed s).
    + eapply wp_mono; [ eapply (@Close_Closed _ env (Inv c1 c9)); eauto | | ].
      * cbv beta; intros; right; assumption.
      * cbv beta; intros. eapply on_ao_or. exact H.
    + intros s [ H | H ]; [ exact H | now apply Closed_Inv ].
  - apply keeps_final; [ now apply Reopen_Inv | exact Hw ].
  - eapply wp_final_ao; [ eapply Disable_Closed; eauto | ].
    intros s; apply Closed_Inv.
  - intros fuel. apply keeps_final; [ now apply Play_Inv | exact Hw ].
  - intros fuel. apply keeps_final; [ now apply Task_iteration_Inv | exact Hw ].
  - intros fuel. apply keeps_final; [ now apply Task_Inv | exact Hw ].
Qed.

(** C1.  In every state the worker reaches, [open] implies
    [really_enabled], a non-null [pipe] and a valid [in_audio_format]:
    from any state with this property, each of [Open], [Close],
    [Reopen], [Disable], the play step [Play], one pass of the loop of
    [Task] and [Task] itself end (or stop early) in a state that has it
    again, whatever the device and the controller do and whatever the
    filters answer, as long as the two parties that write
    [in_audio_format] besides the worker write valid formats only: the
    controller, and the filters, which are handed [in_audio_format] by
    reference when they are opened. *)
Theorem open_invariant_preserved :
  controller_formats_valid env ->
  filter_inputs_valid env ->
  forall w, open_invariant (ao w) ->
    open_invariant (ao (final (Open env w))) /\
    (forall drain, open_invariant (ao (final (Close env drain w)))) /\
    open_invariant (ao (final (Reopen env w))) /\
    open_invariant (ao (final (Disable env w))) /\
    (forall fuel, open_invariant (ao (final (Play env fuel w)))) /\
    (forall fuel, open_invariant (ao (final (Task_iteration env fuel w)))) /\
    (forall fuel, open_invariant (ao (final (Task env fuel w)))).
Proof.
  intros Hctl Hflt w Hw.
  assert (H := @Inv_all_methods true false (fun _ => Hctl) (fun _ => Hflt) w
                 (proj2 (Inv_open_invariant _) Hw)).
  destruct H as (H1 & H2 & H3 & H4 & H5 & H6 & H7).
  split; [ | split; [ | split; [ | split; [ | split; [ | split ] ] ] ] ];
    intros; apply (proj1 (Inv_open_invariant _)); auto.
Qed.

(** C9.  In every state the worker reaches, [open] implies that the
    fail timer is not defined: from any state with this property, each
    of [Open], [Close], [Reopen], [Disable], [Play], one pass of the
    loop of [Task] and [Task] itself end (or stop early) in a state
    that has it again. *)
Theorem fail_timer_invariant_preserved :
  forall w, fail_timer_invariant (ao w) ->
    fail_timer_invariant (ao (final (Open env w))) /\
    (forall drain, fail_timer_invariant (ao (final (Close env drain w)))) /\
    fail_timer_invariant (ao (final (Reopen env w))) /\
    fail_timer_invariant (ao (final (Disable env w))) /\
    (forall fuel, fail_timer_invariant (ao (final (Play env fuel w)))) /\
    (forall fuel,
        fail_timer_invariant (ao (final (Task_iteration env fuel w)))) /\
    (forall fuel, fail_timer_invariant (ao (final (Task env fuel w)))).
Proof.
  intros w Hw.
  assert (Hc : false = true -> controller_formats_valid env) by discriminate.
  assert (Hf : false = true -> filter_inputs_valid env) by discriminate.
  assert (H := @Inv_all_methods false true Hc Hf w
                 (proj2 (Inv_fail_timer_invariant _) Hw)).
  destruct H as (H1 & H2 & H3 & H4 & H5 & H6 & H7).
  split; [ | split; [ | split; [ | split; [ | split; [ | split ] ] ] ] ];
    intros; apply (proj1 (Inv_fail_timer_invariant _)); auto.
Qed.


Lemma lock_pending_frame cc dl : keepsW (lock env) (pending_frame cc dl).
Proof.
  intros w (Hc & Hcc & Hd). unfold lock, window. wp_prim.
  rewrite Hc. destruct (controller env (tick w)); wp_prim;
    repeat split; auto.
Qed.

(** [Play] entered while a command is pending takes no chunk. *)
Lemma Play_pending_frame fuel cc dl :
  keepsW (Play env fuel) (pending_frame cc dl).
Proof.
  intros w Hw. pose proof Hw as (Hc & Hcc & Hd).
  unfold Play, GetNextChunk. wp_go; try exact Hw.
  all: try (unfold pending_frame; cbn; auto; fail).
  all: destruct fuel as [ | fuel ]; cbn [Play_loop]; wp_prim;
    try (unfold pending_frame; cbn; auto; fail).
  all: cbn [command set_in_playback_loop set_current_chunk_finished];
    rewrite Hc; wp_go; try (unfold pending_frame; cbn; auto; fail).
  all: wp_use (@lock_pending_frame cc dl);
    [ unfold pending_frame; cbn; auto | wp_prim; auto | auto ].
Qed.



(** C8.  A PAUSE command that finds the output closed is acknowledged
    at once: the worker empties the command slot, releases the mutex,
    signals the client and takes the mutex back, and leaves the
    [switch] by [break].  It calls neither the device nor a filter,
    and the object differs from the one before only in [command] (and
    in what the controller writes while the mutex is free). *)
Theorem pause_while_closed fuel w :
  command (ao w) = AO_COMMAND_PAUSE -> open (ao w) = false ->
  Task_switch env fuel w =
    Ok SwBreak
       (mk_world
          (after_window env (tick w) (set_command AO_COMMAND_NONE (ao w)))
          (S (tick w))
          (EvLock (window_posted env (tick w)
                     (set_command AO_COMMAND_NONE (ao w)))
             :: EvClientNotify :: EvUnlock :: trace w)) /\
  (controller env (tick w) = None ->
   ao (final (Task_switch env fuel w)) = set_command AO_COMMAND_NONE (ao w)).
Proof.
  intros Hc Ho.
  assert (Hn : is_NONE (command (ao w)) = false) by (rewrite Hc; reflexivity).
  assert (E : Task_switch env fuel w =
              (CommandFinished env ;; ret SwBreak) w).
  { unfold Task_switch. unfold bind at 1. unfold get at 1.
    rewrite Hc, Ho. reflexivity. }
  rewrite E. erewrite bind_Ok; [ | apply CommandFinished_run; exact Hn ].
  split; [ reflexivity | ].
  intros Hq. cbn [final ao]. unfold after_window. now rewrite Hq.
Qed.

(** C10.  KILL ends the worker without closing the device: the worker
    clears [current_chunk], acknowledges, releases the mutex and
    returns.  No [close], [drain] or [cancel] reaches the device, no
    filter is closed, [open] is what it was, and the worker does not
    write [pipe]. *)
Theorem kill_leaves_device_open fuel w :
  command (ao w) = AO_COMMAND_KILL ->
  let s' := after_window env (tick w)
              (set_command AO_COMMAND_NONE
                 (set_current_chunk None (ao w))) in
  let w' := mk_world s' (S (tick w))
              (EvUnlock ::
               EvLock (window_posted env (tick w)
                         (set_command AO_COMMAND_NONE
                            (set_current_chunk None (ao w))))
               :: EvClientNotify :: EvUnlock :: trace w) in
  Task_switch env fuel w = Ok SwReturn w' /\
  Task_iteration env fuel w = Ok LoopReturn w' /\
  Task_loop env (S fuel) w = Ok tt w' /\
  current_chunk s' = None /\
  open s' = open (ao w) /\
  ((forall a mp, controller env (tick w) = Some a -> ctl_pipe a <> Some mp) ->
   pipe s' = pipe (ao w)).
Proof.
  intros Hc s' w'.
  assert (E : Task_switch env fuel w = Ok SwReturn w').
  { unfold Task_switch. unfold bind at 1. unfold get at 1. rewrite Hc.
    unfold bind at 1. unfold modify at 1.
    erewrite bind_Ok;
      [ | apply CommandFinished_run; cbn; rewrite Hc; reflexivity ].
    reflexivity. }
  assert (E2 : Task_iteration env fuel w = Ok LoopReturn w').
  { unfold Task_iteration, bind. rewrite E. reflexivity. }
  split; [ exact E | split; [ exact E2 | split ] ].
  - cbn [Task_loop]. unfold bind. rewrite E2. reflexivity.
  - split; [ | split ].
    + subst s'. unfold after_window.
      destruct (controller env (tick w)); cbn [is_NONE command set_command];
        [ rewrite ctl_apply_current_chunk | ]; reflexivity.
    + subst s'. unfold after_window.
      destruct (controller env (tick w)); cbn [is_NONE command set_command];
        [ rewrite ctl_apply_open | ]; reflexivity.
    + intros Hp. subst s'. unfold after_window.
      destruct (controller env (tick w)) as [ a | ] eqn:Ea;
        cbn [is_NONE command set_command]; [ | reflexivity ].
      unfold ctl_apply.
      destruct (ctl_pipe a) as [ mp | ] eqn:Ep;
        [ exfalso; exact (Hp a mp eq_refl Ep) | ].
      destruct (ctl_in_audio_format a), (ctl_allow_play a),
        (ctl_woken_for_play a); reflexivity.
Qed.


Lemma clamp_is_min len other_length :
  (if N.ltb other_length len then other_length else len)
  = N.min len other_length.
Proof.
  destruct (N.ltb_spec other_length len); [ rewrite N.min_r | rewrite N.min_l ];
    auto; lia.
Qed.

(** C3.  Cross-fade.  When a chunk has an [other] chunk and both
    [ao_chunk_data] results have non-zero length, [ao_filter_chunk]
    copies the first [other_length] bytes of [other_data] into the
    cross-fade buffer and calls [pcm_mix] on that buffer with the
    primary data, the length [min length other_length] and the weight
    [1 - mix_ratio].  If the mix succeeds, the filter chain is called
    with the mixed buffer and the length [other_length], and its
    answer is the result; if the mix fails the result is null and the
    filter chain is not called. *)
Theorem cross_fade_lengths chunk other_chunk w d len w1 other_data
    other_length w2 :
  other (chunk_deref env chunk) = Some other_chunk ->
  ao_chunk_data env chunk (replay_gain_filter (ao w)) PrimarySerial w
    = Ok (Some (d, len)) w1 ->
  len <> 0%N ->
  ao_chunk_data env other_chunk (other_replay_gain_filter (ao w1))
    OtherSerial w1 = Ok (Some (other_data, other_length)) w2 ->
  other_length <> 0%N ->
  let dest := firstn (N.to_nat other_length) other_data in
  let sf := format (in_audio_format (ao w2)) in
  let portion := one_minus (mix_ratio (chunk_deref env chunk)) in
  let mixed :=
    pcm_mix env (tick w2) dest d (N.min len other_length) sf portion in
  let mix_event :=
    EvPcmMix dest d (N.min len other_length) sf portion mixed in
  ao_filter_chunk env chunk w =
  match mixed with
  | None =>
      Ok None (mk_world (set_cross_fade_buffer dest (ao w2))
                        (S (tick w2)) (mix_event :: trace w2))
  | Some dest' =>
      let r := filter_FilterPCM env (S (tick w2)) (filter (ao w2))
                 dest' other_length in
      Ok r (mk_world (set_cross_fade_buffer dest' (ao w2))
                     (S (S (tick w2)))
                     (EvFilterPCM (filter (ao w2)) dest' other_length r
                        :: mix_event :: trace w2))
  end.
Proof.
  intros Ho H1 Hlen H2 Holen dest sf portion mixed mix_event.
  unfold ao_filter_chunk.
  unfold bind at 1. unfold get at 1.
  unfold bind at 1. rewrite H1.
  apply N.eqb_neq in Hlen. rewrite Hlen. rewrite Ho.
  unfold bind at 1. unfold get at 1.
  unfold bind at 1. rewrite H2.
  apply N.eqb_neq in Holen. rewrite Holen.
  rewrite clamp_is_min.
  subst mix_event mixed portion sf dest.
  unfold apply_filter_chain, call.
  unfold bind, modify, get, ask, emit, ret.
  cbn [ao tick trace in_audio_format set_cross_fade_buffer filter].
  destruct (pcm_mix env (tick w2) (firstn (N.to_nat other_length) other_data) d
              (N.min len other_length) (format (in_audio_format (ao w2)))
              (one_minus (mix_ratio (chunk_deref env chunk)))); reflexivity.
Qed.



Lemma Reopen_run w :
  is_NONE (command (ao w)) = false ->
  open (ao w) = true ->
  IsFullyDefined (config_audio_format (ao w)) = false ->
  Close env true w =
    Ok tt (mk_world
             (set_open false (set_current_chunk None (set_pipe None (ao w))))
             (S (tick w)) (drain_close_events (ao w) (trace w))) /\
  Reopen env w =
    Open env (mk_world (closed_for_reopen (ao w)) (S (tick w))
                (drain_close_events (ao w) (trace w))).
Proof.
  intros Hc Ho Hf.
  assert (E : Close env true w =
    Ok tt (mk_world
             (set_open false (set_current_chunk None (set_pipe None (ao w))))
             (S (tick w)) (drain_close_events (ao w) (trace w)))).
  { rewrite Close_run by exact Ho.
    unfold after_window, window_posted, drain_close_events. ao_simpl.
    rewrite Hc. destruct (controller env (tick w)); reflexivity. }
  split; [ exact E | ].
  unfold Reopen. unfold bind at 1. unfold get at 1.
  rewrite Hf, Ho. cbn [negb].
  unfold bind at 1. unfold bind at 1. unfold bind at 1. rewrite E.
  unfold modify, bind, get. ao_simpl. reflexivity.
Qed.

(** C7.  A REOPEN command that finds the output open while no audio
    format is fully configured makes the worker close the device
    first, with [drain] (not [cancel]), and then open it again; the
    worker keeps the pipe in a local variable across that close and
    puts it back, so that [pipe] holds after the command, however it
    ends, what it held before.  From a state that satisfies the
    invariant of the open output, and with filters that answer valid
    formats, the command does come to its end. *)
Theorem reopen_preserves_pipe w :
  command (ao w) = AO_COMMAND_REOPEN ->
  open (ao w) = true ->
  IsFullyDefined (config_audio_format (ao w)) = false ->
  Close env true w =
    Ok tt (mk_world
             (set_open false (set_current_chunk None (set_pipe None (ao w))))
             (S (tick w)) (drain_close_events (ao w) (trace w))) /\
  Reopen env w =
    Open env (mk_world (closed_for_reopen (ao w)) (S (tick w))
                (drain_close_events (ao w) (trace w))) /\
  pipe (ao (final (Reopen env w))) = pipe (ao w) /\
  extends (drain_close_events (ao w) (trace w))
          (trace (final (Reopen env w))) /\
  (open_invariant (ao w) -> filter_formats_valid env ->
   exists w', Reopen env w = Ok tt w').
Proof.
  intros Hc Ho Hf.
  assert (Hn : is_NONE (command (ao w)) = false) by (rewrite Hc; reflexivity).
  destruct (Reopen_run w Hn Ho Hf) as (E1 & E2).
  set (base := drain_close_events (ao w) (trace w)) in *.
  set (w2 := mk_world (closed_for_reopen (ao w)) (S (tick w)) base) in *.
  assert (HF : command_frame (pipe (ao w)) base w2).
  { unfold command_frame, w2, closed_for_reopen. ao_simpl.
    repeat split; auto. apply extends_refl. }
  split; [ exact E1 | split; [ exact E2 | ] ].
  rewrite E2.
  assert (HF2 := HF).
  apply keepsW_final with (m := Open env) in HF2; [ | apply Open_CF ].
  destruct HF2 as (_ & Hp & He).
  split; [ exact Hp | split; [ exact He | ] ].
  intros Hinv Hff. destruct (Hinv Ho) as (Hre & Hpipe & Hvalid).
  assert (HR : reopen_ready (pipe (ao w)) base w2).
  { split; [ exact HF | ]. unfold w2, closed_for_reopen. ao_simpl.
    repeat split; auto. }
  pose proof (@Open_RR _ env (pipe (ao w)) base Hff w2 HR) as H.
  unfold wp in H. destruct (Open env w2) as [ [] w' | | ];
    [ exists w'; reflexivity | contradiction | contradiction ].
Qed.


(** C4.  [Open] is straight-line code and returns unless
    an assertion fails.  When it returns, [open] is set exactly if no
    step has failed.  If a step has failed, every filter that was
    opened has been closed again, and the fail timer has been updated
    unless the step that failed was [Enable]; in that case nothing
    else has been attempted and the fail timer is left reset. *)
Theorem open_failure_handling s t :
  (forall w', Open env (mk_world s t []) <> OutOfFuel w') /\
  (forall w',
     Open env (mk_world s t []) = Ok tt w' ->
     open (ao w') = negb (open_failed (trace w')) /\
     (open_failed (trace w') = true ->
      (forall f, filter_balance f (trace w') = 0%Z) /\
      FailTimer.IsDefined (fail_timer (ao w'))
        = negb (enable_failed (trace w')) /\
      (enable_failed (trace w') = true ->
       existsb is_open_attempt (trace w') = false))).
Proof.
  split.
  - intros w' E. pose proof (@fuel_free_Open _ env (mk_world s t [])) as H.
    rewrite E in H. exact H.
  - intros w' E. pose proof (@Open_OS _ env s t) as H.
    unfold wp in H. rewrite E in H. exact H.
Qed.

Lemma cell_set_in_audio_format cell v s :
  in_audio_format (cell_set cell v s) = in_audio_format s.
Proof. destruct cell; reflexivity. Qed.

Lemma cell_get_set cell v s : cell_get cell (cell_set cell v s) = v.
Proof. destruct cell; reflexivity. Qed.

(** One call of [ao_chunk_data] on a chunk that passes its assertions. *)
Lemma ao_chunk_data_accepted p rg cell w :
  chunk_accepted env (ao w) p = true ->
  exists r w',
    ao_chunk_data env p rg cell w = Ok r w' /\
    in_audio_format (ao w') = in_audio_format (ao w) /\
    set_info_calls (trace w') =
      set_info_calls (trace w) ++
      set_info_expected env rg (cell_get cell (ao w)) [p] /\
    cell_get cell (ao w') =
      match rg with
      | Some _ =>
          if N.ltb 0 (length (chunk_deref env p))
          then chunk_replay_gain_serial (chunk_deref env p)
          else cell_get cell (ao w)
      | None => cell_get cell (ao w)
      end.
Proof.
  intros Ha. unfold chunk_accepted in Ha.
  apply andb_prop in Ha. destruct Ha as (Ha & H3).
  apply andb_prop in Ha. destruct Ha as (H1 & H2).
  unfold ao_chunk_data, call.
  unfold bind at 1. unfold get at 1.
  unfold bind at 1. unfold assert at 1. rewrite H1.
  unfold bind at 1. unfold assert at 1. rewrite H2.
  unfold bind at 1. unfold assert at 1. rewrite H3.
  cbn [set_info_expected].
  destruct rg as [ f | ].
  - destruct (N.ltb 0 (length (chunk_deref env p))) eqn:El; cbn [andb].
    + destruct (N.eqb (chunk_replay_gain_serial (chunk_deref env p))
                  (cell_get cell (ao w))) eqn:Es; cbn [negb].
      * unfold bind, ret, ask, emit. cbn [ao tick trace].
        do 2 eexists. split; [ reflexivity | ]. cbn [ao trace set_info_calls].
        rewrite app_nil_r. repeat split; auto.
        apply N.eqb_eq in Es. congruence.
      * unfold bind, ret, ask, emit, modify. cbn [ao tick trace].
        do 2 eexists. split; [ reflexivity | ]. cbn [ao trace set_info_calls].
        rewrite cell_set_in_audio_format, cell_get_set. repeat split; auto.
    + unfold ret. do 2 eexists. split; [ reflexivity | ].
      rewrite app_nil_r. repeat split; auto.
  - unfold ret. do 2 eexists. split; [ reflexivity | ].
    rewrite app_nil_r. repeat split; auto.
Qed.

Lemma chunk_accepted_format s s' p :
  in_audio_format s' = in_audio_format s ->
  chunk_accepted env s' p = chunk_accepted env s p.
Proof. intros H. unfold chunk_accepted. now rewrite H. Qed.

Lemma set_info_expected_cons rg last p rest :
  set_info_expected env rg last (p :: rest) =
  set_info_expected env rg last [p] ++
  set_info_expected env rg
    (match rg with
     | Some _ =>
         if N.ltb 0 (length (chunk_deref env p))
         then chunk_replay_gain_serial (chunk_deref env p)
         else last
     | None => last
     end) rest.
Proof.
  cbn [set_info_expected]. destruct rg as [ f | ]; [ | reflexivity ].
  destruct (N.ltb 0 (length (chunk_deref env p))); cbn [andb]; [ | reflexivity ].
  destruct (N.eqb (chunk_replay_gain_serial (chunk_deref env p)) last) eqn:E;
    cbn [negb app]; [ | reflexivity ].
  apply N.eqb_eq in E. now rewrite E.
Qed.

Lemma chunk_data_run_accepted chunks rg cell :
  forall w,
    forallb (chunk_accepted env (ao w)) chunks = true ->
    exists w',
      chunk_data_run env chunks rg cell w = Ok tt w' /\
      set_info_calls (trace w') =
        set_info_calls (trace w) ++
        set_info_expected env rg (cell_get cell (ao w)) chunks.
Proof.
  induction chunks as [ | p rest IH ]; intros w Ha.
  - exists w. split; [ reflexivity | ]. cbn. now rewrite app_nil_r.
  - cbn [forallb] in Ha. apply andb_prop in Ha. destruct Ha as (Hp & Hr).
    destruct (ao_chunk_data_accepted p rg cell w Hp)
      as (r & w1 & E1 & Hf & Hs & Hc).
    assert (Hr1 : forallb (chunk_accepted env (ao w1)) rest = true).
    { rewrite <- Hr. clear - Hf. induction rest as [ | q rest IHr ];
        [ reflexivity | ].
      cbn [forallb]. rewrite IHr. f_equal.
      now apply chunk_accepted_format. }
    destruct (IH w1 Hr1) as (w2 & E2 & Hs2).
    exists w2. split.
    + cbn [chunk_data_run]. unfold bind. rewrite E1. exact E2.
    + rewrite Hs2, Hs, Hc, <- app_assoc. f_equal.
      symmetry. apply set_info_expected_cons.
Qed.

(** C6.  Over a run of chunks that pass the assertions of
    [ao_chunk_data], the replay gain filter gets one [set_info] call
    for each chunk of non-zero length whose serial differs from the
    serial applied last (the one in the serial cell), with a null info
    when the serial is zero, and no other; a chunk of zero length
    causes no call and leaves the cell alone.  Two chunks of non-zero
    length in a row with the same serial cause one call if that
    serial is not the one in the cell, and none if it is. *)
Theorem set_info_on_serial_change chunks rg cell w :
  forallb (chunk_accepted env (ao w)) chunks = true ->
  (exists w',
     chunk_data_run env chunks rg cell w = Ok tt w' /\
     set_info_calls (trace w') =
       set_info_calls (trace w) ++
       set_info_expected env rg (cell_get cell (ao w)) chunks) /\
  (forall f p1 p2,
     chunks = [p1; p2] -> rg = Some f ->
     N.ltb 0 (length (chunk_deref env p1)) = true ->
     N.ltb 0 (length (chunk_deref env p2)) = true ->
     chunk_replay_gain_serial (chunk_deref env p1) =
     chunk_replay_gain_serial (chunk_deref env p2) ->
     List.length (set_info_expected env rg (cell_get cell (ao w)) chunks) =
       if N.eqb (chunk_replay_gain_serial (chunk_deref env p1))
                (cell_get cell (ao w))
       then 0 else 1).
Proof.
  intros Ha. split; [ now apply chunk_data_run_accepted | ].
  intros f p1 p2 -> -> H1 H2 Hs.
  cbn [set_info_expected]. rewrite H1, H2, <- Hs. cbn [andb].
  destruct (N.eqb (chunk_replay_gain_serial (chunk_deref env p1))
              (cell_get cell (ao w))) eqn:E; cbn [negb].
  - reflexivity.
  - rewrite N.eqb_refl. reflexivity.
Qed.

(** C2.  When [play] returns 0 the worker closes the output at once,
    abruptly ([cancel], not [drain], then [close], then every filter
    of the output), which leaves [open] false, then sets the fail
    timer; [PlayChunk] returns false.  The pass through the loop of
    [Task] in which this happens, whatever command it has started
    with, ends regularly, and the loop goes on with the next pass
    from the state the failure has left.  The worker itself returns
    only from the pass that carries out KILL. *)
Theorem play_failure_closes fuel s t :
  (forall chunk,
     open s = true -> FailTimer.IsDefined (fail_timer s) = false ->
     failed (trace (final (PlayChunk env fuel chunk (mk_world s t []))))
       = true ->
     exists w',
       PlayChunk env fuel chunk (mk_world s t []) = Ok false w' /\
       open (ao w') = false /\
       FailTimer.IsDefined (fail_timer (ao w')) = true /\
       failed_then_closed (CloseFilter_events s) (trace w')) /\
  (fail_timer_invariant s ->
   failed (trace (final (Task_iteration env fuel (mk_world s t [])))) = true ->
   exists w',
     Task_iteration env fuel (mk_world s t []) = Ok LoopAgain w' /\
     open (ao w') = false /\
     FailTimer.IsDefined (fail_timer (ao w')) = true /\
     failed_then_closed (CloseFilter_events s) (trace w') /\
     Task_loop env (S fuel) (mk_world s t []) = Task_loop env fuel w') /\
  (forall w w',
     Task env fuel w = Ok tt w' ->
     exists fuel1 w1,
       command (ao w1) = AO_COMMAND_KILL /\
       Task_switch env fuel1 w1 = Ok SwReturn w').
Proof.
  split; [ | split ].
  - intros chunk Ho Ht Hf.
    assert (HG : Going s (in_playback_loop s) (mk_world s t [])).
    { repeat split; auto. }
    destruct (@failed_run _ s _ _ _ _
                (@PlayChunk_Going _ env s _ fuel chunk _ HG) Hf)
      as (r & w' & E & HQ).
    rewrite E in Hf. cbn [final] in Hf.
    destruct r.
    + destruct HQ as ((Hn & _) & _). unfold failed in *. congruence.
    + destruct HQ as [ (H1 & _ & H2 & H3 & _) | (Hn & _) ];
        [ | congruence ].
      exists w'. auto.
  - intros Hinv Hf.
    assert (HU : Unfailed s (mk_world s t [])).
    { split; [ reflexivity | repeat split ]. }
    destruct (@failed_run _ s _ _ _ _
                (@Task_iteration_Going _ env s fuel _ HU Hinv) Hf)
      as (r & w' & E & (ipl & HQ) & Hr).
    rewrite E in Hf. cbn [final] in Hf.
    rewrite (Hr Hf) in E.
    destruct HQ as [ (H1 & _ & H2 & H3 & _) | (Hn & _) ]; [ | congruence ].
    exists w'. repeat split; auto.
    cbn [Task_loop]. unfold bind. rewrite E. reflexivity.
  - intros w w' H. unfold Task, bind in H.
    destruct (lock env w) as [ [] w1 | | ]; try discriminate.
    exact (@Task_loop_return _ env fuel _ _ H).
Qed.

End Claims.

(** * The theorems at work on the example device *)

Lemma quiet_env_filters_valid : filter_formats_valid Example.quiet_env.
Proof.
  intros n f af. cbn.
  destruct (Example.fmt_fully_defined af) eqn:E; cbn;
    [ intros _; exact E | discriminate ].
Defined.


Lemma stereo_open_env_formats_valid :
  controller_formats_valid Example2.stereo_open_env.
Proof.
  intros n a f Ha Hf. destruct n as [ | n ]; cbn in Ha; [ | discriminate ].
  injection Ha as <-. cbn in Hf. injection Hf as <-. reflexivity.
Defined.

Lemma stereo_open_env_inputs_valid :
  filter_inputs_valid Example2.stereo_open_env.
Proof.
  intros n f af H. cbn in *.
  destruct (N.eqb f 2); cbn [fst]; [ | exact H ].
  unfold Example.fmt_fully_defined in *. cbn in *.
  destruct (N.eqb (Example.sample_rate af) 0),
    (N.eqb (Example.sample_format af) 0); cbn in *;
    try discriminate H; reflexivity.
Defined.

(** C1 at work: the controller posts OPEN with six channels; the
    replay gain filter of the output takes two and changes
    [in_audio_format].  The worker opens the device and plays; the
    state it is in when the fuel runs out is open, has the format the
    filter has left, and has the invariant. *)
Lemma open_invariant_preserved_witness :
  open (ao (final (Task Example2.stereo_open_env 12 Example.world0)))
    = true /\
  in_audio_format
    (ao (final (Task Example2.stereo_open_env 12 Example.world0)))
    = Example.cd_format /\
  open_invariant
    (ao (final (Task Example2.stereo_open_env 12 Example.world0))).
Proof.
  split; [ vm_compute; reflexivity | split; [ vm_compute; reflexivity | ] ].
  assert (H0 : open_invariant (ao Example.world0))
    by (cbn; discriminate).
  exact (proj2 (proj2 (proj2 (proj2 (proj2 (proj2
           (open_invariant_preserved stereo_open_env_formats_valid
              stereo_open_env_inputs_valid Example.world0 H0)))))) 12).
Defined.

(** C9 at work: the same run ends open with the fail timer unset; a
    pass in which [play] fails ends closed with the fail timer set. *)
Lemma fail_timer_invariant_preserved_witness :
  (open (ao (final (Task Example.open_env 12 Example.world0))) = true /\
   fail_timer_invariant
     (ao (final (Task Example.open_env 12 Example.world0)))) /\
  (FailTimer.IsDefined
     (fail_timer
        (ao (final (Task_iteration Example.no_play_env 10
                      (mk_world Example.ao_open 0 []))))) = true /\
   fail_timer_invariant
     (ao (final (Task_iteration Example.no_play_env 10
                   (mk_world Example.ao_open 0 []))))).
Proof.
  split; (split; [ vm_compute; reflexivity | ]).
  - assert (H0 : fail_timer_invariant (ao Example.world0))
      by (cbn; discriminate).
    exact (proj2 (proj2 (proj2 (proj2 (proj2 (proj2
             (fail_timer_invariant_preserved Example.open_env
                Example.world0 H0)))))) 12).
  - assert (H0 : fail_timer_invariant
                   (ao (mk_world Example.ao_open 0 [])))
      by (intros _; reflexivity).
    exact (proj1 (proj2 (proj2 (proj2 (proj2 (proj2
             (fail_timer_invariant_preserved Example.no_play_env
                (mk_world Example.ao_open 0 []) H0))))))
             10).
Defined.



(** C8 at work: PAUSE on the closed output. *)
Lemma pause_while_closed_witness :
  Task_switch Example.quiet_env 5
    (mk_world (set_command AO_COMMAND_PAUSE Example.ao0) 0 []) =
  Ok SwBreak
     (mk_world Example.ao0 1 [EvLock None; EvClientNotify; EvUnlock]).
Proof.
  exact (proj1 (pause_while_closed Example.quiet_env 5
                  (mk_world (set_command AO_COMMAND_PAUSE Example.ao0) 0 [])
                  eq_refl eq_refl)).
Defined.

(** C10 at work: KILL on the open output, in the middle of chunk 10. *)
Lemma kill_leaves_device_open_witness :
  Task_loop Example.quiet_env 6
    (mk_world (set_command AO_COMMAND_KILL
                 (set_current_chunk (Some 10%N) Example.ao_open)) 0 []) =
  Ok tt (mk_world Example.ao_open 1
           [EvUnlock; EvLock None; EvClientNotify; EvUnlock]) /\
  open Example.ao_open = true /\ pipe Example.ao_open = Some 1%N.
Proof.
  split; [ | split; reflexivity ].
  exact (proj1 (proj2 (proj2
           (kill_leaves_device_open Example.quiet_env 5
              (mk_world (set_command AO_COMMAND_KILL
                           (set_current_chunk (Some 10%N) Example.ao_open))
                        0 [])
              eq_refl)))).
Defined.

(** C3 at work: chunk 30 (100 bytes, mix ratio 25) fades into chunk 31
    (60 bytes): the mix covers 60 bytes with weight 75, and 60 bytes
    come out of the filter chain. *)
Lemma cross_fade_lengths_witness :
  match ao_filter_chunk Example.quiet_env 30%N
          (mk_world Example.ao_open 0 []) with
  | Ok (Some (d, n)) w' =>
      n = 60%N /\ List.length d = 60 /\
      existsb (fun e : @Event Example.simple =>
                 match e with
                 | EvPcmMix dest _ len _ portion _ =>
                     Nat.eqb (List.length dest) 60 &&
                     N.eqb len 60 && N.eqb portion 75
                 | _ => false
                 end) (trace w') = true
  | _ => False
  end.
Proof.
  rewrite (@cross_fade_lengths Example.simple Example.quiet_env 30%N 31%N
             (mk_world Example.ao_open 0 [])
             (Example.bytes 100) 100%N
             (mk_world Example.ao_open 1
                [EvFilterPCM 2%N (Example.bytes 100) 100%N
                   (Some (Example.bytes 100, 100%N))])
             (Example.bytes 60) 60%N
             (mk_world Example.ao_open 2
                [EvFilterPCM 3%N (Example.bytes 60) 60%N
                   (Some (Example.bytes 60, 60%N));
                 EvFilterPCM 2%N (Example.bytes 100) 100%N
                   (Some (Example.bytes 100, 100%N))])
             eq_refl eq_refl ltac:(discriminate) eq_refl
             ltac:(discriminate)).
  vm_compute. repeat split.
Defined.

(** C7 at work: REOPEN on the open output, no format configured. *)
Lemma reopen_preserves_pipe_witness :
  pipe (ao (final (Reopen Example.quiet_env
                     (mk_world (set_command AO_COMMAND_REOPEN Example.ao_open)
                               0 [])))) = Some 1%N /\
  exists w',
    Reopen Example.quiet_env
      (mk_world (set_command AO_COMMAND_REOPEN Example.ao_open) 0 [])
    = Ok tt w'.
Proof.
  pose proof (@reopen_preserves_pipe Example.simple Example.quiet_env
                (mk_world (set_command AO_COMMAND_REOPEN Example.ao_open) 0 [])
                eq_refl eq_refl eq_refl) as (_ & _ & Hp & _ & Hr).
  split; [ exact Hp | ].
  apply Hr; [ | exact quiet_env_filters_valid ].
  intros _. repeat split.
Defined.

(** C2 at work: OPEN is posted for a device on which [play] answers
    0.  In one pass the worker opens the output, acknowledges, plays
    chunk 10 of pipe 1 and fails; the pass ends closed, with the fail
    timer set and the three filters closed, and the loop goes on. *)
Lemma play_failure_closes_witness :
  exists w',
    Task_iteration Example.no_play_env 10 (mk_world Example.ao_to_open 0 [])
      = Ok LoopAgain w' /\
    open (ao w') = false /\
    FailTimer.IsDefined (fail_timer (ao w')) = true /\
    failed_then_closed
      [EvFilterClose 1%N; EvFilterClose 3%N; EvFilterClose 2%N] (trace w') /\
    Task_loop Example.no_play_env 11 (mk_world Example.ao_to_open 0 [])
      = Task_loop Example.no_play_env 10 w'.
Proof.
  apply (proj1 (proj2 (play_failure_closes Example.no_play_env 10
                         Example.ao_to_open 0))).
  - intros H. discriminate H.
  - vm_compute. reflexivity.
Defined.

(** C4 at work: the device cannot be opened; the three filters that
    were opened are closed again and the fail timer is set. *)
Lemma open_failure_handling_witness :
  Open Example.no_open_env (mk_world Example.ao_to_open 0 []) =
    Ok tt (final (Open Example.no_open_env
                    (mk_world Example.ao_to_open 0 []))) /\
  open (ao (final (Open Example.no_open_env
                     (mk_world Example.ao_to_open 0 [])))) = false /\
  (forall f,
     filter_balance f
       (trace (final (Open Example.no_open_env
                        (mk_world Example.ao_to_open 0 [])))) = 0%Z) /\
  FailTimer.IsDefined
    (fail_timer (ao (final (Open Example.no_open_env
                              (mk_world Example.ao_to_open 0 [])))))
  = true.
Proof.
  assert (E : Open Example.no_open_env
                (mk_world Example.ao_to_open 0 []) =
              Ok tt (final (Open Example.no_open_env
                              (mk_world Example.ao_to_open 0 []))))
    by (vm_compute; reflexivity).
  split; [ exact E | ].
  destruct (proj2 (open_failure_handling Example.no_open_env
                     Example.ao_to_open 0) _ E) as (Ho & Hf).
  split; [ rewrite Ho; vm_compute; reflexivity | ].
  assert (F : open_failed
                (trace (final (Open Example.no_open_env
                                 (mk_world Example.ao_to_open 0 []))))
              = true)
    by (vm_compute; reflexivity).
  destruct (Hf F) as (Hb & Ht & _).
  split; [ exact Hb | rewrite Ht; vm_compute; reflexivity ].
Defined.

(** C4: not every failure sets the fail timer, and not everything
    that was opened is closed.  First the device cannot be enabled:
    [Open] returns with a failed step in its trace and [open] false,
    and the fail timer is as [Reset] left it.  Then the convert filter
    refuses the format of the device: [Open] returns with [open]
    false and the fail timer set, the device has been opened with
    success, and [Open] has not closed it. *)
Lemma open_failure_counterexample :
  (Open Example.no_enable_env (mk_world Example.ao_to_open 0 []) =
     Ok tt (mk_world Example.ao_to_open 2
              [EvLock None; EvPluginEnable false; EvUnlock]) /\
   @open_failed Example.simple
     [EvLock None; EvPluginEnable false; EvUnlock] = true /\
   open Example.ao_to_open = false /\
   FailTimer.IsDefined (fail_timer Example.ao_to_open) = false) /\
  (Open Example.no_convert_env (mk_world Example.ao_to_open 0 []) =
     Ok tt (final (Open Example.no_convert_env
                     (mk_world Example.ao_to_open 0 []))) /\
   open (ao (final (Open Example.no_convert_env
                      (mk_world Example.ao_to_open 0 [])))) = false /\
   open_failed
     (trace (final (Open Example.no_convert_env
                      (mk_world Example.ao_to_open 0 [])))) = true /\
   existsb is_backend_open
     (trace (final (Open Example.no_convert_env
                      (mk_world Example.ao_to_open 0 [])))) = true /\
   existsb is_backend_close
     (trace (final (Open Example.no_convert_env
                      (mk_world Example.ao_to_open 0 [])))) = false).
Proof. vm_compute. repeat split. Qed.

(** C6 at work: chunks 40 and 41 carry serial 7 and the cell holds 0:
    one [set_info] call, for chunk 40. *)
Lemma set_info_on_serial_change_witness :
  set_info_calls
    (trace (final (chunk_data_run Example.quiet_env [40%N; 41%N] (Some 2%N)
                     PrimarySerial (mk_world Example.ao_open 0 []))))
  = [(2%N, Some 9%N)] /\
  List.length
    (set_info_expected Example.quiet_env (Some 2%N) 0%N [40%N; 41%N]) = 1.
Proof.
  pose proof (@set_info_on_serial_change Example.simple Example.quiet_env
                [40%N; 41%N] (Some 2%N) PrimarySerial
                (mk_world Example.ao_open 0 []) eq_refl) as (Hr & Hn).
  split.
  - destruct Hr as (w' & E & Hs). rewrite E. exact Hs.
  - exact (Hn 2%N 40%N 41%N eq_refl eq_refl eq_refl eq_refl eq_refl).
Defined.

(** C6: not every change of serial causes a [set_info].  Chunk 20
    has a tag and no data; it passes the assertions, its serial 5
    differs from the 0 in the cell, and [ao_chunk_data] returns
    without a [set_info] call and without writing the cell. *)
Lemma set_info_counterexample :
  chunk_accepted Example.quiet_env Example.ao_open 20%N = true /\
  N.eqb (chunk_replay_gain_serial (chunk_deref Example.quiet_env 20%N))
        (cell_get PrimarySerial Example.ao_open) = false /\
  ao_chunk_data Example.quiet_env 20%N (Some 2%N) PrimarySerial
    (mk_world Example.ao_open 0 []) =
  Ok (Some ([], 0%N)) (mk_world Example.ao_open 0 []).
Proof. vm_compute. repeat split. Qed.

(** * More of the worker *)

(** ** What each method may call *)

Section FootprintLemmas.

Context {X : Externals}.
Variable env : Env.

Lemma Kind_eqb_eq a b : Kind_eqb a b = true -> a = b.
Proof. destruct a, b; intros H; try reflexivity; discriminate H. Qed.

Lemma Kind_eqb_refl a : Kind_eqb a a = true.
Proof. destruct a; reflexivity. Qed.

Lemma mem_subset k a b : subset a b = true -> mem k a = true -> mem k b = true.
Proof.
  unfold subset, mem. intros Hs Hk.
  apply existsb_exists in Hk. destruct Hk as (k' & Hin & He).
  apply Kind_eqb_eq in He. subst k'.
  rewrite forallb_forall in Hs. exact (Hs k Hin).
Qed.

Lemma subset_trans a b c :
  subset a b = true -> subset b c = true -> subset a c = true.
Proof.
  intros Hab Hbc. unfold subset. apply forallb_forall. intros k Hk.
  apply mem_subset with (a := b); [ exact Hbc | ].
  unfold subset in Hab. rewrite forallb_forall in Hab. exact (Hab k Hk).
Qed.

Lemma emitted_refl fp base : emitted fp base base.
Proof. exists []. split; reflexivity. Qed.

Lemma emitted_cons fp base tr e :
  mem (kind e) fp = true -> emitted fp base tr -> emitted fp base (e :: tr).
Proof.
  intros He (later & -> & Hl). exists (e :: later). split; [ reflexivity | ].
  cbn [forallb]. now rewrite He, Hl.
Qed.

Lemma emitted_weaken fp fp' base tr :
  subset fp fp' = true -> emitted fp base tr -> emitted fp' base tr.
Proof.
  intros Hs (later & -> & Hl). exists later. split; [ reflexivity | ].
  rewrite forallb_forall in *. intros e He.
  eapply mem_subset; [ exact Hs | exact (Hl e He) ].
Qed.

Lemma emitted_trans fp base mid tr :
  emitted fp base mid -> emitted fp mid tr -> emitted fp base tr.
Proof.
  intros (l1 & -> & H1) (l2 & -> & H2). exists (l2 ++ l1).
  split; [ now rewrite app_assoc | ].
  rewrite forallb_app, H1, H2. reflexivity.
Qed.

Lemma count_kind_app k l tr :
  count_kind k (l ++ tr) = count_kind k l + count_kind k tr.
Proof. unfold count_kind. now rewrite filter_app, length_app. Qed.

(** A method that cannot make a call of kind [k] leaves the number of
    such calls in the trace as it is. *)
Lemma emitted_count fp k base tr :
  mem k fp = false -> emitted fp base tr ->
  count_kind k tr = count_kind k base.
Proof.
  intros Hk (later & -> & Hl). rewrite count_kind_app.
  assert (E : count_kind k later = 0); [ | now rewrite E ].
  unfold count_kind. induction later as [ | e later IH ]; [ reflexivity | ].
  cbn [forallb] in Hl. apply andb_prop in Hl. destruct Hl as (He & Hl).
  cbn [List.filter]. destruct (Kind_eqb (kind e) k) eqn:Ek.
  - apply Kind_eqb_eq in Ek. congruence.
  - now apply IH.
Qed.

Section Generic.

Variable fp : list Kind.
Variable base : list Event.

Local Abbreviation EO := (emits_only fp base).

Ltac fp_fin :=
  unfold emits_only in *; cbn [trace] in *;
  repeat (apply emitted_cons;
          [ eapply mem_subset; [ eassumption | reflexivity ] | ]);
  assumption.

Ltac fp_side :=
  solve [ eapply subset_trans; [ | eassumption ]; reflexivity ].

#[local] Hint Extern 1 (emits_only _ _ _) => fp_fin : call_db.
#[local] Hint Extern 1 (subset _ _ = true) => fp_side : call_db.

Lemma lock_fp : subset fp_lock fp = true -> keepsW (lock env) EO.
Proof. intros Hfp w Hw. unfold lock, window. wp_auto fp_fin. Qed.

#[local] Hint Extern 1 (wp (lock _) _ _ _) => eapply lock_fp : call_db.

Lemma cond_wait_fp : subset [KCondWait] fp = true -> keepsW (cond_wait env) EO.
Proof. intros Hfp w Hw. unfold cond_wait, window. wp_auto fp_fin. Qed.

Lemma cond_timed_wait_fp d :
  subset [KCondTimedWait] fp = true -> keepsW (cond_timed_wait env d) EO.
Proof. intros Hfp w Hw. unfold cond_timed_wait, window. wp_auto fp_fin. Qed.

#[local] Hint Extern 1 (wp (cond_timed_wait _ _) _ _ _) =>
  eapply cond_timed_wait_fp : call_db.

Lemma CommandFinished_fp :
  subset fp_CommandFinished fp = true -> keepsW (CommandFinished env) EO.
Proof. intros Hfp w Hw. unfold CommandFinished. wp_auto fp_fin. Qed.

#[local] Hint Extern 1 (wp (CommandFinished _) _ _ _) =>
  eapply CommandFinished_fp : call_db.

Lemma close_if_present_fp f :
  subset fp_CloseFilter fp = true -> keepsW (close_if_present f) EO.
Proof. intros Hfp w Hw. unfold close_if_present. wp_auto fp_fin. Qed.

#[local] Hint Extern 1 (wp (close_if_present _) _ _ _) =>
  eapply close_if_present_fp : call_db.

Lemma CloseFilter_fp :
  subset fp_CloseFilter fp = true -> keepsW CloseFilter EO.
Proof. intros Hfp w Hw. unfold CloseFilter. wp_auto fp_fin. Qed.

#[local] Hint Extern 1 (wp CloseFilter _ _ _) => eapply CloseFilter_fp : call_db.

Lemma Filter_Open_fp fl c :
  subset [KFilterOpen] fp = true -> keepsW (Filter_Open env fl c) EO.
Proof. intros Hfp w Hw. unfold Filter_Open. wp_auto fp_fin. Qed.

#[local] Hint Extern 1 (wp (Filter_Open _ _ _) _ _ _) =>
  eapply Filter_Open_fp : call_db.

Lemma open_fails_if_present_fp f c :
  subset [KFilterOpen] fp = true ->
  keepsW (open_fails_if_present env f c) EO.
Proof. intros Hfp w Hw. unfold open_fails_if_present. wp_auto fp_fin. Qed.

#[local] Hint Extern 1 (wp (open_fails_if_present _ _ _) _ _ _) =>
  eapply open_fails_if_present_fp : call_db.

Lemma OpenFilter_fp c :
  subset fp_OpenFilter fp = true -> keepsW (OpenFilter env c) EO.
Proof. intros Hfp w Hw. unfold OpenFilter. wp_auto fp_fin. Qed.

#[local] Hint Extern 1 (wp (OpenFilter _ _) _ _ _) =>
  eapply OpenFilter_fp : call_db.

Lemma fail_timer_Update_fp : keepsW (fail_timer_Update env) EO.
Proof. intros w Hw. unfold fail_timer_Update. wp_auto fp_fin. Qed.

#[local] Hint Extern 1 (wp (fail_timer_Update _) _ _ _) =>
  eapply fail_timer_Update_fp : call_db.

Lemma Enable_fp : subset fp_Enable fp = true -> keepsW (Enable env) EO.
Proof. intros Hfp w Hw. unfold Enable. wp_auto fp_fin. Qed.

#[local] Hint Extern 1 (wp (Enable _) _ _ _) => eapply Enable_fp : call_db.

Lemma Open_fp : subset fp_Open fp = true -> keepsW (Open env) EO.
Proof. intros Hfp w Hw. unfold Open, fail_timer_Reset. wp_auto fp_fin. Qed.

#[local] Hint Extern 1 (wp (Open _) _ _ _) => eapply Open_fp : call_db.

Lemma Close_fp drain :
  subset (fp_Close drain) fp = true -> keepsW (Close env drain) EO.
Proof.
  intros Hfp w Hw. unfold Close. destruct drain; wp_auto fp_fin.
Qed.

#[local] Hint Extern 1 (wp (Close _ true) _ _ _) =>
  eapply (Close_fp true) : call_db.
#[local] Hint Extern 1 (wp (Close _ false) _ _ _) =>
  eapply (Close_fp false) : call_db.

Lemma Disable_fp : subset fp_Disable fp = true -> keepsW (Disable env) EO.
Proof. intros Hfp w Hw. unfold Disable. wp_auto fp_fin. Qed.

#[local] Hint Extern 1 (wp (Disable _) _ _ _) => eapply Disable_fp : call_db.

Lemma ReopenFilter_fp :
  subset fp_ReopenFilter fp = true -> keepsW (ReopenFilter env) EO.
Proof. intros Hfp w Hw. unfold ReopenFilter. wp_auto fp_fin. Qed.

#[local] Hint Extern 1 (wp (ReopenFilter _) _ _ _) =>
  eapply ReopenFilter_fp : call_db.

Lemma Reopen_fp : subset fp_Reopen fp = true -> keepsW (Reopen env) EO.
Proof. intros Hfp w Hw. unfold Reopen. wp_auto fp_fin. Qed.

#[local] Hint Extern 1 (wp (Reopen _) _ _ _) => eapply Reopen_fp : call_db.

Lemma WaitForDelay_fp fuel :
  subset fp_WaitForDelay fp = true -> keepsW (WaitForDelay env fuel) EO.
Proof.
  intros Hfp. induction fuel as [ | fuel IH ]; intros w Hw;
    cbn [WaitForDelay].
  - exact Hw.
  - wp_auto fp_fin; try (apply IH; fp_fin).
Qed.

#[local] Hint Extern 1 (wp (WaitForDelay _ _) _ _ _) =>
  eapply WaitForDelay_fp : call_db.

Lemma ao_chunk_data_fp chunk f cell :
  subset [KSetInfo; KFilterPCM] fp = true ->
  keepsW (ao_chunk_data env chunk f cell) EO.
Proof. intros Hfp w Hw. unfold ao_chunk_data. wp_auto fp_fin. Qed.

#[local] Hint Extern 1 (wp (ao_chunk_data _ _ _ _) _ _ _) =>
  eapply ao_chunk_data_fp : call_db.

Lemma apply_filter_chain_fp d len :
  subset [KFilterPCM] fp = true -> keepsW (apply_filter_chain env d len) EO.
Proof. intros Hfp w Hw. unfold apply_filter_chain. wp_auto fp_fin. Qed.

#[local] Hint Extern 1 (wp (apply_filter_chain _ _ _) _ _ _) =>
  eapply apply_filter_chain_fp : call_db.

Lemma ao_filter_chunk_fp chunk :
  subset fp_ao_filter_chunk fp = true ->
  keepsW (ao_filter_chunk env chunk) EO.
Proof.
  intros Hfp w Hw. unfold ao_filter_chunk. wp_prim. wp_call.
  destruct a as [ [d len] | ]; wp_auto fp_fin.
Qed.

#[local] Hint Extern 1 (wp (ao_filter_chunk _ _) _ _ _) =>
  eapply ao_filter_chunk_fp : call_db.

Lemma PlayChunk_loop_fp fuel :
  subset fp_PlayChunk fp = true ->
  forall d size, keepsW (PlayChunk_loop env fuel d size) EO.
Proof.
  intros Hfp. induction fuel as [ | fuel IH ]; intros d size w Hw;
    cbn [PlayChunk_loop].
  - exact Hw.
  - wp_auto fp_fin; try (apply IH; fp_fin).
Qed.

#[local] Hint Extern 1 (wp (PlayChunk_loop _ _ _ _) _ _ _) =>
  eapply PlayChunk_loop_fp : call_db.

Lemma PlayChunk_fp fuel chunk :
  subset fp_PlayChunk fp = true -> keepsW (PlayChunk env fuel chunk) EO.
Proof.
  intros Hfp w Hw. unfold PlayChunk. wp_prim.
  assert (HT : wp (match tag (chunk_deref env chunk) with
                   | Some t => if tags (ao w)
                               then unlock ;; emit (EvPluginSendTag t) ;; lock env
                               else ret tt
                   | None => ret tt end)
                  (fun _ w' => EO w') EO w).
  { wp_auto fp_fin. }
  eapply wp_mono; [ exact HT | cbv beta; intros | auto ].
  wp_call. destruct a0 as [ [d size] | ]; wp_auto fp_fin.
Qed.

#[local] Hint Extern 1 (wp (PlayChunk _ _ _) _ _ _) =>
  eapply PlayChunk_fp : call_db.

Lemma GetNextChunk_fp :
  subset [KPeek] fp = true -> keepsW (GetNextChunk env) EO.
Proof. intros Hfp w Hw. unfold GetNextChunk. wp_auto fp_fin. Qed.

#[local] Hint Extern 1 (wp (GetNextChunk _) _ _ _) =>
  eapply GetNextChunk_fp : call_db.

Lemma Play_loop_fp fuel :
  subset fp_PlayChunk fp = true ->
  forall chunk, keepsW (Play_loop env fuel chunk) EO.
Proof.
  intros Hfp. induction fuel as [ | fuel IH ]; intros chunk w Hw;
    cbn [Play_loop].
  - exact Hw.
  - destruct chunk as [ p | ]; [ | exact Hw ].
    wp_auto fp_fin; try (apply IH; fp_fin).
Qed.

#[local] Hint Extern 1 (wp (Play_loop _ _ _) _ _ _) =>
  eapply Play_loop_fp : call_db.

Lemma Play_fp fuel : subset fp_Play fp = true -> keepsW (Play env fuel) EO.
Proof. intros Hfp w Hw. unfold Play. wp_auto fp_fin. Qed.

#[local] Hint Extern 1 (wp (Play _ _) _ _ _) => eapply Play_fp : call_db.

Lemma Pause_loop_fp fuel :
  subset fp_Pause_loop fp = true -> keepsW (Pause_loop env fuel) EO.
Proof.
  intros Hfp. induction fuel as [ | fuel IH ]; intros w Hw;
    cbn [Pause_loop].
  - exact Hw.
  - wp_auto fp_fin; try (apply IH; fp_fin).
Qed.

#[local] Hint Extern 1 (wp (Pause_loop _ _) _ _ _) =>
  eapply Pause_loop_fp : call_db.

Lemma Pause_fp fuel : subset fp_Pause fp = true -> keepsW (Pause env fuel) EO.
Proof. intros Hfp w Hw. unfold Pause. wp_auto fp_fin. Qed.

#[local] Hint Extern 1 (wp (Pause _ _) _ _ _) => eapply Pause_fp : call_db.

Lemma Task_switch_fp fuel :
  subset fp_Task_switch fp = true -> keepsW (Task_switch env fuel) EO.
Proof.
  intros Hfp w Hw. unfold Task_switch. wp_prim.
  destruct (command (ao w)) eqn:Ec; wp_auto fp_fin.
Qed.

End Generic.

End FootprintLemmas.

(** ** The play step *)

Section PlayStep.

Context {X : Externals}.
Variable env : Env.

Lemma lock_run w :
  lock env w =
  Ok tt (mk_world (after_window env (tick w) (ao w)) (S (tick w))
           (EvLock (window_posted env (tick w) (ao w)) :: trace w)).
Proof.
  unfold lock, window, after_window, window_posted, bind, get, ask, modify,
    emit, ret. cbn.
  destruct (controller env (tick w)); [ | reflexivity ].
  destruct (is_NONE (command (ao w))); reflexivity.
Qed.

Lemma wp_lock Q E w :
  wp (lock env) Q E w =
  Q tt (mk_world (after_window env (tick w) (ao w)) (S (tick w))
          (EvLock (window_posted env (tick w) (ao w)) :: trace w)).
Proof. unfold wp. rewrite lock_run. reflexivity. Qed.

Lemma ctl_apply_current_chunk_finished a s :
  current_chunk_finished (ctl_apply a s) = current_chunk_finished s.
Proof.
  unfold ctl_apply.
  destruct (ctl_pipe a), (ctl_in_audio_format a), (ctl_allow_play a),
    (ctl_woken_for_play a); reflexivity.
Qed.

Lemma after_window_play_flags n s :
  in_playback_loop (after_window env n s) = in_playback_loop s /\
  current_chunk_finished (after_window env n s) = current_chunk_finished s.
Proof.
  unfold after_window.
  destruct (controller env n); [ destruct (is_NONE (command s)) | ];
    rewrite ?ctl_apply_in_playback_loop, ?ctl_apply_current_chunk_finished;
    auto.
Qed.

Lemma wp_True {A} (m : M A) Q E w :
  wp m Q E w -> wp m Q (fun _ => True) w.
Proof. intros H. eapply wp_mono; [ exact H | auto | auto ]. Qed.

(** [GetNextChunk] is [const]. *)
Lemma GetNextChunk_post w :
  wp (GetNextChunk env)
     (fun _ w' => ao w' = ao w /\ emitted [KPeek] (trace w) (trace w'))
     (fun _ => True) w.
Proof.
  unfold GetNextChunk. wp_go; try exact I;
    (split; [ reflexivity | ]).
  - apply emitted_refl.
  - apply emitted_cons; [ reflexivity | apply emitted_refl ].
Qed.

Lemma Play_post fuel w :
  wp (Play env fuel)
     (fun r w' =>
        if r then
          in_playback_loop (ao w') = false /\
          current_chunk_finished (ao w') = true /\
          exists a tr,
            trace w' = EvLock a :: EvPlayerSignal :: EvUnlock :: tr /\
            emitted (KPeek :: fp_PlayChunk) (trace w) tr
        else ao w' = ao w /\ emitted [KPeek] (trace w) (trace w'))
     (fun _ => True) w.
Proof.
  unfold Play. wp_prim. wp_if; try exact I. wp_prim.
  wp_use GetNextChunk_post; [ | exact I ].
  destruct H as (Hs & Ht).
  destruct a as [ p | ]; wp_prim; [ | auto ].
  wp_if; try exact I. wp_prim.
  assert (H0 : emits_only (KPeek :: fp_PlayChunk) (trace w)
                 (mk_world
                    (set_in_playback_loop true
                       (set_current_chunk_finished false (ao w')))
                    (tick w') (trace w'))).
  { unfold emits_only. cbn [trace].
    eapply emitted_weaken; [ | exact Ht ]. reflexivity. }
  pose proof (@Play_loop_fp _ env (KPeek :: fp_PlayChunk) (trace w) fuel
                eq_refl (Some p) _ H0) as HL.
  wp_use HL; [ | exact I ].
  wp_prim. wp_if; try exact I. wp_prim. rewrite wp_lock.
  ao_simpl.
  match goal with
  | |- context [after_window env ?n ?s] =>
      destruct (after_window_play_flags n s) as (E1 & E2)
  end.
  wp_prim. rewrite E1, E2. ao_simpl.
  repeat split; auto. do 2 eexists. split; [ reflexivity | exact H ].
Qed.


(** The calls of a play step, however it ends: the pipe, the tag and
    the data of chunks, the filters, the delay of the device and the
    timed wait, [play], and on failure [cancel] and [close]; the
    signal to the player.  It never drains, opens, enables, disables
    or pauses the device, never acknowledges a command and never waits
    without a timeout. *)
Theorem Play_calls fuel w :
  emitted fp_Play (trace w) (trace (final (Play env fuel w))) /\
  forall k,
    mem k [KPluginDrain; KPluginOpen; KPluginEnable; KPluginDisable;
           KPluginPause; KFilterOpen; KConvertSet; KClientNotify;
           KCondWait] = true ->
    count_kind k (trace (final (Play env fuel w))) = count_kind k (trace w).
Proof.
  assert (H : emits_only fp_Play (trace w) (final (Play env fuel w))).
  { apply keepsW_final; [ apply Play_fp; reflexivity | apply emitted_refl ]. }
  split; [ exact H | ].
  intros k Hk. eapply emitted_count; [ | exact H ].
  destruct k; try reflexivity; discriminate Hk.
Qed.

End PlayStep.

(** ** The command loop *)

Section CommandLoop.

Context {X : Externals}.
Variable env : Env.

Lemma count_kind_cons k e tr :
  count_kind k (e :: tr) =
  (if Kind_eqb (kind e) k then 1 else 0) + count_kind k tr.
Proof.
  unfold count_kind. cbn [List.filter].
  destruct (Kind_eqb (kind e) k); reflexivity.
Qed.

(** A method that cannot make a call of kind [k] keeps the number of
    such calls. *)
Lemma fp_keeps_count {A} (m : M A) fp k n :
  (forall base, keepsW m (emits_only fp base)) ->
  mem k fp = false ->
  keepsW m (fun w => count_kind k (trace w) = n).
Proof.
  intros Hfp Hk w Hw.
  specialize (Hfp (trace w) w (emitted_refl _ _)).
  eapply wp_mono; [ exact Hfp | | ]; cbv beta; intros;
    (erewrite emitted_count; [ exact Hw | exact Hk | eassumption ]).
Qed.

Ltac ack_fin :=
  first
    [ exact I
    | unfold Acked in *; cbn [trace] in *;
      rewrite ?count_kind_cons;
      cbn [kind Kind_eqb Kind_index Nat.eqb];
      lia ].

#[local] Hint Extern 1 (Acked _ _) => ack_fin : call_db.

Lemma lock_acked n : keepsW (lock env) (Acked n).
Proof.
  apply fp_keeps_count with (fp := fp_lock);
    [ intros; apply lock_fp; reflexivity | reflexivity ].
Qed.

Lemma Enable_acked n : keepsW (Enable env) (Acked n).
Proof.
  apply fp_keeps_count with (fp := fp_Enable);
    [ intros; apply Enable_fp; reflexivity | reflexivity ].
Qed.

Lemma Disable_acked n : keepsW (Disable env) (Acked n).
Proof.
  apply fp_keeps_count with (fp := fp_Disable);
    [ intros; apply Disable_fp; reflexivity | reflexivity ].
Qed.

Lemma Open_acked n : keepsW (Open env) (Acked n).
Proof.
  apply fp_keeps_count with (fp := fp_Open);
    [ intros; apply Open_fp; reflexivity | reflexivity ].
Qed.

Lemma Reopen_acked n : keepsW (Reopen env) (Acked n).
Proof.
  apply fp_keeps_count with (fp := fp_Reopen);
    [ intros; apply Reopen_fp; reflexivity | reflexivity ].
Qed.

Lemma Close_acked drain n : keepsW (Close env drain) (Acked n).
Proof.
  apply fp_keeps_count with (fp := fp_Close drain);
    [ intros; apply Close_fp; destruct drain; reflexivity
    | destruct drain; reflexivity ].
Qed.

Lemma Pause_loop_acked fuel n : keepsW (Pause_loop env fuel) (Acked n).
Proof.
  apply fp_keeps_count with (fp := fp_Pause_loop);
    [ intros; apply Pause_loop_fp; reflexivity | reflexivity ].
Qed.

(** [CommandFinished] is the one place where a command is
    acknowledged. *)
Lemma CommandFinished_acked n w :
  Acked n w ->
  wp (CommandFinished env) (fun _ w' => Acked (S n) w') (fun _ => True) w.
Proof.
  intros Hw. unfold CommandFinished. wp_prim. wp_if; try exact I.
  wp_prim. rewrite wp_lock. ack_fin.
Qed.

#[local] Hint Extern 1 (wp (lock _) _ _ _) => eapply lock_acked : call_db.
#[local] Hint Extern 1 (wp (Enable _) _ _ _) => eapply Enable_acked : call_db.
#[local] Hint Extern 1 (wp (Disable _) _ _ _) => eapply Disable_acked : call_db.
#[local] Hint Extern 1 (wp (Open _) _ _ _) => eapply Open_acked : call_db.
#[local] Hint Extern 1 (wp (Reopen _) _ _ _) => eapply Reopen_acked : call_db.
#[local] Hint Extern 1 (wp (Close _ _) _ _ _) => eapply Close_acked : call_db.
#[local] Hint Extern 1 (wp (Pause_loop _ _) _ _ _) =>
  eapply Pause_loop_acked : call_db.
#[local] Hint Extern 1 (wp (CommandFinished _) _ _ _) =>
  eapply CommandFinished_acked : call_db.

Lemma Pause_acked fuel n w :
  Acked n w ->
  wp (Pause env fuel) (fun _ w' => Acked (S n) w') (fun _ => True) w.
Proof. intros Hw. unfold Pause. wp_auto ack_fin. Qed.

Lemma Task_switch_acked fuel n w :
  Acked n w ->
  wp (Task_switch env fuel)
     (fun _ w' =>
        Acked (if is_NONE (command (ao w)) then n else S n) w')
     (fun _ => True) w.
Proof.
  intros Hw. unfold Task_switch, Pause. wp_prim.
  destruct (command (ao w)) eqn:Ec; cbn [is_NONE]; wp_auto ack_fin.
Qed.

(** Every command that the [switch] of [Task] carries out to its end
    is acknowledged exactly once, whether the operation worked or
    failed; when no command is posted nothing is acknowledged. *)
Theorem command_acknowledged_once fuel w r w' :
  Task_switch env fuel w = Ok r w' ->
  count_kind KClientNotify (trace w') =
  count_kind KClientNotify (trace w) +
  (if is_NONE (command (ao w)) then 0 else 1).
Proof.
  intros E.
  pose proof (@Task_switch_acked fuel _ w eq_refl) as H.
  unfold wp in H. rewrite E in H. unfold Acked in H. rewrite H.
  destruct (is_NONE (command (ao w))); lia.
Qed.

(** *** The worker does not sleep on a pending command *)

Lemma never_while_pending_app P init later base :
  forallb (fun e => negb (P e)) later = true ->
  never_while_pending P init base ->
  never_while_pending P init (later ++ base).
Proof.
  induction later as [ | e later IH ]; cbn [app forallb never_while_pending];
    [ auto | ].
  intros H Hb. apply andb_prop in H. destruct H as (He & Hl).
  split; [ | now apply IH ].
  intros HP. rewrite HP in He. discriminate.
Qed.

Lemma fp_keeps_WaitInv {A} (m : M A) fp init :
  (forall base, keepsW m (emits_only fp base)) ->
  mem KCondWait fp = false ->
  keepsW m (CmdInv init) ->
  keepsW m (WaitInv init).
Proof.
  intros Hfp Hk Hc w (H1 & H2).
  specialize (Hfp (trace w) w (emitted_refl _ _)).
  specialize (Hc w H1). unfold wp in *.
  assert (G : forall w', CmdInv init w' ->
                         emits_only fp (trace w) w' -> WaitInv init w').
  { intros w' Hc' (later & Et & Hl). split; [ exact Hc' | ].
    rewrite Et. apply never_while_pending_app; [ | exact H2 ].
    rewrite forallb_forall in *. intros e He. specialize (Hl e He).
    destruct e; try reflexivity.
    cbn [kind] in Hl. rewrite Hl in Hk. discriminate. }
  destruct (m w); auto.
Qed.

Lemma Task_switch_WaitInv init fuel :
  keepsW (Task_switch env fuel) (WaitInv init).
Proof.
  apply fp_keeps_WaitInv with (fp := fp_Task_switch);
    [ intros; apply Task_switch_fp; reflexivity
    | reflexivity
    | apply Task_switch_Cmd ].
Qed.

Lemma Play_WaitInv init fuel : keepsW (Play env fuel) (WaitInv init).
Proof.
  apply fp_keeps_WaitInv with (fp := fp_Play);
    [ intros; apply Play_fp; reflexivity
    | reflexivity
    | apply Play_Cmd ].
Qed.

Lemma cond_wait_WaitInv init w :
  WaitInv init w -> is_NONE (command (ao w)) = true ->
  wp (cond_wait env) (fun _ w' => WaitInv init w') (WaitInv init) w.
Proof.
  intros (Hc & Hn) Hnone.
  pose proof (@cond_wait_Cmd _ env init w Hc) as H.
  unfold wp in *. unfold cond_wait, bind in *.
  destruct (window env w) as [ a w1 | w1 | w1 ] eqn:Ew.
  - cbn in H |- *. split; [ exact H | ].
    assert (Et : trace w1 = trace w).
    { unfold window, bind, get, ask, modify, ret in Ew. cbn in Ew.
      destruct (controller env (tick w));
        [ destruct (is_NONE (command (ao w))) | ];
        injection Ew as _ <-; reflexivity. }
    cbn [trace never_while_pending]. rewrite Et. split; [ | exact Hn ].
    intros _. destruct Hc as (_ & Hp). rewrite Hp, Hnone. reflexivity.
  - unfold window, bind, get, ask, modify, ret in Ew. cbn in Ew.
    destruct (controller env (tick w));
      [ destruct (is_NONE (command (ao w))) | ]; discriminate.
  - unfold window, bind, get, ask, modify, ret in Ew. cbn in Ew.
    destruct (controller env (tick w));
      [ destruct (is_NONE (command (ao w))) | ]; discriminate.
Qed.

Lemma WaitInv_woken init w b :
  WaitInv init w ->
  WaitInv init (mk_world (set_woken_for_play b (ao w)) (tick w) (trace w)).
Proof. intros H. exact H. Qed.

Lemma Task_idle_WaitInv init fuel :
  keepsW (Task_idle env fuel) (WaitInv init).
Proof.
  intros w Hw. unfold Task_idle. wp_prim.
  assert (HP : wp (if open (ao w) && allow_play (ao w)
                   then Play env fuel else ret false)
                  (fun _ w' => WaitInv init w') (WaitInv init) w).
  { destruct (open (ao w) && allow_play (ao w));
      [ now apply Play_WaitInv | exact Hw ]. }
  eapply wp_mono; [ exact HP | cbv beta; intros | auto ].
  destruct a; wp_prim; [ assumption | ].
  destruct (is_NONE (command (ao w'))) eqn:En; wp_prim; [ | assumption ].
  apply cond_wait_WaitInv; [ now apply WaitInv_woken | exact En ].
Qed.

Lemma Task_iteration_WaitInv init fuel :
  keepsW (Task_iteration env fuel) (WaitInv init).
Proof.
  intros w Hw. unfold Task_iteration.
  wp_use (@Task_switch_WaitInv init fuel); [ exact Hw | | assumption ].
  destruct a; wp_prim; try assumption.
  wp_use (@Task_idle_WaitInv init fuel); [ eassumption | | assumption ].
  wp_prim. assumption.
Qed.

Lemma Task_loop_WaitInv init fuel :
  keepsW (Task_loop env fuel) (WaitInv init).
Proof.
  induction fuel as [ | fuel IH ]; intros w Hw; cbn [Task_loop].
  - exact Hw.
  - wp_use (@Task_iteration_WaitInv init fuel); [ exact Hw | | assumption ].
    destruct a; [ now apply IH | assumption ].
Qed.

(** In every run of the worker, [cond.wait] (the wait without a
    timeout) is entered only when no command is pending: between the
    posting of a command and its acknowledgement the worker never goes
    to sleep for good. *)
Theorem never_sleeps_on_a_command fuel s t :
  never_while_pending is_untimed_wait (negb (is_NONE (command s)))
    (trace (final (Task env fuel (mk_world s t [])))).
Proof.
  assert (H0 : WaitInv (negb (is_NONE (command s))) (mk_world s t [])).
  { split; [ split | ]; cbn; auto. }
  assert (H1 : keepsW (Task env fuel) (WaitInv (negb (is_NONE (command s))))).
  { intros w Hw. unfold Task.
    assert (HL : keepsW (lock env) (WaitInv (negb (is_NONE (command s))))).
    { apply fp_keeps_WaitInv with (fp := fp_lock);
        [ intros; apply lock_fp; reflexivity | reflexivity | apply lock_Cmd ]. }
    wp_use HL; [ exact Hw | | assumption ].
    now apply Task_loop_WaitInv. }
  apply keepsW_final with (m := Task env fuel) in H0;
    [ exact (proj2 H0) | exact H1 ].
Qed.

End CommandLoop.

(** ** Waiting for the device, and the paused state *)

Section Pausing.

Context {X : Externals}.
Variable env : Env.

Lemma after_window_open n s : open (after_window env n s) = open s.
Proof. exact (proj1 (after_window_fields env n s)). Qed.

Lemma after_window_current_chunk n s :
  current_chunk (after_window env n s) = current_chunk s.
Proof. exact (proj1 (proj2 (proj2 (after_window_fields env n s)))). Qed.

Lemma wp_cond_timed_wait d Q E w :
  wp (cond_timed_wait env d) Q E w =
  Q tt (mk_world (after_window env (tick w) (ao w)) (S (tick w))
          (EvCondTimedWait d (window_posted env (tick w) (ao w)) :: trace w)).
Proof.
  unfold wp, cond_timed_wait, window, after_window, window_posted, bind, get,
    ask, modify, emit, ret. cbn.
  destruct (controller env (tick w)); [ | reflexivity ].
  destruct (is_NONE (command (ao w))); reflexivity.
Qed.

Lemma WaitForDelay_post fuel :
  forall w,
    wp (WaitForDelay env fuel)
       (fun go w' =>
          (if go then exists tr, trace w' = EvPluginDelay 0 :: tr
           else is_NONE (command (ao w')) = false) /\
          open (ao w') = open (ao w) /\
          emitted fp_WaitForDelay (trace w) (trace w'))
       (fun _ => True) w.
Proof.
  induction fuel as [ | fuel IH ]; intros w; cbn [WaitForDelay].
  - exact I.
  - wp_prim. destruct (N.eqb (ao_plugin_delay env (tick w)) 0) eqn:Ed.
    + wp_prim. apply N.eqb_eq in Ed. rewrite Ed.
      split; [ eauto | split; [ reflexivity | ] ].
      apply emitted_cons; [ reflexivity | apply emitted_refl ].
    + rewrite wp_bind, wp_cond_timed_wait. wp_prim.
      match goal with
      | |- context [after_window env ?n ?s] =>
          pose proof (after_window_open n s) as Eo;
          destruct (is_NONE (command (after_window env n s))) eqn:En
      end; wp_prim.
      * eapply wp_mono; [ apply IH | cbv beta; intros | auto ].
        cbn [ao trace] in H. destruct H as (H1 & H2 & H3).
        split; [ exact H1 | split; [ congruence | ] ].
        eapply emitted_trans; [ | exact H3 ].
        apply emitted_cons; [ reflexivity | ].
        apply emitted_cons; [ reflexivity | apply emitted_refl ].
      * split; [ exact En | split; [ exact Eo | ] ].
        apply emitted_cons; [ reflexivity | ].
        apply emitted_cons; [ reflexivity | apply emitted_refl ].
Qed.

(** [WaitForDelay] says "go on" only right after the device has
    reported a delay of zero, and "stop" only when a command is
    pending; it asks the device for its delay and waits with a
    timeout, nothing else, and it leaves [open] alone. *)
Theorem WaitForDelay_result fuel w go w' :
  WaitForDelay env fuel w = Ok go w' ->
  (if go then exists tr, trace w' = EvPluginDelay 0 :: tr
   else is_NONE (command (ao w')) = false) /\
  open (ao w') = open (ao w) /\
  emitted fp_WaitForDelay (trace w) (trace w').
Proof.
  intros E. pose proof (WaitForDelay_post fuel w) as H.
  unfold wp in H. rewrite E in H. exact H.
Qed.

Lemma Close_closed drain w :
  wp (Close env drain) (fun _ w' => open (ao w') = false) (fun _ => True) w.
Proof.
  unfold Close, CloseFilter, close_if_present. wp_prim.
  wp_if; try exact I.
  wp_go; rewrite wp_lock; cbn [ao]; rewrite after_window_open; reflexivity.
Qed.

Lemma Pause_loop_post fuel :
  forall w,
    wp (Pause_loop env fuel)
       (fun _ w' =>
          is_NONE (command (ao w')) = false \/ open (ao w') = false)
       (fun _ => True) w.
Proof.
  induction fuel as [ | fuel IH ]; intros w; cbn [Pause_loop].
  - exact I.
  - wp_use WaitForDelay_post; [ | exact I ].
    destruct H as (H1 & _).
    destruct a; cbn [negb]; wp_prim; [ | left; exact H1 ].
    rewrite wp_lock.
    destruct (ao_plugin_pause env (tick w')); cbn [negb].
    + wp_prim.
      match goal with
      | |- context [is_NONE (command ?s)] =>
          destruct (is_NONE (command s)) eqn:En
      end.
      * apply IH.
      * wp_prim. left. exact En.
    + eapply wp_mono; [ apply Close_closed | cbv beta; intros | auto ].
      right. assumption.
Qed.

Lemma Pause_post fuel w :
  wp (Pause env fuel)
     (fun _ w' =>
        pause (ao w') = false /\
        (is_NONE (command (ao w')) = false \/ open (ao w') = false))
     (fun _ => True) w.
Proof.
  unfold Pause. wp_prim. rewrite wp_lock. wp_prim.
  apply wp_any. intros a w1. try rewrite wp_bind.
  eapply wp_mono; [ apply Pause_loop_post | cbv beta; intros | auto ].
  wp_prim. split; [ reflexivity | assumption ].
Qed.

(** [Pause] cancels what the device has buffered, acknowledges the
    command and then keeps the device paused.  It returns only when a
    new command is there or when the device has refused to pause and
    has been closed; [pause] is false again, the command has been
    acknowledged once, and nothing has been played meanwhile. *)
Theorem Pause_result fuel w w' :
  Pause env fuel w = Ok tt w' ->
  pause (ao w') = false /\
  (is_NONE (command (ao w')) = false \/ open (ao w') = false) /\
  emitted fp_Pause (trace w) (trace w') /\
  count_kind KClientNotify (trace w') =
    S (count_kind KClientNotify (trace w)) /\
  (forall k, mem k [KPluginPlay; KPluginSendTag; KPluginOpen; KPluginDrain]
             = true ->
             count_kind k (trace w') = count_kind k (trace w)).
Proof.
  intros E.
  pose proof (Pause_post fuel w) as H. unfold wp in H. rewrite E in H.
  destruct H as (H1 & H2).
  assert (H3 : emits_only fp_Pause (trace w) (final (Pause env fuel w))).
  { apply keepsW_final; [ apply Pause_fp; reflexivity | apply emitted_refl ]. }
  rewrite E in H3. cbn [final] in H3.
  split; [ exact H1 | split; [ exact H2 | split; [ exact H3 | split ] ] ].
  - pose proof (@Pause_acked _ env fuel (count_kind KClientNotify (trace w)) w
                  eq_refl) as Ha.
    unfold wp in Ha. rewrite E in Ha. exact Ha.
  - intros k Hk. eapply emitted_count; [ | exact H3 ].
    destruct k; try reflexivity; discriminate Hk.
Qed.

End Pausing.

(** ** Enabling, disabling and the filters *)

Section Operations.

Context {X : Externals}.
Variable env : Env.

Lemma after_window_really_enabled n s :
  really_enabled (after_window env n s) = really_enabled s.
Proof.
  unfold after_window.
  destruct (controller env n); [ destruct (is_NONE (command s)) | ];
    rewrite ?ctl_apply_really_enabled; reflexivity.
Qed.

Lemma after_window_pending n s :
  is_NONE (command s) = false -> after_window env n s = s.
Proof.
  intros H. unfold after_window. rewrite H.
  destruct (controller env n); reflexivity.
Qed.

Lemma window_posted_pending n s :
  is_NONE (command s) = false -> window_posted env n s = None.
Proof.
  intros H. unfold window_posted. rewrite H.
  destruct (controller env n); reflexivity.
Qed.

(** [Enable] always returns, and what it returns is [really_enabled].
    An output that is enabled already is left alone: the mutex is not
    released and the device is not called. *)
Theorem Enable_result w :
  exists r w',
    Enable env w = Ok r w' /\
    really_enabled (ao w') = r /\
    r = (really_enabled (ao w) || ao_plugin_enable env (tick w)) /\
    (really_enabled (ao w) = true -> w' = w) /\
    emitted fp_Enable (trace w) (trace w').
Proof.
  unfold Enable, bind at 1, get at 1.
  destruct (really_enabled (ao w)) eqn:Er.
  - exists true, w. cbn [orb]. repeat split; auto. apply emitted_refl.
  - unfold bind at 1, unlock at 1, emit at 1.
    unfold bind at 1, call at 1, bind at 1, ask at 1, bind at 1, emit at 1,
      ret at 1.
    cbn [ao tick trace]. unfold bind at 1. rewrite lock_run.
    cbn [ao tick trace orb].
    destruct (ao_plugin_enable env (tick w)) eqn:Ee; cbn [negb].
    + unfold bind, modify, ret. cbn [ao tick trace].
      do 2 eexists. split; [ reflexivity | ].
      repeat split; try discriminate.
      repeat (apply emitted_cons; [ reflexivity | ]). apply emitted_refl.
    + unfold ret. do 2 eexists. split; [ reflexivity | ].
      cbn [ao trace]. rewrite after_window_really_enabled.
      repeat split; auto; try discriminate.
      repeat (apply emitted_cons; [ reflexivity | ]). apply emitted_refl.
Qed.

Lemma count_kind_CloseFilter_events k s :
  Kind_eqb KFilterClose k = false ->
  count_kind k (CloseFilter_events s) = 0.
Proof.
  intros Hk. unfold CloseFilter_events.
  destruct (other_replay_gain_filter s), (replay_gain_filter s);
    cbn [app]; rewrite ?count_kind_cons; cbn [kind]; rewrite ?Hk;
    reflexivity.
Qed.

(** [Disable] is straight-line code and its result can be written
    down.  An output that is open is closed first, as [Close(false)]
    does it: [pipe] and [current_chunk] are cleared, [open] is set to
    false, and with the mutex released the device gets [cancel] and
    [close] and the filters are closed.  Then, if the output was
    enabled, [really_enabled] is cleared and the device gets [disable],
    again with the mutex released.  A closed and disabled output is
    left alone: no call, no write.  At each re-acquisition of the
    mutex the controller may have written the object. *)
Theorem Disable_result w :
  let s1 := set_open false (set_current_chunk None (set_pipe None (ao w))) in
  let w1 :=
    if open (ao w)
    then mk_world (after_window env (tick w) s1) (S (tick w))
           (EvLock (window_posted env (tick w) s1)
              :: CloseFilter_events (ao w) ++
                 EvPluginClose :: EvPluginCancel :: EvUnlock :: trace w)
    else w in
  let s2 := set_really_enabled false (ao w1) in
  let w2 :=
    if really_enabled (ao w)
    then mk_world (after_window env (tick w1) s2) (S (tick w1))
           (EvLock (window_posted env (tick w1) s2)
              :: EvPluginDisable :: EvUnlock :: trace w1)
    else w1 in
  Disable env w = Ok tt w2 /\
  open (ao w2) = false /\ really_enabled (ao w2) = false.
Proof.
  intros s1 w1 s2 w2.
  assert (E1 : (s <- get ;; if open s then Close env false else ret tt) w
               = Ok tt w1).
  { unfold bind at 1, get at 1. subst w1 s1.
    destruct (open (ao w)) eqn:Eo; [ | reflexivity ].
    rewrite Close_run by exact Eo. reflexivity. }
  assert (Er : really_enabled (ao w1) = really_enabled (ao w)).
  { subst w1 s1. destruct (open (ao w)); [ | reflexivity ].
    cbn [ao]. now rewrite after_window_really_enabled. }
  assert (Eo : open (ao w1) = false).
  { subst w1 s1. destruct (open (ao w)) eqn:Eo; [ | exact Eo ].
    cbn [ao]. now rewrite after_window_open. }
  assert (E : Disable env w = Ok tt w2).
  { unfold Disable. unfold bind at 1, get at 1.
    unfold bind at 1. unfold bind at 1, get at 1 in E1. rewrite E1.
    unfold bind at 1, get at 1. rewrite Er. subst w2 s2.
    destruct (really_enabled (ao w)); [ | reflexivity ].
    unfold bind at 1, modify at 1. unfold bind at 1, unlock at 1, emit at 1.
    unfold bind at 1, emit at 1. cbn [ao tick trace].
    rewrite lock_run. reflexivity. }
  split; [ exact E | ].
  subst w2 s2. destruct (really_enabled (ao w)) eqn:Ere.
  - cbn [ao]. rewrite after_window_open, after_window_really_enabled.
    ao_simpl. split; [ exact Eo | reflexivity ].
  - split; [ exact Eo | congruence ].
Qed.

Lemma format_after_app af0 l tr :
  format_after af0 (l ++ tr) = format_after (format_after af0 tr) l.
Proof.
  induction l as [ | e l IH ]; cbn [app format_after]; [ reflexivity | ].
  destruct e; auto.
Qed.

Lemma format_after_CloseFilter_events af0 s :
  format_after af0 (CloseFilter_events s) = af0.
Proof.
  unfold CloseFilter_events.
  destruct (other_replay_gain_filter s), (replay_gain_filter s); reflexivity.
Qed.

Lemma formats_chained_app af0 l tr :
  formats_chained (format_after af0 tr) l -> formats_chained af0 tr ->
  formats_chained af0 (l ++ tr).
Proof.
  induction l as [ | e l IH ]; cbn [app formats_chained]; [ auto | ].
  destruct e; auto.
  intros (H1 & H2) H3. split; [ | now apply IH ].
  now rewrite format_after_app.
Qed.

Lemma formats_chained_CloseFilter_events af0 s :
  formats_chained af0 (CloseFilter_events s).
Proof.
  unfold CloseFilter_events.
  destruct (other_replay_gain_filter s), (replay_gain_filter s);
    cbn; auto.
Qed.

(** The events on top of [base] in [tr]. *)
Ltac split_trace base tr k :=
  lazymatch tr with
  | base => k (@nil Event)
  | ?e :: ?tr' => split_trace base tr' ltac:(fun l => k (e :: l))
  end.

Ltac give_later :=
  match goal with
  | |- exists later, ?tr = later ++ ?base /\ _ =>
      split_trace base tr ltac:(fun l => exists l);
      split; [ reflexivity | ]
  end.

Ltac balance :=
  intros;
  unfold CloseFilter_events;
  repeat match goal with
         | E : ?x = Some _ |- context [match ?x with _ => _ end] => rewrite E
         | E : ?x = None |- context [match ?x with _ => _ end] => rewrite E
         end;
  cbn [filter_balance app] in *;
  rewrite ?filter_balance_app;
  cbn [filter_balance app] in *;
  repeat match goal with
         | H : ?b = true |- context [?b] => rewrite H
         | H : ?b = false |- context [?b] => rewrite H
         end;
  rewrite ?Undefined_IsDefined;
  repeat match goal with
         | |- context [N.eqb ?a ?b] => destruct (N.eqb a b)
         end;
  cbn [andb]; lia.

Lemma OpenFilter_post w :
  IsValid (in_audio_format (ao w)) = true ->
  wp (OpenFilter env InAudioFormat)
     (fun r w' =>
        (exists later,
           trace w' = later ++ trace w /\
           ao w' = set_in_audio_format
                     (format_after (in_audio_format (ao w)) later) (ao w) /\
           formats_chained (in_audio_format (ao w)) later) /\
        filter_open_failed (trace w') =
          filter_open_failed (trace w) || negb (IsDefined r) /\
        convert_failed (trace w') = convert_failed (trace w) /\
        count_kind KPluginClose (trace w') =
          count_kind KPluginClose (trace w) /\
        forall f,
          filter_balance f
            ((if IsDefined r then CloseFilter_events (ao w) else [])
               ++ trace w')
          = filter_balance f (trace w))
     (fun _ => False) w.
Proof.
  intros Hv. unfold OpenFilter, open_fails_if_present, close_if_present,
    Filter_Open.
  wp_prim. ao_simpl. rewrite Hv. wp_prim.
  destruct (replay_gain_filter (ao w)) as [ f1 | ] eqn:E1,
           (other_replay_gain_filter (ao w)) as [ f2 | ] eqn:E2;
    wp_go.
  all: rewrite ?Undefined_IsDefined.
  all: (split;
        [ give_later; ao_simpl; cbn [format_after formats_chained fst];
          split; [ reflexivity | repeat split ]
        | ]).
  all: unfold filter_open_failed, convert_failed;
    rewrite ?count_kind_cons;
    cbn [existsb is_filter_open_failure is_convert_failure orb negb
         CloseFilter_events kind Kind_eqb Kind_index Nat.eqb Nat.add].
  all: repeat match goal with
         | H : ?b = true |- context [?b] => rewrite H
         | H : ?b = false |- context [?b] => rewrite H
         end.
  all: cbn [orb negb]; rewrite ?E1, ?E2, ?Undefined_IsDefined.
  all: rewrite ?orb_false_r, ?orb_true_r.
  all: repeat split; try reflexivity.
  all: balance.
Qed.

(** [OpenFilter] on a valid [in_audio_format] always returns, and it
    opens all the filters or none: when it answers the undefined
    format, every filter it has opened is closed again; when it
    answers a format, the filters that are open are exactly those that
    [CloseFilter] closes.  The filters take the format by reference:
    each one is handed what the one before it has left in
    [in_audio_format], and what the last one has left stays there.
    Nothing else in the object is written. *)
Theorem OpenFilter_result s t :
  IsValid (in_audio_format s) = true ->
  exists r w',
    OpenFilter env InAudioFormat (mk_world s t []) = Ok r w' /\
    ao w' = set_in_audio_format
              (format_after (in_audio_format s) (trace w')) s /\
    formats_chained (in_audio_format s) (trace w') /\
    IsDefined r = negb (filter_open_failed (trace w')) /\
    emitted fp_OpenFilter [] (trace w') /\
    forall f,
      filter_balance f
        ((if IsDefined r then CloseFilter_events s else []) ++ trace w')
      = 0%Z.
Proof.
  intros Hv.
  pose proof (@OpenFilter_post (mk_world s t []) Hv) as H. unfold wp in H.
  assert (H3 : emits_only fp_OpenFilter []
                 (final (OpenFilter env InAudioFormat (mk_world s t [])))).
  { apply keepsW_final with (w := mk_world s t []);
      [ apply OpenFilter_fp; reflexivity | apply emitted_refl ]. }
  destruct (OpenFilter env InAudioFormat (mk_world s t [])) as [ r w' | | ];
    try contradiction.
  exists r, w'.
  destruct H as ((later & Ht & Hs & Hch) & H2 & _ & _ & H4).
  cbn [ao trace] in *. rewrite app_nil_r in Ht. subst later.
  repeat split; auto.
  unfold filter_open_failed in H2 at 2. cbn [existsb orb] in H2.
  rewrite H2. now rewrite negb_involutive.
Qed.

Lemma CloseFilter_post w :
  wp CloseFilter
     (fun _ w' =>
        ao w' = ao w /\ tick w' = tick w /\
        trace w' = CloseFilter_events (ao w) ++ trace w)
     (fun _ => False) w.
Proof.
  unfold CloseFilter, close_if_present, CloseFilter_events. wp_prim.
  destruct (replay_gain_filter (ao w)), (other_replay_gain_filter (ao w));
    wp_prim; repeat split.
Qed.

Lemma CloseFilter_events_facts s :
  filter_open_failed (CloseFilter_events s) = false /\
  convert_failed (CloseFilter_events s) = false /\
  count_kind KPluginClose (CloseFilter_events s) = 0.
Proof.
  unfold CloseFilter_events.
  destruct (replay_gain_filter s), (other_replay_gain_filter s);
    repeat split.
Qed.

Lemma ReopenFilter_post s t :
  is_NONE (command s) = false ->
  IsValid (in_audio_format s) = true ->
  wp (ReopenFilter env)
     (fun _ w' =>
        (if filter_open_failed (trace w') || convert_failed (trace w')
         then
           open (ao w') = false /\ pipe (ao w') = None /\
           current_chunk (ao w') = None /\
           FailTimer.IsDefined (fail_timer (ao w')) = true /\
           count_kind KPluginClose (trace w') = 1
         else
           ao w' = set_in_audio_format
                     (format_after (in_audio_format s) (trace w')) s /\
           count_kind KPluginClose (trace w') = 0) /\
        in_audio_format (ao w') =
          format_after (in_audio_format s) (trace w') /\
        formats_chained (in_audio_format s) (trace w') /\
        forall f,
          filter_balance f (trace w') =
          if filter_open_failed (trace w')
          then filter_balance f (CloseFilter_events s) else 0%Z)
     (fun _ => False) (mk_world s t []).
Proof.
  intros Hc Hv. unfold ReopenFilter, fail_timer_Update.
  wp_use CloseFilter_post; [ | assumption ].
  cbn [ao tick trace] in H. destruct H as (Hs & Ht & Htr).
  rewrite app_nil_r in Htr.
  wp_use OpenFilter_post; [ rewrite Hs; exact Hv | | assumption ].
  destruct H as ((later & Hl & Hs1 & Hch) & Hf & Hcv & Hn & Hb).
  rewrite Hs in Hs1, Hb, Hch. rewrite Htr in Hf, Hcv, Hn, Hb, Hl.
  destruct (CloseFilter_events_facts s) as (C1 & C2 & C3).
  rewrite C1 in Hf. rewrite C2 in Hcv. rewrite C3 in Hn.
  cbn [orb] in Hf.
  assert (Ha : format_after (in_audio_format s) (trace w'0) =
               format_after (in_audio_format s) later).
  { rewrite Hl, format_after_app, format_after_CloseFilter_events.
    reflexivity. }
  assert (Hk : formats_chained (in_audio_format s) (trace w'0)).
  { rewrite Hl. apply formats_chained_app.
    - now rewrite format_after_CloseFilter_events.
    - apply formats_chained_CloseFilter_events. }
  rewrite <- Ha in Hs1. clear Ha Hl Hch.
  wp_prim. rewrite Hs1. ao_simpl.
  destruct (IsDefined a0) eqn:Ed; cbn [negb] in *; wp_prim.
  - destruct (convert_filter_set env (tick w'0) (convert_filter s)
                (out_audio_format s)) eqn:Eo; cbn [negb]; wp_prim.
    + (* all went well *)
      unfold filter_open_failed, convert_failed in *.
      cbn [existsb is_filter_open_failure is_convert_failure orb negb
           format_after formats_chained].
      rewrite Hf, Hcv. cbn [orb].
      rewrite count_kind_cons. cbn [kind Kind_eqb Kind_index Nat.eqb Nat.add].
      rewrite Hs1. ao_simpl.
      split; [ split; [ reflexivity | exact Hn ] | ].
      split; [ reflexivity | split; [ exact Hk | ] ].
      intros f. cbn [filter_balance]. specialize (Hb f).
      rewrite filter_balance_app in Hb. lia.
    + (* the convert filter refuses *)
      rewrite wp_lock. wp_prim. rewrite Hs1.
      unfold filter_open_failed, convert_failed in *.
      rewrite !count_kind_cons.
      cbn [existsb is_filter_open_failure is_convert_failure orb negb
           kind Kind_eqb Kind_index Nat.eqb Nat.add filter_balance
           format_after formats_chained].
      rewrite ?Hf, ?Hcv, ?Hn. cbn [orb].
      rewrite ?orb_true_r.
      rewrite after_window_pending by exact Hc. ao_simpl.
      split; [ repeat split | ].
      split; [ reflexivity | split; [ exact Hk | ] ].
      intros f. specialize (Hb f).
      rewrite filter_balance_app in Hb. lia.
  - (* a filter refuses *)
    rewrite wp_lock. wp_prim. rewrite Hs1.
    unfold filter_open_failed, convert_failed in *.
    rewrite !count_kind_cons.
    cbn [existsb is_filter_open_failure is_convert_failure orb negb
         kind Kind_eqb Kind_index Nat.eqb Nat.add filter_balance
         format_after formats_chained].
    rewrite ?Hf, ?Hcv, ?Hn. cbn [orb].
    rewrite after_window_pending by exact Hc. ao_simpl.
    split; [ repeat split | ].
    split; [ reflexivity | split; [ exact Hk | ] ].
    intros f. specialize (Hb f). cbn [app] in Hb. exact Hb.
Qed.

(** [ReopenFilter], as part of a command, on a valid input format.  It
    always returns.  The filters are closed and opened again; they
    take [in_audio_format] by reference, each one is handed what the
    one before it has left there, and what the last one has left stays
    there.  If all goes well nothing else in the object is written and
    the filters are open as before.  If a filter or the convert filter
    refuses the format, the output ends closed ([open] false, [pipe]
    and [current_chunk] null, fail timer set) and the device is closed
    once, without [drain] or [cancel].  The filters are then closed
    only if it was a filter that refused: when the convert filter
    refuses, the filters just opened stay open. *)
Theorem ReopenFilter_result s t :
  is_NONE (command s) = false ->
  IsValid (in_audio_format s) = true ->
  exists w',
    ReopenFilter env (mk_world s t []) = Ok tt w' /\
    (if filter_open_failed (trace w') || convert_failed (trace w')
     then
       open (ao w') = false /\ pipe (ao w') = None /\
       current_chunk (ao w') = None /\
       FailTimer.IsDefined (fail_timer (ao w')) = true /\
       count_kind KPluginClose (trace w') = 1
     else
       ao w' = set_in_audio_format
                 (format_after (in_audio_format s) (trace w')) s /\
       count_kind KPluginClose (trace w') = 0) /\
    in_audio_format (ao w') = format_after (in_audio_format s) (trace w') /\
    formats_chained (in_audio_format s) (trace w') /\
    (forall f,
       filter_balance f (trace w') =
       if filter_open_failed (trace w')
       then filter_balance f (CloseFilter_events s) else 0%Z) /\
    emitted fp_ReopenFilter [] (trace w').
Proof.
  intros Hc Hv.
  pose proof (@ReopenFilter_post s t Hc Hv) as H. unfold wp in H.
  assert (H3 : emits_only fp_ReopenFilter []
                 (final (ReopenFilter env (mk_world s t [])))).
  { apply keepsW_final with (w := mk_world s t []);
      [ apply ReopenFilter_fp; reflexivity | apply emitted_refl ]. }
  destruct (ReopenFilter env (mk_world s t [])) as [ [] w' | | ];
    try contradiction.
  exists w'. destruct H as (H1 & H2 & H4 & H5). repeat split; auto.
Qed.

End Operations.

(** ** Chunks on their way to the device *)

Section Chunks.

Context {X : Externals}.
Variable env : Env.

Lemma played_bytes_emitted fp base tr :
  mem KPluginPlay fp = false -> emitted fp base tr ->
  played_bytes tr = played_bytes base.
Proof.
  intros Hk (later & -> & Hl).
  induction later as [ | e later IH ]; [ reflexivity | ].
  cbn [forallb] in Hl. apply andb_prop in Hl. destruct Hl as (He & Hl).
  cbn [app]. destruct e; cbn [played_bytes]; try (now apply IH).
  cbn [kind] in He. congruence.
Qed.

Lemma PlayChunk_loop_post fuel :
  forall d size w,
    wp (PlayChunk_loop env fuel d size)
       (fun r w' =>
          r = true -> is_NONE (command (ao w')) = true ->
          played_bytes (trace w') = (played_bytes (trace w) + size)%N)
       (fun _ => True) w.
Proof.
  induction fuel as [ | fuel IH ]; intros d size w; cbn [PlayChunk_loop].
  - exact I.
  - wp_prim.
    destruct (N.ltb 0 size && is_NONE (command (ao w))) eqn:Et.
    2:{ wp_prim. intros _ Hn. rewrite Hn, andb_true_r in Et.
        apply N.ltb_ge in Et. assert (size = 0%N) by lia. subst size.
        now rewrite N.add_0_r. }
    wp_use WaitForDelay_post; [ | exact I ].
    destruct H as (H1 & _ & H3).
    pose proof (played_bytes_emitted (fp := fp_WaitForDelay) eq_refl H3)
      as Hp.
    destruct a; cbn [negb]; wp_prim.
    2:{ intros _ Hn. congruence. }
    rewrite wp_lock.
    destruct (N.eqb (ao_plugin_play env (tick w') d size) 0) eqn:En.
    + rewrite wp_bind. apply wp_any. intros _ w2.
      unfold fail_timer_Update. wp_prim. wp_if; try exact I.
      wp_prim. discriminate.
    + wp_prim. wp_if; try exact I. wp_if; try exact I.
      eapply wp_mono; [ apply IH | cbv beta; intros | auto ].
      cbn [trace played_bytes] in H. rewrite (H H0 H2), Hp.
      apply N.leb_le in Heqb. lia.
Qed.

Lemma PlayChunk_send_tag_run chunk w :
  exists w0,
    PlayChunk_send_tag env chunk w = Ok tt w0 /\
    emitted [KUnlock; KPluginSendTag; KLock] (trace w) (trace w0).
Proof.
  unfold PlayChunk_send_tag, bind at 1, get at 1.
  destruct (tag (chunk_deref env chunk)); [ destruct (tags (ao w)) | ].
  - unfold bind at 1, unlock at 1, emit at 1, bind at 1, emit at 1.
    rewrite lock_run. eexists. split; [ reflexivity | ]. cbn [trace].
    repeat (apply emitted_cons; [ reflexivity | ]). apply emitted_refl.
  - exists w. split; [ reflexivity | apply emitted_refl ].
  - exists w. split; [ reflexivity | apply emitted_refl ].
Qed.

Lemma PlayChunk_unfold fuel chunk w w0 :
  PlayChunk_send_tag env chunk w = Ok tt w0 ->
  PlayChunk env fuel chunk w =
  (r <- ao_filter_chunk env chunk ;;
   match r with
   | Some (d, size) => PlayChunk_loop env fuel d size
   | None => Close env false ;; fail_timer_Update env ;; ret false
   end) w0.
Proof.
  unfold PlayChunk_send_tag, PlayChunk. unfold bind at 1, get at 1.
  unfold bind at 3, get at 1. intros E. unfold bind at 1. rewrite E.
  reflexivity.
Qed.

(** [PlayChunk] copes with a device that takes less than it is
    offered: when it returns true and no command has come in, what
    [play] has accepted since adds up to the length that
    [ao_filter_chunk] gave for the chunk. *)
Theorem PlayChunk_plays_all fuel chunk w w' :
  PlayChunk env fuel chunk w = Ok true w' ->
  is_NONE (command (ao w')) = true ->
  exists w0 d size w1,
    PlayChunk_send_tag env chunk w = Ok tt w0 /\
    ao_filter_chunk env chunk w0 = Ok (Some (d, size)) w1 /\
    played_bytes (trace w') = (played_bytes (trace w) + size)%N.
Proof.
  intros E Hn.
  destruct (PlayChunk_send_tag_run chunk w) as (w0 & E0 & H0).
  rewrite (@PlayChunk_unfold fuel chunk w w0 E0) in E.
  pose proof (played_bytes_emitted (fp := [KUnlock; KPluginSendTag; KLock])
                eq_refl H0) as Hp0.
  assert (H1 : emits_only fp_ao_filter_chunk (trace w0)
                 (final (ao_filter_chunk env chunk w0))).
  { apply keepsW_final;
      [ apply ao_filter_chunk_fp; reflexivity | apply emitted_refl ]. }
  unfold bind at 1 in E.
  destruct (ao_filter_chunk env chunk w0) as [ [ [d size] | ] w1 | | ]
    eqn:Ef; try discriminate.
  - cbn [final] in H1.
    pose proof (played_bytes_emitted (fp := fp_ao_filter_chunk) eq_refl H1)
      as Hp1.
    pose proof (PlayChunk_loop_post fuel d size w1) as HL. unfold wp in HL.
    rewrite E in HL.
    exists w0, d, size, w1.
    split; [ exact E0 | split; [ exact Ef | ] ].
    rewrite (HL eq_refl Hn), Hp1, Hp0. reflexivity.
  - exfalso. unfold bind at 1 in E.
    destruct (Close env false w1) as [ [] w2 | | ]; try discriminate.
    all: unfold fail_timer_Update, bind, ask, modify, ret in E; cbn in E;
      discriminate.
Qed.

(** A chunk without data goes through [ao_chunk_data] untouched. *)
Lemma ao_chunk_data_empty p rg cell w :
  chunk_accepted env (ao w) p = true ->
  length (chunk_deref env p) = 0%N ->
  ao_chunk_data env p rg cell w = Ok (Some (data (chunk_deref env p), 0%N)) w.
Proof.
  intros Ha Hl. unfold chunk_accepted in Ha.
  apply andb_prop in Ha. destruct Ha as (Ha & H3).
  apply andb_prop in Ha. destruct Ha as (H1 & H2).
  unfold ao_chunk_data.
  unfold bind at 1. unfold get at 1.
  unfold bind at 1. unfold assert at 1. rewrite H1.
  unfold bind at 1. unfold assert at 1. rewrite H2.
  unfold bind at 1. unfold assert at 1. rewrite H3.
  rewrite Hl. destruct rg; reflexivity.
Qed.

(** The short cuts of [ao_filter_chunk].  When [ao_chunk_data] fails
    for the chunk or for its [other], the result is null.  When the
    chunk has no data, or when its [other] has none, the result has
    length 0 and neither [pcm_mix] nor the filter chain is called:
    with an empty [other], what the chunk itself holds is not played. *)
Lemma ao_filter_chunk_short_cuts chunk w :
  (forall w1,
     ao_chunk_data env chunk (replay_gain_filter (ao w)) PrimarySerial w
       = Ok None w1 ->
     ao_filter_chunk env chunk w = Ok None w1) /\
  (forall d w1,
     ao_chunk_data env chunk (replay_gain_filter (ao w)) PrimarySerial w
       = Ok (Some (d, 0%N)) w1 ->
     ao_filter_chunk env chunk w = Ok (Some (d, 0%N)) w1) /\
  (forall d len w1 other_chunk,
     ao_chunk_data env chunk (replay_gain_filter (ao w)) PrimarySerial w
       = Ok (Some (d, len)) w1 ->
     len <> 0%N ->
     other (chunk_deref env chunk) = Some other_chunk ->
     (forall w2,
        ao_chunk_data env other_chunk (other_replay_gain_filter (ao w1))
          OtherSerial w1 = Ok None w2 ->
        ao_filter_chunk env chunk w = Ok None w2) /\
     (forall other_data w2,
        ao_chunk_data env other_chunk (other_replay_gain_filter (ao w1))
          OtherSerial w1 = Ok (Some (other_data, 0%N)) w2 ->
        ao_filter_chunk env chunk w = Ok (Some (d, 0%N)) w2)).
Proof.
  split; [ | split ].
  - intros w1 E. unfold ao_filter_chunk.
    unfold bind at 1. unfold get at 1. unfold bind at 1. rewrite E.
    reflexivity.
  - intros d w1 E. unfold ao_filter_chunk.
    unfold bind at 1. unfold get at 1. unfold bind at 1. rewrite E.
    reflexivity.
  - intros d len w1 oc E Hl Ho.
    assert (Hz : N.eqb len 0 = false) by now apply N.eqb_neq.
    split.
    + intros w2 E2. unfold ao_filter_chunk.
      unfold bind at 1. unfold get at 1. unfold bind at 1. rewrite E.
      rewrite Hz, Ho.
      unfold bind at 1. unfold get at 1. unfold bind at 1. rewrite E2.
      reflexivity.
    + intros od w2 E2. unfold ao_filter_chunk.
      unfold bind at 1. unfold get at 1. unfold bind at 1. rewrite E.
      rewrite Hz, Ho.
      unfold bind at 1. unfold get at 1. unfold bind at 1. rewrite E2.
      reflexivity.
Qed.

(** A chunk that carries a tag and no data: [PlayChunk] hands the tag
    to the device if the device takes tags, and returns true.  No
    filter is called, nothing is played and the device is not asked
    for its delay.  (The controller is taken to be silent while the
    tag is sent.) *)
Theorem PlayChunk_tag_only fuel chunk tg w :
  tag (chunk_deref env chunk) = Some tg ->
  length (chunk_deref env chunk) = 0%N ->
  chunk_accepted env (ao w) chunk = true ->
  controller env (tick w) = None ->
  PlayChunk env (S fuel) chunk w =
  Ok true
     (if tags (ao w)
      then mk_world (ao w) (S (tick w))
             (EvLock None :: EvPluginSendTag tg :: EvUnlock :: trace w)
      else w).
Proof.
  intros Ht Hl Ha Hc. unfold PlayChunk.
  unfold bind at 1. unfold get at 1. rewrite Ht.
  assert (Ef : forall w1, ao w1 = ao w ->
             (r <- ao_filter_chunk env chunk ;;
              match r with
              | Some (d, size) => PlayChunk_loop env (S fuel) d size
              | None => Close env false ;; fail_timer_Update env ;; ret false
              end) w1 = Ok true w1).
  { intros w1 Hs. unfold bind at 1. unfold ao_filter_chunk.
    unfold bind at 1. unfold get at 1. unfold bind at 1.
    rewrite ao_chunk_data_empty; [ | now rewrite Hs | exact Hl ].
    cbn [N.eqb]. unfold ret at 1. cbn [PlayChunk_loop].
    unfold bind at 1. unfold get at 1. reflexivity. }
  destruct (tags (ao w)).
  - unfold bind at 1. unfold bind at 1. unfold unlock at 1, emit at 1.
    unfold bind at 1. unfold emit at 1. rewrite lock_run.
    cbn [ao tick trace]. unfold after_window, window_posted. rewrite Hc.
    apply Ef. reflexivity.
  - unfold bind at 1. unfold ret at 1. apply Ef. reflexivity.
Qed.

(** A chunk with data whose [other] chunk has none is skipped: the
    cross-fade yields length 0, so [PlayChunk] returns true without a
    call to [pcm_mix], to the filter chain or to [play]. *)
Theorem PlayChunk_empty_other fuel chunk other_chunk w w0 d len w1
    other_data w2 :
  PlayChunk_send_tag env chunk w = Ok tt w0 ->
  other (chunk_deref env chunk) = Some other_chunk ->
  ao_chunk_data env chunk (replay_gain_filter (ao w0)) PrimarySerial w0
    = Ok (Some (d, len)) w1 ->
  len <> 0%N ->
  ao_chunk_data env other_chunk (other_replay_gain_filter (ao w1))
    OtherSerial w1 = Ok (Some (other_data, 0%N)) w2 ->
  PlayChunk env (S fuel) chunk w = Ok true w2.
Proof.
  intros E0 Ho E1 Hl E2.
  rewrite (@PlayChunk_unfold (S fuel) chunk w w0 E0).
  unfold bind at 1.
  rewrite (proj2 (proj2 (proj2 (ao_filter_chunk_short_cuts chunk w0)) d len
                    w1 other_chunk E1 Hl Ho) other_data w2 E2).
  cbn [PlayChunk_loop]. unfold bind at 1. unfold get at 1. reflexivity.
Qed.

(** The other way for [PlayChunk] to fail: a filter (or the mixer)
    answers null.  The open output is closed at once, abruptly, with
    [cancel] and [close] and the filters, the fail timer is set, and
    [PlayChunk] returns false; nothing is played. *)
Theorem PlayChunk_filter_failure fuel chunk w w0 w1 :
  PlayChunk_send_tag env chunk w = Ok tt w0 ->
  ao_filter_chunk env chunk w0 = Ok None w1 ->
  open (ao w1) = true ->
  exists w',
    PlayChunk env fuel chunk w = Ok false w' /\
    open (ao w') = false /\
    FailTimer.IsDefined (fail_timer (ao w')) = true /\
    current_chunk (ao w') = None /\
    (exists a now,
       trace w' =
       EvLock a :: CloseFilter_events (ao w1) ++
       EvPluginClose :: EvPluginCancel :: EvUnlock :: trace w1 /\
       fail_timer (ao w') = Some now) /\
    played_bytes (trace w') = played_bytes (trace w).
Proof.
  intros E0 Ef Ho.
  rewrite (@PlayChunk_unfold fuel chunk w w0 E0).
  unfold bind at 1. rewrite Ef. unfold bind at 1.
  rewrite Close_run by exact Ho.
  unfold fail_timer_Update, bind, ask, modify, ret. cbn [ao tick trace].
  eexists. split; [ reflexivity | ]. cbn [ao trace]. ao_simpl.
  rewrite after_window_open, after_window_current_chunk. ao_simpl.
  split; [ reflexivity | split; [ reflexivity | ] ].
  split; [ reflexivity | ].
  split; [ do 2 eexists; split; reflexivity | ].
  destruct (PlayChunk_send_tag_run chunk w) as (w0' & E0' & H0).
  rewrite E0 in E0'. injection E0' as <-.
  assert (H1 : emits_only fp_ao_filter_chunk (trace w0)
                 (final (ao_filter_chunk env chunk w0))).
  { apply keepsW_final;
      [ apply ao_filter_chunk_fp; reflexivity | apply emitted_refl ]. }
  rewrite Ef in H1. cbn [final] in H1.
  rewrite <- (played_bytes_emitted (fp := [KUnlock; KPluginSendTag; KLock])
                eq_refl H0).
  rewrite <- (played_bytes_emitted (fp := fp_ao_filter_chunk) eq_refl H1).
  cbn [played_bytes].
  apply played_bytes_emitted with (fp := fp_Close false);
    [ reflexivity | ].
  eapply emitted_trans with
    (mid := EvPluginClose :: EvPluginCancel :: EvUnlock :: trace w1).
  - repeat (apply emitted_cons; [ reflexivity | ]). apply emitted_refl.
  - exists (CloseFilter_events (ao w1)). split; [ reflexivity | ].
    unfold CloseFilter_events.
    destruct (other_replay_gain_filter (ao w1)),
      (replay_gain_filter (ao w1)); reflexivity.
Qed.

End Chunks.

(** ** Single commands *)

Section Commands.

Context {X : Externals}.
Variable env : Env.

(** What the worker takes for granted when it gets a command: it
    asserts it, so that a debug build stops there, before anything is
    done.  CLOSE needs an open output with a pipe; OPEN a closed output
    with a pipe, no current chunk and a valid input format; DRAIN on
    an open output, no current chunk. *)
Theorem command_assertions fuel w :
  (command (ao w) = AO_COMMAND_CLOSE ->
   open (ao w) && negb (is_null (pipe (ao w))) = false ->
   Task_switch env fuel w = Aborted w) /\
  (command (ao w) = AO_COMMAND_OPEN ->
   negb (open (ao w)) && negb (is_null (pipe (ao w))) &&
   is_null (current_chunk (ao w)) && IsValid (in_audio_format (ao w))
   = false ->
   Task_switch env fuel w = Aborted w) /\
  (command (ao w) = AO_COMMAND_DRAIN ->
   open (ao w) = true -> is_null (current_chunk (ao w)) = false ->
   Task_switch env fuel w = Aborted w).
Proof.
  split; [ | split ].
  - intros Hc H. unfold Task_switch, bind at 1, get at 1. rewrite Hc.
    unfold bind at 1, assert at 1.
    destruct (open (ao w)); [ | reflexivity ].
    unfold bind at 1, assert at 1.
    cbn [andb] in H. rewrite H. reflexivity.
  - intros Hc H. unfold Task_switch, bind at 1, get at 1. rewrite Hc.
    unfold bind at 1, Open, bind at 1, get at 1.
    unfold bind at 1, assert at 1.
    destruct (open (ao w)); [ reflexivity | ]. cbn [negb andb] in *.
    unfold bind at 1, assert at 1.
    destruct (is_null (pipe (ao w))); [ reflexivity | ].
    cbn [negb andb] in *.
    unfold bind at 1, assert at 1.
    destruct (is_null (current_chunk (ao w))); [ | reflexivity ].
    cbn [negb andb] in *.
    unfold bind at 1, assert at 1. rewrite H. reflexivity.
  - intros Hc Ho Hn. unfold Task_switch, bind at 1, get at 1. rewrite Hc.
    rewrite Ho. unfold bind at 1, bind at 1, bind at 1, assert at 1.
    rewrite Hn. reflexivity.
Qed.

Ltac count_fin :=
  cbn [ao trace];
  ao_simpl;
  repeat (first [ rewrite after_window_open
                | rewrite after_window_current_chunk ];
          ao_simpl);
  rewrite ?count_kind_cons;
  cbn [kind Kind_eqb Kind_index Nat.eqb];
  repeat match goal with |- _ /\ _ => split end;
  first [ reflexivity | assumption | lia
        | repeat (apply emitted_cons; [ reflexivity | ]);
          apply emitted_refl ].

Lemma Task_switch_drain fuel w :
  command (ao w) = AO_COMMAND_DRAIN ->
  wp (Task_switch env fuel)
     (fun r w' =>
        r = SwContinue /\
        open (ao w') = open (ao w) /\
        current_chunk (ao w') = current_chunk (ao w) /\
        count_kind KPluginDrain (trace w') =
          count_kind KPluginDrain (trace w) +
          (if open (ao w) then 1 else 0) /\
        emitted [KPeek; KUnlock; KPluginDrain; KLock; KClientNotify]
          (trace w) (trace w'))
     (fun _ => True) w.
Proof.
  intros Hc. unfold Task_switch, CommandFinished. wp_prim. rewrite Hc.
  destruct (open (ao w)) eqn:Eo.
  - wp_prim. wp_if; try exact I.
    destruct (pipe (ao w)) as [ mp | ]; wp_prim; try exact I.
    wp_if; try exact I. wp_prim. rewrite wp_lock. wp_prim.
    wp_if; try exact I. wp_prim. rewrite wp_lock. wp_prim.
    rewrite ?Eo. count_fin.
  - wp_prim. ao_simpl. rewrite ?Hc. cbn [is_NONE negb]. wp_prim.
    rewrite wp_lock.
    wp_prim. rewrite ?Eo. count_fin.
Qed.

Lemma Task_switch_cancel fuel w :
  command (ao w) = AO_COMMAND_CANCEL ->
  wp (Task_switch env fuel)
     (fun r w' =>
        r = SwContinue /\
        open (ao w') = open (ao w) /\
        current_chunk (ao w') = None /\
        count_kind KPluginCancel (trace w') =
          count_kind KPluginCancel (trace w) +
          (if open (ao w) then 1 else 0) /\
        emitted [KUnlock; KPluginCancel; KLock; KClientNotify]
          (trace w) (trace w'))
     (fun _ => True) w.
Proof.
  intros Hc. unfold Task_switch, CommandFinished. wp_prim. rewrite Hc.
  destruct (open (ao w)) eqn:Eo.
  - wp_prim. rewrite wp_lock. wp_prim.
    wp_if; try exact I. wp_prim. rewrite wp_lock. wp_prim.
    rewrite ?Eo. count_fin.
  - wp_prim. ao_simpl. rewrite ?Hc. cbn [is_NONE negb]. wp_prim.
    rewrite wp_lock.
    wp_prim. rewrite ?Eo. count_fin.
Qed.


End Commands.

(** ** Tags *)

Section Tags.

Variable TagItem : Type.

Local Abbreviation Tag := (TagModel.Tag TagItem).

(** Moving a tag ([Tag(Tag &&)]) hands over the items: the new tag is
    defined exactly if the old one was, and the old one is left
    empty.  It keeps its [time], though, so that it still counts as
    defined when its duration is known. *)
Theorem Tag_move_result (other : Tag) :
  let (new, left) := TagModel.Tag_move other in
  TagModel.IsDefined new = TagModel.IsDefined other /\
  TagModel.items new = TagModel.items other /\
  TagModel.IsEmpty left = true /\
  TagModel.IsDefined left = Z.leb 0 (TagModel.time other).
Proof. destruct other as [ tm hp its ]. cbn. repeat split. Qed.

(** Move assignment ([operator=(Tag &&)]) swaps the items, so that no
    item is lost and none is owned twice, and copies [time] and
    [has_playlist]: afterwards the two tags differ in their items
    only.  Assigning back and forth returns the items to their first
    owners, but not the [time] and [has_playlist] of the tag that was
    assigned to first. *)
Theorem Tag_move_assign_swaps (this other : Tag) :
  let (this1, other1) := TagModel.Tag_move_assign this other in
  TagModel.items this1 = TagModel.items other /\
  TagModel.items other1 = TagModel.items this /\
  TagModel.time this1 = TagModel.time other /\
  TagModel.time other1 = TagModel.time other /\
  TagModel.has_playlist this1 = TagModel.has_playlist other /\
  TagModel.has_playlist other1 = TagModel.has_playlist other /\
  let (other2, this2) := TagModel.Tag_move_assign other1 this1 in
  other2 = other /\
  TagModel.items this2 = TagModel.items this /\
  TagModel.time this2 = TagModel.time other.
Proof.
  destruct this as [ t1 p1 i1 ], other as [ t2 p2 i2 ]. cbn.
  repeat split.
Qed.

End Tags.

(** ** Opening and closing again *)

Section OpenClose.

Context {X : Externals}.
Variable env : Env.

Lemma after_window_CloseFilter_events n s :
  CloseFilter_events (after_window env n s) = CloseFilter_events s.
Proof.
  unfold after_window.
  destruct (controller env n); [ destruct (is_NONE (command s)) | ];
    rewrite ?ctl_apply_CloseFilter_events; reflexivity.
Qed.

Lemma ctl_apply_formats a s :
  out_audio_format (ctl_apply a s) = out_audio_format s /\
  convert_filter (ctl_apply a s) = convert_filter s /\
  config_audio_format (ctl_apply a s) = config_audio_format s.
Proof.
  unfold ctl_apply.
  destruct (ctl_pipe a), (ctl_in_audio_format a), (ctl_allow_play a),
    (ctl_woken_for_play a); repeat split.
Qed.

Lemma after_window_formats n s :
  out_audio_format (after_window env n s) = out_audio_format s /\
  convert_filter (after_window env n s) = convert_filter s /\
  config_audio_format (after_window env n s) = config_audio_format s.
Proof.
  unfold after_window.
  destruct (controller env n); [ destruct (is_NONE (command s)) | ];
    try apply ctl_apply_formats; repeat split.
Qed.

Lemma filter_balance_emitted fp f base tr :
  mem KFilterOpen fp = false -> mem KFilterClose fp = false ->
  emitted fp base tr ->
  filter_balance f tr = filter_balance f base.
Proof.
  intros Ho Hc (later & -> & Hl).
  induction later as [ | e later IH ]; [ reflexivity | ].
  cbn [forallb] in Hl. apply andb_prop in Hl. destruct Hl as (He & Hl).
  cbn [app]. destruct e; cbn [filter_balance]; try (now apply IH);
    cbn [kind] in He; congruence.
Qed.

Lemma ctl_apply_filters a s :
  filter (ctl_apply a s) = filter s /\
  replay_gain_filter (ctl_apply a s) = replay_gain_filter s /\
  other_replay_gain_filter (ctl_apply a s) = other_replay_gain_filter s.
Proof.
  unfold ctl_apply.
  destruct (ctl_pipe a), (ctl_in_audio_format a), (ctl_allow_play a),
    (ctl_woken_for_play a); repeat split.
Qed.

Lemma CloseFilter_events_eq s s' :
  filter s' = filter s ->
  replay_gain_filter s' = replay_gain_filter s ->
  other_replay_gain_filter s' = other_replay_gain_filter s ->
  CloseFilter_events s' = CloseFilter_events s.
Proof. unfold CloseFilter_events. now intros -> -> ->. Qed.

Lemma CloseFilter_events_setters s :
  (forall b, CloseFilter_events (set_really_enabled b s)
             = CloseFilter_events s) /\
  (forall b, CloseFilter_events (set_open b s) = CloseFilter_events s) /\
  (forall f, CloseFilter_events (set_out_audio_format f s)
             = CloseFilter_events s) /\
  (forall f, CloseFilter_events (set_fail_timer f s)
             = CloseFilter_events s).
Proof. repeat split. Qed.

Ltac opening_fin :=
  unfold Opening in *; cbn [ao trace] in *;
  repeat match goal with H : _ /\ _ |- _ => destruct H end;
  repeat match goal with |- _ /\ _ => split end;
  repeat first
    [ rewrite (proj1 (CloseFilter_events_setters _))
    | rewrite (proj1 (proj2 (CloseFilter_events_setters _)))
    | rewrite (proj1 (proj2 (proj2 (CloseFilter_events_setters _))))
    | rewrite (proj2 (proj2 (proj2 (CloseFilter_events_setters _))))
    | rewrite after_window_CloseFilter_events ];
  ao_simpl;
  rewrite ?after_window_open,
    ?(fun n s => proj1 (proj2 (after_window_formats n s)));
  ao_simpl;
  rewrite ?count_kind_cons;
  cbn [kind Kind_eqb Kind_index Nat.eqb Nat.add filter_balance];
  first
    [ assumption | reflexivity | congruence
    | etransitivity; [ apply CloseFilter_events_eq; reflexivity
                     | assumption ]
    | intros; auto ].

Lemma Enable_Opening s0 w :
  Opening s0 w ->
  wp (Enable env) (fun _ w' => Opening s0 w') (fun _ => True) w.
Proof.
  intros Hw. unfold Enable. wp_prim.
  destruct (really_enabled (ao w)); wp_prim; [ exact Hw | ].
  rewrite wp_lock.
  destruct (ao_plugin_enable env (tick w)); cbn [negb]; wp_prim;
    opening_fin.
Qed.

Lemma OpenFilter_Opening s0 w :
  Opening s0 w ->
  wp (OpenFilter env InAudioFormat)
     (fun r w' =>
        (exists f, ao w' = set_in_audio_format f (ao w)) /\
        count_kind KPluginOpen (trace w') = 0 /\
        count_kind KPluginClose (trace w') = 0 /\
        forall f,
          filter_balance f
            ((if IsDefined r then CloseFilter_events (ao w) else [])
               ++ trace w') = 0%Z)
     (fun _ => True) w.
Proof.
  intros (H1 & H2 & H3 & H4 & H5 & H6).
  destruct (IsValid (in_audio_format (ao w))) eqn:Hv.
  2:{ unfold OpenFilter. wp_prim. ao_simpl. rewrite Hv. exact I. }
  pose proof (@OpenFilter_post _ env w Hv) as HP.
  assert (HF : wp (OpenFilter env InAudioFormat)
                  (fun _ w' => emits_only fp_OpenFilter (trace w) w')
                  (emits_only fp_OpenFilter (trace w)) w).
  { apply OpenFilter_fp; [ reflexivity | apply emitted_refl ]. }
  eapply wp_mono; [ exact (@wp_both _ _ _ _ _ _ _ _ HP HF) | cbv beta | auto ].
  intros r w' (((later & _ & G1 & _) & _ & _ & _ & G5) & G6).
  split; [ eexists; exact G1 | ].
  split; [ rewrite <- H5; eapply emitted_count; [ | exact G6 ]; reflexivity | ].
  split; [ rewrite <- H6; eapply emitted_count; [ | exact G6 ]; reflexivity | ].
  intros f. rewrite G5. apply H4.
Qed.

Lemma fail_timer_Update_closed w :
  open (ao w) = false ->
  wp (fail_timer_Update env) (fun _ w' => open (ao w') = false)
     (fun _ => True) w.
Proof. intros H. unfold fail_timer_Update. wp_prim. exact H. Qed.

Lemma closed_tail (P : World -> Prop) w :
  open (ao w) = false ->
  wp (CloseFilter ;; fail_timer_Update env)
     (fun _ w' => if open (ao w') then P w' else True)
     (fun _ => True) w.
Proof.
  intros Ho. rewrite wp_bind.
  eapply wp_mono; [ apply CloseFilter_post | cbv beta | auto ].
  intros _ w1 (Hs & _ & _). unfold fail_timer_Update. wp_prim. ao_simpl.
  rewrite Hs, Ho. exact I.
Qed.

Lemma Open_post s t :
  wp (Open env)
     (fun _ w' =>
        if open (ao w') then Opened s w' else True)
     (fun _ => True) (mk_world s t []).
Proof.
  unfold Open, fail_timer_Reset. wp_prim.
  wp_if; try exact I. wp_if; try exact I. wp_if; try exact I.
  wp_if; try exact I. wp_prim.
  assert (H0 : Opening s
                 (mk_world (set_fail_timer (FailTimer.Reset (fail_timer s)) s)
                    t [])).
  { repeat split; auto. }
  wp_use Enable_Opening; [ exact H0 | | exact I ].
  destruct a; cbn [negb]; wp_prim.
  2:{ destruct H as (Ho & _). rewrite Ho. exact I. }
  wp_use OpenFilter_Opening; [ eassumption | | exact I ].
  destruct H as (Ho & Hcf & Hcv & _).
  destruct H1 as ((fin & G1) & G2 & G3 & G4).
  assert (Go : open (ao w'0) = open (ao w')) by (now rewrite G1).
  assert (Gc : convert_filter (ao w'0) = convert_filter (ao w'))
    by (now rewrite G1).
  assert (Ge : CloseFilter_events (ao w'0) = CloseFilter_events (ao w'))
    by (now rewrite G1).
  destruct (IsDefined a) eqn:Ed; cbn [negb]; wp_prim.
  2:{ eapply wp_mono;
        [ apply fail_timer_Update_closed; congruence | cbv beta | auto ].
      intros _ w2 Hc. rewrite Hc. exact I. }
  wp_if; try exact I. wp_prim. rewrite wp_lock. wp_prim.
  wp_if; try exact I. ao_simpl.
  set (fmt0 := ApplyMask a (config_audio_format (ao w'0))) in *.
  destruct (ao_plugin_open env (tick w'0) fmt0) as [ ok1 fmt1 ] eqn:Eo.
  cbn [fst snd] in *.
  set (s2 := after_window env (S (tick w'0))
               (set_out_audio_format fmt1
                  (set_out_audio_format fmt0 (ao w'0)))) in *.
  assert (F1 : out_audio_format s2 = fmt1).
  { unfold s2. rewrite (proj1 (after_window_formats _ _)). reflexivity. }
  assert (F2 : convert_filter s2 = convert_filter s).
  { unfold s2. rewrite (proj1 (proj2 (after_window_formats _ _))).
    ao_simpl. congruence. }
  assert (F3 : CloseFilter_events s2 = CloseFilter_events (ao w')).
  { unfold s2. rewrite after_window_CloseFilter_events.
    rewrite !(proj1 (proj2 (proj2 (CloseFilter_events_setters _)))).
    exact Ge. }
  rewrite F1, F2.
  destruct ok1; cbn [negb].
  2:{ apply closed_tail. exact Heqb4. }
  wp_prim.
  destruct (convert_filter_set env (S (S (tick w'0))) (convert_filter s)
              fmt1) eqn:Ec; cbn [negb].
  2:{ apply closed_tail. exact Heqb4. }
  wp_prim. ao_simpl. unfold Opened. cbn [ao trace]. ao_simpl.
  rewrite (proj1 (proj2 (CloseFilter_events_setters _))), F1, F3.
  split; [ exact Hcf | ].
  split.
  { intros f. specialize (G4 f). rewrite filter_balance_app in *.
    cbn [filter_balance]. exact G4. }
  rewrite !count_kind_cons. cbn [kind Kind_eqb Kind_index Nat.eqb Nat.add].
  rewrite G2, G3.
  split; [ reflexivity | split; [ reflexivity | ] ].
  do 3 eexists. reflexivity.
Qed.

(** A successful [Open] and the [Close] that follows it.  On success
    the last thing [Open] has done is to set the convert filter to the
    format the device has settled on, which is [out_audio_format]; the
    device has been opened once.  [Close] then closes the device once
    and every filter that [Open] has opened: nothing is left open. *)
Theorem Open_then_Close s t w1 drain :
  Open env (mk_world s t []) = Ok tt w1 ->
  open (ao w1) = true ->
  (exists a f0 tr,
     trace w1 =
     EvConvertSet (convert_filter s) (out_audio_format (ao w1)) true
       :: EvLock a
       :: EvPluginOpen f0 (true, out_audio_format (ao w1)) :: tr) /\
  exists w2,
    Close env drain w1 = Ok tt w2 /\
    open (ao w2) = false /\
    (forall f, filter_balance f (trace w2) = 0%Z) /\
    count_kind KPluginOpen (trace w2) = 1 /\
    count_kind KPluginClose (trace w2) = 1.
Proof.
  intros E Ho. pose proof (Open_post s t) as H. unfold wp in H.
  rewrite E, Ho in H. destruct H as (H1 & H2 & H3 & H4 & H5).
  split; [ exact H5 | ].
  eexists. split; [ apply Close_run; exact Ho | ].
  cbn [ao trace]. rewrite after_window_open. ao_simpl.
  split; [ reflexivity | ].
  split.
  - intros f. cbn [filter_balance]. specialize (H2 f).
    rewrite filter_balance_app in *.
    destruct drain; cbn [filter_balance]; exact H2.
  - rewrite !count_kind_cons, !count_kind_app, !count_kind_cons.
    rewrite !count_kind_CloseFilter_events by reflexivity.
    destruct drain; cbn [kind Kind_eqb Kind_index Nat.eqb Nat.add];
      rewrite H3, H4; split; reflexivity.
Qed.

End OpenClose.

(** ** The same on the example devices *)


(** ENABLE on a device that cannot be enabled is acknowledged all the
    same. *)
Lemma command_acknowledged_once_witness :
  count_kind KClientNotify
    (trace (final (Task_switch Example.no_enable_env 5
                     (mk_world (set_command AO_COMMAND_ENABLE Example.ao0)
                               0 [])))) = 1.
Proof.
  assert (E : Task_switch Example.no_enable_env 5
                (mk_world (set_command AO_COMMAND_ENABLE Example.ao0) 0 []) =
              Ok SwBreak
                 (final (Task_switch Example.no_enable_env 5
                           (mk_world
                              (set_command AO_COMMAND_ENABLE Example.ao0)
                              0 []))))
    by (vm_compute; reflexivity).
  rewrite (@command_acknowledged_once _ _ _ _ _ _ E). reflexivity.
Defined.

(** The device is busy and CANCEL comes in during the first wait. *)
Lemma WaitForDelay_result_witness :
  is_NONE
    (command (ao (final (WaitForDelay Example2.slow_env 5
                           (mk_world Example.ao_open 0 []))))) = false.
Proof.
  assert (E : WaitForDelay Example2.slow_env 5
                (mk_world Example.ao_open 0 []) =
              Ok false (final (WaitForDelay Example2.slow_env 5
                                 (mk_world Example.ao_open 0 []))))
    by (vm_compute; reflexivity).
  pose proof (@WaitForDelay_result _ _ _ _ _ _ E) as H. cbn beta iota in H.
  exact (proj1 H).
Defined.

(** The device refuses to pause: the output is closed. *)
Lemma Pause_result_witness :
  pause (ao (final (Pause Example2.no_pause_env 5
                      (mk_world (Example2.ao_open_with AO_COMMAND_PAUSE)
                                0 [])))) = false /\
  open (ao (final (Pause Example2.no_pause_env 5
                     (mk_world (Example2.ao_open_with AO_COMMAND_PAUSE)
                               0 [])))) = false /\
  count_kind KPluginPlay
    (trace (final (Pause Example2.no_pause_env 5
                     (mk_world (Example2.ao_open_with AO_COMMAND_PAUSE)
                               0 [])))) = 0.
Proof.
  assert (E : Pause Example2.no_pause_env 5
                (mk_world (Example2.ao_open_with AO_COMMAND_PAUSE) 0 []) =
              Ok tt (final (Pause Example2.no_pause_env 5
                              (mk_world
                                 (Example2.ao_open_with AO_COMMAND_PAUSE)
                                 0 []))))
    by (vm_compute; reflexivity).
  destruct (@Pause_result _ _ _ _ _ E) as (H1 & _ & _ & _ & H5).
  split; [ exact H1 | split; [ vm_compute; reflexivity | ] ].
  rewrite (H5 KPluginPlay eq_refl). reflexivity.
Defined.

(** DISABLE on the open output: [cancel], [close], the three filters,
    then [disable]. *)
Lemma Disable_result_witness :
  Disable Example.quiet_env (mk_world Example.ao_open 0 []) =
  Ok tt
     (mk_world
        (set_really_enabled false
           (set_open false
              (set_current_chunk None (set_pipe None Example.ao_open))))
        2
        [EvLock None; EvPluginDisable; EvUnlock;
         EvLock None; EvFilterClose 1%N; EvFilterClose 3%N;
         EvFilterClose 2%N; EvPluginClose; EvPluginCancel; EvUnlock]).
Proof.
  exact (proj1 (@Disable_result Example.simple Example.quiet_env
                  (mk_world Example.ao_open 0 []))).
Defined.

(** The output is handed six channels and its replay gain filter
    takes two: the filter changes [in_audio_format], the filters after
    it are opened on the new format, and that format is what the
    output is left with. *)
Lemma OpenFilter_result_witness :
  exists r w',
    OpenFilter Example2.stereo_env InAudioFormat
      (mk_world Example2.ao_surround 0 []) = Ok r w' /\
    r = Example.cd_format /\
    in_audio_format (ao w') = Example.cd_format /\
    trace w' =
      [@EvFilterOpen Example.simple 1%N Example.cd_format
         (Example.cd_format, Example.cd_format);
       @EvFilterOpen Example.simple 3%N Example.cd_format
         (Example.cd_format, Example.cd_format);
       @EvFilterOpen Example.simple 2%N Example2.surround_format
         (Example.cd_format, Example.cd_format)] /\
    forall f,
      filter_balance f (CloseFilter_events Example.ao0 ++ trace w') = 0%Z.
Proof.
  destruct (@OpenFilter_result Example.simple Example2.stereo_env
              Example2.ao_surround 0 eq_refl)
    as (r & w' & E & _ & _ & _ & _ & Hb).
  exists r, w'. split; [ exact E | ].
  vm_compute in E. injection E as <- <-.
  split; [ reflexivity | split; [ reflexivity | split; [ reflexivity | ] ] ].
  intros f. exact (Hb f).
Defined.

(** The convert filter refuses: the output ends closed and the device
    is closed, but no filter is. *)
Lemma ReopenFilter_result_witness :
  exists w',
    ReopenFilter Example.no_convert_env
      (mk_world (Example2.ao_open_with AO_COMMAND_REOPEN) 0 []) = Ok tt w' /\
    open (ao w') = false /\
    count_kind KPluginClose (trace w') = 1 /\
    forall f, filter_balance f (trace w') = 0%Z.
Proof.
  destruct (@ReopenFilter_result Example.simple Example.no_convert_env
              (Example2.ao_open_with AO_COMMAND_REOPEN) 0 eq_refl eq_refl)
    as (w' & E & H1 & _ & _ & H2 & _).
  exists w'. split; [ exact E | ].
  vm_compute in E. injection E as <-.
  cbn beta iota in H1.
  split; [ reflexivity | split; [ reflexivity | ] ].
  intros f. exact (H2 f).
Defined.

(** Sixteen bytes go to a device that takes four at a time. *)
Lemma PlayChunk_plays_all_witness :
  played_bytes
    (trace (final (PlayChunk Example2.partial_env 10 10%N
                     (mk_world Example2.ao_ready 0 [])))) = 16%N /\
  count_kind KPluginPlay
    (trace (final (PlayChunk Example2.partial_env 10 10%N
                     (mk_world Example2.ao_ready 0 [])))) = 4.
Proof.
  assert (E : PlayChunk Example2.partial_env 10 10%N
                (mk_world Example2.ao_ready 0 []) =
              Ok true (final (PlayChunk Example2.partial_env 10 10%N
                                (mk_world Example2.ao_ready 0 []))))
    by (vm_compute; reflexivity).
  split; [ | vm_compute; reflexivity ].
  destruct (@PlayChunk_plays_all _ _ _ _ _ _ E eq_refl) as (w0 & d & size & w1 & E0 & Ef & Hp).
  rewrite Hp.
  vm_compute in E0. injection E0 as <-.
  vm_compute in Ef. injection Ef as _ <- _. reflexivity.
Defined.

(** Chunk 20 has a tag and no data. *)
Lemma PlayChunk_tag_only_witness :
  PlayChunk Example.quiet_env 1 20%N (mk_world Example.ao_open 0 []) =
  Ok true
     (mk_world Example.ao_open 1
        [EvLock None;
         @EvPluginSendTag Example.simple (TagModel.mkTag 0%Z false [7%N]);
         EvUnlock]).
Proof.
  exact (@PlayChunk_tag_only Example.simple Example.quiet_env 0 20%N
           (TagModel.mkTag 0%Z false [7%N])
           (mk_world Example.ao_open 0 [])
           eq_refl eq_refl eq_refl eq_refl).
Defined.

(** Chunk 50 fades into a chunk without data: the replay gain filter
    sees it, and that is all. *)
Lemma PlayChunk_empty_other_witness :
  PlayChunk Example2.fade_env 1 50%N (mk_world Example2.ao_ready 0 []) =
  Ok true
     (mk_world Example2.ao_ready 1
        [EvFilterPCM 2%N (Example.bytes 8) 8%N
           (Some (Example.bytes 8, 8%N))]).
Proof.
  exact (@PlayChunk_empty_other Example.simple Example2.fade_env 0 50%N
           20%N (mk_world Example2.ao_ready 0 [])
           (mk_world Example2.ao_ready 0 [])
           (Example.bytes 8) 8%N
           (mk_world Example2.ao_ready 1
              [EvFilterPCM 2%N (Example.bytes 8) 8%N
                 (Some (Example.bytes 8, 8%N))])
           [] 
           (mk_world Example2.ao_ready 1
              [EvFilterPCM 2%N (Example.bytes 8) 8%N
                 (Some (Example.bytes 8, 8%N))])
           eq_refl eq_refl eq_refl ltac:(discriminate) eq_refl).
Defined.

(** The replay gain filter answers null for chunk 10: the output is
    closed and nothing is played. *)
Lemma PlayChunk_filter_failure_witness :
  exists w',
    PlayChunk Example2.no_filter_env 5 10%N
      (mk_world Example2.ao_ready 0 []) = Ok false w' /\
    open (ao w') = false /\
    FailTimer.IsDefined (fail_timer (ao w')) = true /\
    played_bytes (trace w') = 0%N.
Proof.
  destruct (@PlayChunk_filter_failure Example.simple Example2.no_filter_env
              5 10%N (mk_world Example2.ao_ready 0 [])
              (mk_world Example2.ao_ready 0 [])
              (mk_world Example2.ao_ready 1
                 [EvFilterPCM 2%N (Example.bytes 16) 16%N None])
              eq_refl eq_refl eq_refl)
    as (w' & E & H1 & H2 & _ & _ & H5).
  exists w'. repeat split; assumption.
Defined.

(** CLOSE on the closed output. *)
Lemma command_assertions_witness :
  Task_switch Example.quiet_env 5
    (mk_world (set_command AO_COMMAND_CLOSE Example.ao0) 0 []) =
  Aborted (mk_world (set_command AO_COMMAND_CLOSE Example.ao0) 0 []).
Proof.
  exact (proj1 (@command_assertions Example.simple Example.quiet_env 5
                  (mk_world (set_command AO_COMMAND_CLOSE Example.ao0) 0 []))
           eq_refl eq_refl).
Defined.


(** OPEN on the example device works; closing it again leaves nothing
    open. *)
Lemma Open_then_Close_witness :
  exists w2,
    Close Example.quiet_env false
      (final (Open Example.quiet_env (mk_world Example.ao_to_open 0 [])))
    = Ok tt w2 /\
    (forall f, filter_balance f (trace w2) = 0%Z) /\
    count_kind KPluginOpen (trace w2) = 1 /\
    count_kind KPluginClose (trace w2) = 1.
Proof.
  assert (E : Open Example.quiet_env (mk_world Example.ao_to_open 0 []) =
              Ok tt (final (Open Example.quiet_env
                              (mk_world Example.ao_to_open 0 []))))
    by (vm_compute; reflexivity).
  assert (Ho : open (ao (final (Open Example.quiet_env
                                  (mk_world Example.ao_to_open 0 []))))
               = true)
    by (vm_compute; reflexivity).
  destruct (proj2 (@Open_then_Close _ _ _ _ _ false E Ho))
    as (w2 & E2 & _ & Hb & H1 & H2).
  exists w2. repeat split; assumption.
Defined.
